(** * irl-benchmark: the MDP model builder and the MCE-IRL numerical core

    A shallow embedding of [irl_benchmark/utils/utils.py]
    ([to_one_hot], [unwrap_env], [is_unwrappable_to], [get_transition_matrix],
    [get_reward_matrix], [MetricsLogger.log_metric], [sigma],
    [avg_undiscounted_return]) and of
    [irl_benchmark/irl/algorithms/mce_irl.py] ([sa_visitations],
    [occupancy_measure], [train]).  [MetricsLogger.save] writes a file and is
    left out.

    Conventions of the embedding.
    - numpy's float64 scalars are modelled by exact rationals [Q]; equality of
      numbers is [Qeq] ([==]).  The concrete inputs used below have integer or
      dyadic entries, on which float64 arithmetic is exact as well.
    - numpy arrays are lists ([vec], [mat], [tensor]); an index that numpy
      rejects raises [IndexError].  Indices are naturals (states and actions of
      a [DiscreteEnv] come from [range]).
    - [to_one_hot] and [sigma] are modelled on one-dimensional arrays.
    - a Python [dict] is the list of its [items()] in insertion order, with
      pairwise distinct keys.  Where the code shares dict objects
      ([get_reward_matrix]) they live in a store and are reached by reference;
      so does the parameter array that [train] updates in place.
    - exceptions are the [Raise] results of the [result] type; a [while] loop
      takes fuel and yields [None] when the fuel does not suffice.
    - the forward solver, the reward functions and the wrappers' feature and
      reward-input functions are not part of these two files: they are
      parameters. *)

From Stdlib Require Import QArith Qabs Qminmax Qround Lia Lqa List Bool Arith ZArith.
From Stdlib Require String.
From stdpp Require Import base list gmap.
Import ListNotations.
Open Scope Q_scope.

(** ** Exceptions *)

Inductive exn : Type :=
| IndexError
| AssertionError
| ValueError
| AttributeError
| NameError.

Inductive result (A : Type) : Type :=
| Ok (a : A)
| Raise (e : exn).
Arguments Ok {A} a.
Arguments Raise {A} e.

Definition bind {A B : Type} (m : result A) (k : A -> result B) : result B :=
  match m with
  | Ok a => k a
  | Raise e => Raise e
  end.

Notation "'let!' x ':=' m 'in' k" := (bind m (fun x => k))
  (at level 10, x name, m at level 100, k at level 200).

(** A [for] loop over [l] that threads an accumulator and stops at the first
    exception. *)
Fixpoint for_each {A B : Type} (l : list A) (body : A -> B -> result B) (acc : B)
  : result B :=
  match l with
  | [] => Ok acc
  | x :: rest => let! acc' := body x acc in for_each rest body acc'
  end.

(** ** Arrays *)

Abbreviation vec := (list Q).
Abbreviation mat := (list (list Q)).
Abbreviation tensor := (list (list (list Q))).

(** [np.zeros(n)], [np.zeros([n, m])], [np.zeros([n, m, k])] *)
Definition zeros (n : nat) : vec := repeat 0 n.
Definition zeros2 (n m : nat) : mat := repeat (zeros m) n.
Definition zeros3 (n m k : nat) : tensor := repeat (zeros2 m k) n.

(** [sum(v)] *)
Definition vsum (v : vec) : Q := fold_right Qplus 0 v.

(** [v[i] += x] *)
Definition vec_add_at (v : vec) (i : nat) (x : Q) : result vec :=
  match v !! i with
  | Some y => Ok (<[i := y + x]> v)
  | None => Raise IndexError
  end.

(** [m[i, j] += x] *)
Definition mat_add_at (m : mat) (i j : nat) (x : Q) : result mat :=
  match m !! i with
  | Some row => let! row' := vec_add_at row j x in Ok (<[i := row']> m)
  | None => Raise IndexError
  end.

(** [t[i, j, k] += x] *)
Definition tensor_add_at (t : tensor) (i j k : nat) (x : Q) : result tensor :=
  match t !! i with
  | Some m => let! m' := mat_add_at m j k x in Ok (<[i := m']> t)
  | None => Raise IndexError
  end.

(** [v[-1] = x] on a vector; numpy's [-1] is the last position. *)
Definition set_last (x : Q) (v : vec) : vec := <[pred (length v) := x]> v.

(** [t[i, :, :] = 0.0] followed by [t[i, :, -1] = 1.0]. *)
Definition absorb_row (m : mat) : mat :=
  map (fun c => set_last 1 (map (fun _ => 0) c)) m.

Definition rewire_to_absorbing (t : tensor) (i : nat) : tensor :=
  match t !! i with
  | Some m => <[i := absorb_row m]> t
  | None => t
  end.

(** [t[-1, :, -1] = 1.0] *)
Definition set_last_row_last_col (t : tensor) : tensor :=
  match t !! pred (length t) with
  | Some m => <[pred (length t) := map (set_last 1) m]> t
  | None => t
  end.

(** [t[s, a, s']], [m[s, a]], [v[s]] *)
Definition tget (t : tensor) (s a s' : nat) : result Q :=
  match t !! s with
  | Some m =>
      match m !! a with
      | Some c => match c !! s' with Some x => Ok x | None => Raise IndexError end
      | None => Raise IndexError
      end
  | None => Raise IndexError
  end.

Definition mget (m : mat) (s a : nat) : result Q :=
  match m !! s with
  | Some r => match r !! a with Some x => Ok x | None => Raise IndexError end
  | None => Raise IndexError
  end.

Definition vget (v : vec) (s : nat) : result Q :=
  match v !! s with Some x => Ok x | None => Raise IndexError end.

(** ** The transition structure of a discrete environment *)

(** One entry [(probability, next_state, reward, done)] of [env.P[s][a]]. *)
Record outcome : Type := mkOutcome {
  probability : Q;
  next_state : nat;
  reward : Q;
  done : bool
}.

(** [env.P]: state -> action -> list of outcomes. *)
Abbreviation Pdict := (list (nat * list (nat * list outcome))).

(** ** Environments, [unwrap_env] and [is_unwrappable_to] *)

Module Environment.

(** The classes the code tests with [isinstance]. *)
Inductive class : Type :=
| DiscreteEnvC
| RewardWrapperC
| FeatureWrapperC.

(** The reward function attached to a reward wrapper: the two variants the
    code recognises and any other one.  [reward] is
    [reward_function.reward(reward_input).item()]. *)
Inductive reward_function : Type :=
| FeatureBasedRewardFunction (reward : vec -> Q)
| TabularRewardFunction (action_in_domain next_state_in_domain : bool)
    (reward : vec -> Q)
| OtherRewardFunction (reward : vec -> Q).

Definition reward_of (rf : reward_function) : vec -> Q :=
  match rf with
  | FeatureBasedRewardFunction r => r
  | TabularRewardFunction _ _ r => r
  | OtherRewardFunction r => r
  end.

Record reward_wrapper : Type := mkRewardWrapper {
  rw_reward_function : reward_function;
  get_reward_input_for : option nat -> option nat -> nat -> vec
}.

Record feature_wrapper : Type := mkFeatureWrapper {
  features : option nat -> option nat -> nat -> vec
}.

(** An environment: a chain of wrappers (objects with an attribute [env])
    around a base environment (without one).  [nS] and [nA] are
    [observation_space.n] and [action_space.n]; a wrapper passes the spaces
    of the environment it wraps.  The attribute [P] of the discrete
    environment is mutable and lives in the store. *)
Inductive Env : Type :=
| DiscreteEnv (nS nA : nat)
| OtherEnv (nS nA : nat)
| RewardWrapper (rw : reward_wrapper) (env : Env)
| FeatureWrapper (fw : feature_wrapper) (env : Env)
| Wrapper (env : Env).

Definition isinstance (env : Env) (c : class) : bool :=
  match env, c with
  | DiscreteEnv _ _, DiscreteEnvC => true
  | RewardWrapper _ _, RewardWrapperC => true
  | FeatureWrapper _ _, FeatureWrapperC => true
  | _, _ => false
  end.

Fixpoint observation_space_n (env : Env) : nat :=
  match env with
  | DiscreteEnv nS _ | OtherEnv nS _ => nS
  | RewardWrapper _ e | FeatureWrapper _ e | Wrapper e => observation_space_n e
  end.

Fixpoint action_space_n (env : Env) : nat :=
  match env with
  | DiscreteEnv _ nA | OtherEnv _ nA => nA
  | RewardWrapper _ e | FeatureWrapper _ e | Wrapper e => action_space_n e
  end.

(** [unwrap_env(env, until_class)] *)
Fixpoint unwrap_env (env : Env) (until_class : option class) : result Env :=
  match until_class with
  | None =>
      match env with
      | RewardWrapper _ e | FeatureWrapper _ e | Wrapper e => unwrap_env e None
      | _ => Ok env
      end
  | Some c =>
      if isinstance env c then Ok env
      else match env with
           | RewardWrapper _ e | FeatureWrapper _ e | Wrapper e =>
               unwrap_env e until_class
           | _ => Raise ValueError
           end
  end.

(** [is_unwrappable_to(env, to_class)] *)
Fixpoint is_unwrappable_to (env : Env) (to_class : class) : bool :=
  if isinstance env to_class then true
  else match env with
       | RewardWrapper _ e | FeatureWrapper _ e | Wrapper e =>
           is_unwrappable_to e to_class
       | _ => false
       end.

(** *** The store *)

(** [discrete_env.P] refers to a dict object that maps a state to a
    per-state dict object, which maps an action to a list of outcomes.
    Every reference the code follows is allocated. *)
Record store : Type := mkStore {
  env_P : nat;
  dicts : gmap nat (list (nat * nat));
  rows : gmap nat (list (nat * list outcome))
}.

Definition items_of (st : store) (l : nat) : list (nat * nat) :=
  default [] (dicts st !! l).

Definition row_of (st : store) (l : nat) : list (nat * list outcome) :=
  default [] (rows st !! l).

(** The nested items a dict reference stands for. *)
Definition read_P (st : store) (l : nat) : Pdict :=
  map (fun e => (fst e, row_of st (snd e))) (items_of st l).

End Environment.
Import Environment.

(** ** [get_transition_matrix] *)

Module TransitionMatrix.

(** The body of the innermost loop (utils.py, lines 69-75). *)
Definition on_outcome (with_absorbing_state : bool) (state action : nat)
    (o : outcome) (table : tensor) : result tensor :=
  let! table := tensor_add_at table state action (next_state o) (probability o) in
  if done o then
    if with_absorbing_state
    then Ok (rewire_to_absorbing table (next_state o))
    else Raise AssertionError
  else Ok table.

Definition on_action (with_absorbing_state : bool) (state : nat)
    (entry : nat * list outcome) (table : tensor) : result tensor :=
  for_each (snd entry) (on_outcome with_absorbing_state state (fst entry)) table.

Definition on_state (with_absorbing_state : bool)
    (entry : nat * list (nat * list outcome)) (table : tensor) : result tensor :=
  for_each (snd entry) (on_action with_absorbing_state (fst entry)) table.

(** Lines 54-82, on the unwrapped discrete environment:
    [nS = env.observation_space.n], [nA = env.action_space.n], [P = env.P]. *)
Definition transition_table (nS nA : nat) (P : Pdict)
    (with_absorbing_state : bool) : result tensor :=
  let n_states := if with_absorbing_state then S nS else nS in
  let n_actions := nA in
  let table := zeros3 n_states n_actions n_states in
  let! table := for_each P (on_state with_absorbing_state) table in
  Ok (if with_absorbing_state then set_last_row_last_col table else table).

(** [get_transition_matrix(env, with_absorbing_state)] in the store [st]. *)
Definition get_transition_matrix (env : Env) (with_absorbing_state : bool)
    (st : store) : result tensor :=
  let! env := unwrap_env env (Some DiscreteEnvC) in
  transition_table (observation_space_n env) (action_space_n env)
    (read_P st (env_P st)) with_absorbing_state.

End TransitionMatrix.
Import TransitionMatrix.

(** The store in which [env.P] is the dict with the items [P], every
    per-state dict an object of its own. *)
Fixpoint store_rows (P : Pdict) (l : nat) : gmap nat (list (nat * list outcome)) :=
  match P with
  | [] => ∅
  | (_, r) :: rest => <[l := r]> (store_rows rest (S l))
  end.

Definition store_of (P : Pdict) : store :=
  mkStore 0 {[ 0%nat := imap (fun i se => (fst se, i)) P ]} (store_rows P 0).

(** The two-state environment
    [P = {0: {0: [(1.0, 1, 0.0, True)]}, 1: {0: [(1.0, 0, 0.0, False)]}}]. *)
Definition P_two_state : Pdict :=
  [ (0%nat, [ (0%nat, [ mkOutcome 1 1 0 true ]) ]);
    (1%nat, [ (0%nat, [ mkOutcome 1 0 0 false ]) ]) ].

(** [sum(t[s, a, :])] *)
Definition row_sum (t : tensor) (s a : nat) : result Q :=
  match t !! s with
  | Some m => match m !! a with Some c => Ok (vsum c) | None => Raise IndexError end
  | None => Raise IndexError
  end.

(** A transition structure of an environment with [nS] states and [nA]
    actions: states, actions and next states are in range. *)
Definition well_formed_P (nS nA : nat) (P : Pdict) : bool :=
  forallb (fun se =>
    (fst se <? nS)%nat &&
    forallb (fun ae =>
      (fst ae <? nA)%nat &&
      forallb (fun o => (next_state o <? nS)%nat) (snd ae)) (snd se)) P.

(** Some outcome of the transition structure has [done = True]. *)
Definition has_done (P : Pdict) : bool :=
  existsb (fun se => existsb (fun ae => existsb done (snd ae)) (snd se)) P.

(** The outcomes listed for every state and action carry probabilities that
    sum to one. *)
Definition stochastic_P (P : Pdict) : bool :=
  forallb (fun se =>
    forallb (fun ae => Qeq_bool (vsum (map probability (snd ae))) 1) (snd se)) P.

(** The tolerance [1e-9] of the transition-tensor invariant. *)
Definition tolerance : Q := 1 # 1000000000.

(** ** [MaxCausalEntIRL] *)

(** An expert trajectory: [traj['states']] and [traj['actions']]. *)
Record trajectory : Type := mkTraj {
  states : list nat;
  actions : list nat
}.

Module MCE.

(** *** [sa_visitations] *)

(** Loop body of lines 39-43. *)
Definition on_timestep (traj : trajectory) (timestep : nat) (sa_visit_count : mat)
  : result mat :=
  match states traj !! timestep with
  | Some state =>
      match actions traj !! timestep with
      | Some action => mat_add_at sa_visit_count state action 1
      | None => Raise IndexError
      end
  | None => Raise IndexError
  end.

(** Loop body of lines 35-43. *)
Definition on_traj (traj : trajectory) (acc : vec * mat) : result (vec * mat) :=
  match states traj !! 0%nat with
  | Some s0 =>
      let! s0_count := vec_add_at (fst acc) s0 1 in
      let! sa_visit_count :=
        for_each (seq 0 (length (actions traj))) (on_timestep traj) (snd acc) in
      Ok (s0_count, sa_visit_count)
  | None => Raise IndexError
  end.

(** [len(l)] as a number. *)
Definition Qlen {A : Type} (l : list A) : Q := inject_Z (Z.of_nat (length l)).

(** [sa_visitations(self)]; returns [(sa_visit_count, P0)].  For an empty
    dataset numpy divides by zero and fills [P0] with nan, which [Q] does not
    represent: the model is meant for non-empty datasets. *)
Definition sa_visitations (n_states n_actions : nat)
    (expert_trajs : list trajectory) : result (mat * vec) :=
  let s0_count := zeros n_states in
  let sa_visit_count := zeros2 n_states n_actions in
  let! acc := for_each expert_trajs on_traj (s0_count, sa_visit_count) in
  let P0 := map (fun c => c / Qlen expert_trajs) (fst acc) in
  Ok (snd acc, P0).

(** *** [occupancy_measure] *)

(** [np.amax(abs(a - b))] for two arrays of the same shape; numpy raises
    [ValueError] on a zero-size array. *)
Definition max_abs_diff (a b : vec) : result Q :=
  match zip_with (fun x y => Qabs (x - y)) a b with
  | [] => Raise ValueError
  | x :: xs => Ok (fold_left Qmax xs x)
  end.

(** [diff > threshold], where [diff] is [None] for [float("inf")]. *)
Definition exceeds (diff : option Q) (threshold : Q) : bool :=
  match diff with
  | None => true
  | Some x => negb (Qle_bool x threshold)
  end.

Section Occupancy.

(** [self.n_states], [self.n_actions], [self.transition_matrix],
    [self.config['gamma']] *)
Variables (n_states n_actions : nat) (transition_matrix : tensor) (gamma : Q).

(** Loop body of lines 75-78. *)
Definition sweep_next_state (policy : mat) (d_prev : vec) (state action : nat)
    (next_state : nat) (d : vec) : result vec :=
  let! prob := tget transition_matrix state action next_state in
  let! dp := vget d_prev state in
  let! pi := mget policy state action in
  vec_add_at d next_state (gamma * dp * pi * prob).

Definition sweep_action (policy : mat) (d_prev : vec) (state : nat)
    (action : nat) (d : vec) : result vec :=
  for_each (seq 0 n_states) (sweep_next_state policy d_prev state action) d.

Definition sweep_state (policy : mat) (d_prev : vec) (state : nat) (d : vec)
  : result vec :=
  for_each (seq 0 n_actions) (sweep_action policy d_prev state) d.

(** One pass of the [while] body up to line 78: [d = np.copy(P0)] and the
    three nested loops. *)
Definition sweep (policy : mat) (P0 d_prev : vec) : result vec :=
  for_each (seq 0 n_states) (sweep_state policy d_prev) P0.

(** The [while] loop of lines 67-86; [None] when [fuel] passes of the body
    do not complete it. *)
Fixpoint while_loop (fuel : nat) (policy : mat) (P0 : vec) (t_max : option Z)
    (threshold : Q) (d_prev : vec) (t : Z) (diff : option Q)
  : option (result vec) :=
  if exceeds diff threshold then
    match fuel with
    | O => None
    | S fuel' =>
        match sweep policy P0 d_prev with
        | Raise e => Some (Raise e)
        | Ok d =>
            match max_abs_diff d_prev d with
            | Raise e => Some (Raise e)
            | Ok diff' =>
                match t_max with
                | Some tm =>
                    if (t + 1 =? tm)%Z then Some (Ok d)
                    else while_loop fuel' policy P0 t_max threshold d (t + 1)%Z
                           (Some diff')
                | None =>
                    while_loop fuel' policy P0 t_max threshold d t (Some diff')
                end
            end
        end
    end
  else Some (Ok d_prev).

(** [occupancy_measure(self, policy, P0, t_max, threshold)] *)
Definition occupancy_measure (fuel : nat) (policy : mat) (P0 : option vec)
    (t_max : option Z) (threshold : Q) : option (result vec) :=
  let P0 := match P0 with
            | Some p => p
            | None => map (fun x => x / inject_Z (Z.of_nat n_states))
                        (repeat 1 n_states)
            end in
  let d_prev := zeros (length P0) in
  while_loop fuel policy P0 t_max threshold d_prev 0%Z None.

End Occupancy.

(** *** [train] *)

(** [np.eye(n)] *)
Definition eye (n : nat) : mat :=
  map (fun i => map (fun j => if (i =? j)%nat then 1 else 0) (seq 0 n)) (seq 0 n).

(** Column [i] of a matrix, that is row [i] of its transpose. *)
Definition column (m : mat) (i : nat) : vec := map (fun row => nth i row 0) m.

(** [np.dot(m.T, v)] for a matrix with [cols] columns; numpy raises
    [ValueError] when the shapes are not aligned. *)
Definition dot_T (cols : nat) (m : mat) (v : vec) : result vec :=
  if (length m =? length v)%nat
  then Ok (map (fun i => vsum (zip_with Qmult (column m i) v)) (seq 0 cols))
  else Raise ValueError.

(** [np.sum(m, 1) / k] *)
Definition row_sums_div (m : mat) (k : Q) : vec := map (fun row => vsum row / k) m.

(** [-(a - b)] on two arrays of the same shape. *)
Definition neg_diff (a b : vec) : vec := zip_with (fun x y => - (x - y)) a b.

(** [theta -= g] on one-dimensional arrays: numpy broadcasts [g] to the shape
    of [theta] and raises [ValueError] when it cannot. *)
Definition isub (theta g : vec) : result vec :=
  if (length theta =? length g)%nat then Ok (zip_with Qminus theta g)
  else match g with
       | [x] => Ok (map (fun t => t - x) theta)
       | _ => Raise ValueError
       end.

(** The array objects of a run: references to numpy arrays. *)
Abbreviation arrays := (gmap nat (list Q)).

Section Train.

Variables (n_states n_actions : nat) (transition_matrix : tensor).
(** [self.config['gamma']], [self.config['lr']] *)
Variables (gamma lr : Q).
Variable expert_trajs : list trajectory.

(** The forward solver built by [rl_alg_factory]: [agent.train(n)] against
    the environment whose reward function carries the parameters [theta],
    and [agent.policy_array()]. *)
Variable agent : Type.
Variable agent_train : agent -> vec -> nat -> agent.
Variable policy_array : agent -> mat.

(** [self.feat_map] *)
Definition feat_map : mat := eye n_states.

(** The default [threshold=1e-6] of [occupancy_measure]. *)
Definition default_threshold : Q := 1 # 1000000.

(** Lines 137-143, on the array [theta_ref] refers to. *)
Definition update_theta (mean_feature_count d : vec) (theta_ref : nat)
    (h : arrays) : result arrays :=
  let! fd := dot_T n_states feat_map d in
  let dl_dtheta := neg_diff mean_feature_count fd in
  let theta := default [] (h !! theta_ref) in
  let! theta' := isub theta (map (Qmult lr) (removelast dl_dtheta)) in
  Ok (<[theta_ref := theta']> h).

(** The [while] loop of lines 117-145 with [remaining] iterations to go. *)
Fixpoint train_loop (fuel : nat) (remaining : nat) (no_rl_episodes : nat)
    (P0 mean_feature_count : vec) (theta_ref : nat) (a : agent) (h : arrays)
  : option (result (nat * arrays)) :=
  match remaining with
  | O => Some (Ok (theta_ref, h))
  | S remaining' =>
      let a := agent_train a (default [] (h !! theta_ref)) no_rl_episodes in
      let policy := policy_array a in
      match occupancy_measure n_states n_actions transition_matrix gamma
              fuel policy (Some P0) None default_threshold with
      | None => None
      | Some (Raise e) => Some (Raise e)
      | Some (Ok d) =>
          match update_theta mean_feature_count d theta_ref h with
          | Raise e => Some (Raise e)
          | Ok h' =>
              train_loop fuel remaining' no_rl_episodes P0 mean_feature_count
                theta_ref a h'
          end
      end
  end.

(** [train(self, no_irl_iterations, no_rl_episodes_per_irl_iteration, _)].
    [theta_ref] is [reward_function.parameters] of the reward function
    created on line 110, an array of the store [h]; [a] is the agent of
    line 113.  The result is the returned reference and the final store. *)
Definition train (fuel : nat) (no_irl_iterations no_rl_episodes : nat)
    (theta_ref : nat) (a : agent) (h : arrays)
  : option (result (nat * arrays)) :=
  match sa_visitations n_states n_actions expert_trajs with
  | Raise e => Some (Raise e)
  | Ok (sa_visit_count, P0) =>
      let mean_s_visit_count := row_sums_div sa_visit_count (Qlen expert_trajs) in
      match dot_T n_states feat_map mean_s_visit_count with
      | Raise e => Some (Raise e)
      | Ok mean_feature_count =>
          train_loop fuel no_irl_iterations no_rl_episodes P0
            mean_feature_count theta_ref a h
      end
  end.

End Train.

End MCE.
Import MCE.

(** [np.sum(m)]: the sum of all entries of a matrix. *)
Definition msum (m : mat) : Q := vsum (map vsum m).

(** A trajectory the statistics can be computed from: a first state, a state
    for every action, states and actions in range. *)
Definition well_formed_traj (n_states n_actions : nat) (traj : trajectory) : bool :=
  match states traj with
  | [] => false
  | s0 :: _ => (s0 <? n_states)%nat
  end
  && (length (actions traj) <=? length (states traj))%nat
  && forallb (fun s => (s <? n_states)%nat)
       (firstn (length (actions traj)) (states traj))
  && forallb (fun a => (a <? n_actions)%nat) (actions traj).

(** The number of trajectories that start in state [s]. *)
Definition starts_in (s : nat) (trajs : list trajectory) : nat :=
  length (List.filter (fun traj => match states traj with
                              | s0 :: _ => (s0 =? s)%nat
                              | [] => false
                              end) trajs).

(** The number of (state, action) timesteps of a dataset. *)
Definition timesteps (trajs : list trajectory) : nat :=
  list_sum (map (fun traj => length (actions traj)) trajs).

Definition Qnat (n : nat) : Q := inject_Z (Z.of_nat n).

(** [Qsum n f] is [f 0 + ... + f (n-1)]. *)
Fixpoint Qsum (n : nat) (f : nat -> Q) : Q :=
  match n with
  | O => 0
  | S k => Qsum k f + f k
  end.

(** Entries of arrays as total functions of the indices. *)
Definition Vat (v : vec) (s : nat) : Q := nth s v 0.
Definition Mat (M : mat) (s a : nat) : Q := nth a (nth s M []) 0.
Definition Tat (T : tensor) (s a s' : nat) : Q := nth s' (nth a (nth s T []) []) 0.

(** Shapes of arrays, as tests. *)
Definition vec_shapeb (n : nat) (v : vec) : bool := (length v =? n)%nat.
Definition mat_shapeb (n m : nat) (M : mat) : bool :=
  (length M =? n)%nat && forallb (vec_shapeb m) M.
Definition tensor_shapeb (n m k : nat) (T : tensor) : bool :=
  (length T =? n)%nat && forallb (mat_shapeb m k) T.

(** A transition tensor over [n] states and [m] actions every row of which
    sums to one. *)
Definition stochastic_tensor (n m : nat) (T : tensor) : bool :=
  tensor_shapeb n m n T
  && forallb (fun M => forallb (fun c => Qeq_bool (vsum c) 1) M) T.

(** A policy matrix every row of which sums to one. *)
Definition stochastic_policy (n m : nat) (policy : mat) : bool :=
  mat_shapeb n m policy && forallb (fun r => Qeq_bool (vsum r) 1) policy.

(** An initial-state vector over [n] states that sums to one. *)
Definition sums_to_one (n : nat) (P0 : vec) : bool :=
  vec_shapeb n P0 && Qeq_bool (vsum P0) 1.

(** A discounted chain: one state that moves to the absorbing state, one
    action, [gamma = 0.5], the policy that takes the action, and a start in
    state 0. *)
Definition chain_T : tensor := [ [ [0; 1] ]; [ [0; 1] ] ].
Definition chain_policy : mat := [ [1]; [1] ].
Definition chain_P0 : vec := [1; 0].
Definition chain_gamma : Q := 1 # 2.

(** Entry [i] of [np.dot(M.T, v)] as the specification writes it:
    [sum_j M[j, i] * v[j]]. *)
Definition dotT_entry (M : mat) (v : vec) (i : nat) : Q :=
  Qsum (length v) (fun j => Mat M j i * Vat v j).

(** A forward solver for the chain that always returns the policy of the
    chain, and a dataset of one trajectory from state 0. *)
Definition chain_agent_train (a : unit) (theta : vec) (episodes : nat) : unit := a.
Definition chain_policy_array (a : unit) : mat := chain_policy.
Definition chain_expert : list trajectory := [ mkTraj [0; 1]%nat [0%nat] ].

(** Equality of two arrays, entry by entry. *)
Definition veq (u v : vec) : Prop := Forall2 Qeq u v.

Section Recursion.

Variables (n_states n_actions : nat) (transition_matrix : tensor) (gamma : Q).
Variables (policy : mat) (P0 : vec).

(** The discounted state-visitation recursion as the specification writes
    it: [d_new[s'] = P0[s'] + gamma * sum_s sum_a d_prev[s] * policy[s,a] *
    T[s,a,s']]. *)
Definition recursion_step (d_prev : vec) : vec :=
  map (fun s' =>
         Vat P0 s' +
         gamma * Qsum n_states (fun s => Qsum n_actions (fun a =>
                   Vat d_prev s * Mat policy s a * Tat transition_matrix s a s')))
    (seq 0 n_states).

(** The [k]-th iterate of the recursion started from the zero vector. *)
Fixpoint iterate (k : nat) : vec :=
  match k with
  | O => zeros n_states
  | S k' => recursion_step (iterate k')
  end.

(** [m] is the maximum of [|u[s] - v[s]|] over the states. *)
Definition is_max_abs_diff (m : Q) (u v : vec) : Prop :=
  (forall s, (s < n_states)%nat -> Qabs (Vat u s - Vat v s) <= m)
  /\ exists s, (s < n_states)%nat /\ Qabs (Vat u s - Vat v s) == m.

(** The iterates [k] and [k+1] are within [threshold] of each other. *)
Definition converged_at (threshold : Q) (k : nat) : Prop :=
  exists m, is_max_abs_diff m (iterate k) (iterate (S k)) /\ m <= threshold.

(** The iterates [k] and [k+1] are farther than [threshold] apart. *)
Definition not_converged_at (threshold : Q) (k : nat) : Prop :=
  exists m, is_max_abs_diff m (iterate k) (iterate (S k)) /\ threshold < m.

End Recursion.

(** The dataset of the end-to-end scenario: one trajectory
    [states=[0,1,2]], [actions=[0,0]]. *)
Definition chain_trajs : list trajectory := [ mkTraj [0; 1; 2]%nat [0; 0]%nat ].

(** ** [get_reward_matrix] *)

Module RewardMatrix.

Definition set_env_P (st : store) (l : nat) : store :=
  mkStore l (dicts st) (rows st).

Definition set_row (st : store) (l : nat) (r : list (nat * list outcome)) : store :=
  mkStore (env_P st) (dicts st) (<[l := r]> (rows st)).

(** A new per-state dict object for every state of [P]. *)
Fixpoint alloc_rows (P : Pdict) (st : store) : list (nat * nat) * store :=
  match P with
  | [] => ([], st)
  | (s, r) :: rest =>
      let l := fresh (dom (rows st)) in
      let res := alloc_rows rest (set_row st l r) in
      ((s, l) :: fst res, snd res)
  end.

(** A new dict object with the given items. *)
Definition alloc_dict (items : list (nat * nat)) (st : store) : nat * store :=
  let l := fresh (dom (dicts st)) in
  (l, mkStore (env_P st) (<[l := items]> (dicts st)) (rows st)).

(** The dict built by lines 93-107: new objects throughout. *)
Definition alloc_P (P : Pdict) (st : store) : nat * store :=
  let res := alloc_rows P st in
  alloc_dict (fst res) (snd res).

(** *** Calls of the reward function *)

(** One call of [reward_function.reward]: the [(state, action, next_state)]
    its input was built for. *)
Definition consult : Type := (option nat * option nat * nat)%type.

(** Computations that may raise and that record the calls of the reward
    function. *)
Definition L (A : Type) : Type := list consult -> result A * list consult.

Definition retL {A : Type} (a : A) : L A := fun log => (Ok a, log).
Definition raiseL {A : Type} (e : exn) : L A := fun log => (Raise e, log).
Definition liftL {A : Type} (r : result A) : L A := fun log => (r, log).
Definition bindL {A B : Type} (m : L A) (k : A -> L B) : L B :=
  fun log =>
    match m log with
    | (Ok a, log') => k a log'
    | (Raise e, log') => (Raise e, log')
    end.
Definition call_reward (rf : reward_function) (c : consult) (input : vec) : L Q :=
  fun log => (Ok (reward_of rf input), log ++ [c]).

Fixpoint mapL {A B : Type} (f : A -> L B) (l : list A) : L (list B) :=
  match l with
  | [] => retL []
  | x :: rest =>
      bindL (f x) (fun y => bindL (mapL f rest) (fun ys => retL (y :: ys)))
  end.

Definition with_reward (o : outcome) (r : Q) : outcome :=
  mkOutcome (probability o) (next_state o) r (done o).

(** [e.features(state, action, next_state)] on an object [e]. *)
Definition features_of (e : Env) (state action : option nat) (next : nat)
  : result vec :=
  match e with
  | FeatureWrapper fw _ => Ok (features fw state action next)
  | _ => Raise AttributeError
  end.

Section GetRewardMatrix.

(** [is_unwrappable_to_subclass_of] and [unwrap_to_subclass_of] are called
    on lines 101 and 102 but [utils.py] neither defines nor imports them:
    they are parameters of the model, and they may raise, as the call of an
    unbound name does. *)
Variable is_unwrappable_to_subclass_of : Env -> class -> result bool.
Variable unwrap_to_subclass_of : Env -> class -> result Env.

(** Lines 98-106: one outcome of the first recomputation. *)
Definition first_outcome (env : Env) (rw : reward_wrapper) (state action : nat)
    (old_outcome : outcome) : L outcome :=
  let next_state := next_state old_outcome in
  bindL
    (liftL (let! unwrappable := is_unwrappable_to_subclass_of env FeatureWrapperC in
            if unwrappable
            then let! e := unwrap_to_subclass_of env FeatureWrapperC in
                 features_of e (Some state) (Some action) next_state
            else Ok (get_reward_input_for rw (Some state) (Some action) next_state)))
    (fun reward_input =>
       bindL (call_reward (rw_reward_function rw)
                (Some state, Some action, next_state) reward_input)
         (fun r => retL (with_reward old_outcome r))).

(** Lines 94-107. *)
Definition first_pass (env : Env) (rw : reward_wrapper) (P : Pdict) : L Pdict :=
  mapL (fun se =>
          bindL (mapL (fun ae =>
                         bindL (mapL (first_outcome env rw (fst se) (fst ae)) (snd ae))
                           (fun outcomes => retL (fst ae, outcomes)))
                   (snd se))
            (fun r => retL (fst se, r)))
    P.

(** Lines 125-129 on one action of the per-state dict of [state]. *)
Definition rewire_entry (n_states state : nat) (e : nat * list outcome)
  : nat * list outcome :=
  match snd e with
  | [o] =>
      if (next_state o =? state)%nat && done o
      then (fst e, [mkOutcome 1 (n_states - 1) 0 true])
      else e
  | _ => e
  end.

(** Lines 124-129: the assignments go to the per-state dict object. *)
Definition rewire_state (n_states : nat) (st : store) (se : nat * nat) : store :=
  match rows st !! snd se with
  | Some r => set_row st (snd se) (map (rewire_entry n_states (fst se)) r)
  | None => st
  end.

(** Lines 123-129 on the dict [correct_P] refers to. *)
Definition rewire_terminals (n_states correct_P : nat) (st : store) : store :=
  fold_left (rewire_state n_states) (items_of st correct_P) st.

(** Lines 143-172: one outcome of the second recomputation. *)
Definition second_outcome (env : Env) (rw : reward_wrapper)
    (with_absorbing_state : bool) (n_states : nat) (old_outcome : outcome)
  : L outcome :=
  let next_state := next_state old_outcome in
  if with_absorbing_state && (next_state =? n_states - 1)%nat
  then retL (with_reward old_outcome 0)
  else
    bindL
      (match rw_reward_function rw with
       | FeatureBasedRewardFunction _ =>
           liftL (let! e := unwrap_env env (Some FeatureWrapperC) in
                  features_of e None None next_state)
       | TabularRewardFunction action_in_domain next_state_in_domain _ =>
           if action_in_domain then raiseL AssertionError
           else if next_state_in_domain then raiseL AssertionError
           else retL (get_reward_input_for rw None None next_state)
       | OtherRewardFunction _ => raiseL ValueError
       end)
      (fun reward_input =>
         bindL (call_reward (rw_reward_function rw) (None, None, next_state)
                  reward_input)
           (fun r => retL (with_reward old_outcome r))).

(** Lines 138-173. *)
Definition second_pass (env : Env) (rw : reward_wrapper)
    (with_absorbing_state : bool) (n_states : nat) (P : Pdict) : L Pdict :=
  mapL (fun se =>
          bindL (mapL (fun ae =>
                         bindL (mapL (second_outcome env rw with_absorbing_state
                                        n_states) (snd ae))
                           (fun outcomes => retL (fst ae, outcomes)))
                   (snd se))
            (fun r => retL (fst se, r)))
    P.

(** Lines 179-186. *)
Definition accumulate_rewards (P : Pdict) (rewards : mat) : result mat :=
  for_each P
    (fun se => for_each (snd se)
       (fun ae => for_each (snd ae)
          (fun o rewards =>
             mat_add_at rewards (fst se) (fst ae) (reward o * probability o))))
    rewards.

(** [rewards[-1, :] = 0.0] *)
Definition zero_last_row (m : mat) : mat :=
  match m !! pred (length m) with
  | Some r => <[pred (length m) := map (fun _ => 0) r]> m
  | None => m
  end.

(** The reward wrapper of [env], when there is one (lines 90-92 and
    132-135). *)
Definition attached (env : Env) : result (option reward_wrapper) :=
  if is_unwrappable_to env RewardWrapperC then
    let! e := unwrap_env env (Some RewardWrapperC) in
    match e with
    | RewardWrapper rw _ => Ok (Some rw)
    | _ => Raise AttributeError
    end
  else Ok None.

(** Lines 90-109: the result is the store after the block and the calls
    made. *)
Definition first_block (env : Env) (st : store) : result unit * store * list consult :=
  match attached env with
  | Raise e => (Raise e, st, [])
  | Ok None => (Ok tt, st, [])
  | Ok (Some rw) =>
      match first_pass env rw (read_P st (env_P st)) [] with
      | (Raise e, log) => (Raise e, st, log)
      | (Ok P1, log) =>
          let res := alloc_P P1 st in
          (Ok tt, set_env_P (snd res) (fst res), log)
      end
  end.

(** Lines 111-129: [correct_P = copy(discrete_env.P)] and the rewiring.
    The result is the reference held by [correct_P]. *)
Definition copy_and_rewire (with_absorbing_state : bool) (n_states : nat)
    (st : store) : nat * store :=
  let res := alloc_dict (items_of st (env_P st)) st in
  if with_absorbing_state
  then (fst res, rewire_terminals n_states (fst res) (snd res))
  else res.

(** Lines 131-189.  The dicts built by lines 137-173 are local to the call
    and are kept as values. *)
Definition last_block (env : Env) (with_absorbing_state : bool)
    (n_states n_actions : nat) (P : Pdict) (log : list consult)
  : result mat * list consult :=
  match attached env with
  | Raise e => (Raise e, log)
  | Ok orw =>
      let res := match orw with
                 | Some rw => second_pass env rw with_absorbing_state n_states P log
                 | None => (Ok P, log)
                 end in
      match res with
      | (Raise e, log') => (Raise e, log')
      | (Ok correct_P, log') =>
          (let! rewards := accumulate_rewards correct_P (zeros2 n_states n_actions) in
           Ok (if with_absorbing_state then zero_last_row rewards else rewards),
           log')
      end
  end.

(** [get_reward_matrix(env, with_absorbing_state)]: the value returned or
    the exception raised, the store after the call, and the calls of the
    reward function in the order they were made. *)
Definition get_reward_matrix (env : Env) (with_absorbing_state : bool)
    (st : store) : result mat * store * list consult :=
  match unwrap_env env (Some DiscreteEnvC) with
  | Raise e => (Raise e, st, [])
  | Ok _ =>
      match first_block env st with
      | (Raise e, st1, log1) => (Raise e, st1, log1)
      | (Ok _, st1, log1) =>
          let n_states :=
            if with_absorbing_state then S (observation_space_n env)
            else observation_space_n env in
          let n_actions := action_space_n env in
          let res := copy_and_rewire with_absorbing_state n_states st1 in
          let st2 := snd res in
          let out := last_block env with_absorbing_state n_states n_actions
                       (read_P st2 (fst res)) log1 in
          (fst out, st2, snd out)
      end
  end.

End GetRewardMatrix.

(** The two names left unbound, as [utils.py] has them. *)
Definition unbound_test (env : Env) (c : class) : result bool := Raise NameError.
Definition unbound_unwrap (env : Env) (c : class) : result Env := Raise NameError.

(** Some state and action of [P] list an outcome. *)
Definition has_outcome (P : Pdict) : bool :=
  existsb (fun se => existsb (fun ae => existsb (fun _ => true) (snd ae)) (snd se)) P.

(** Instances of the two parameters: the class tests of [is_unwrappable_to]
    and [unwrap_env]. *)
Definition subclass_test (env : Env) (c : class) : result bool :=
  Ok (is_unwrappable_to env c).
Definition subclass_unwrap (env : Env) (c : class) : result Env :=
  unwrap_env env (Some c).

(** The transition structure after lines 123-129, as a value. *)
Definition rewire_P (n_states : nat) (P : Pdict) : Pdict :=
  map (fun se => (fst se, map (rewire_entry n_states (fst se)) (snd se))) P.



(** The reward [r * proba] summed over the outcomes listed for the state [s]
    and the action [a], leaving out the outcomes for which [skip] holds. *)
Definition expected_reward (skip : outcome -> bool) (P : Pdict) (s a : nat) : Q :=
  vsum (flat_map (fun se =>
          if (fst se =? s)%nat
          then flat_map (fun ae =>
                 if (fst ae =? a)%nat
                 then map (fun o => if skip o then 0 else reward o * probability o)
                        (snd ae)
                 else []) (snd se)
          else []) P).






(** A state that moves to a terminal state, which loops on itself:
    [P = {0: {0: [(1.0, 1, 0.0, False)]}, 1: {0: [(1.0, 1, 0.0, True)]}}]. *)
Definition P_episode : Pdict :=
  [ (0%nat, [ (0%nat, [ mkOutcome 1 1 0 false ]) ]);
    (1%nat, [ (0%nat, [ mkOutcome 1 1 0 true ]) ]) ].

Definition other_wrapper : reward_wrapper :=
  mkRewardWrapper (OtherRewardFunction (fun _ => 5)) (fun _ _ s' => [Qnat s']).
Definition tabular_wrapper : reward_wrapper :=
  mkRewardWrapper (TabularRewardFunction false false (fun v => 10 + vsum v))
    (fun _ _ s' => [Qnat s']).


End RewardMatrix.
Import RewardMatrix.

(** ** The other helpers of [utils.py] *)



(** [x < y] on numbers. *)
Definition Qlt_bool (x y : Q) : bool := negb (Qle_bool y x).

(** [array[mask] = x], where the mask is a test on the entries. *)
Definition assign_where (mask : Q -> bool) (x : Q) (array : vec) : vec :=
  map (fun y => if mask y then x else y) array.

(** [sigma(array)]: the assignments of lines 217 and 218 on a copy. *)
Definition sigma (array : vec) : vec :=
  let array := assign_where (fun y => Qle_bool 0 y) 1 array in
  let array := assign_where (fun y => Qlt_bool y 0) (-1) array in
  array.



(** [MetricsLogger]: [self.metrics] is a [defaultdict] of lists, kept as its
    items in insertion order. *)
Module MetricsLogger.

Definition metrics (V : Type) : Type := list (String.string * list V).

(** [MetricsLogger()] *)
Definition init {V : Type} : metrics V := [].

(** [self.metrics[name].append(value)]: a missing key is created with an
    empty list first. *)
Fixpoint log_metric {V : Type} (name : String.string) (value : V) (m : metrics V)
  : metrics V :=
  match m with
  | [] => [(name, [value])]
  | (k, vs) :: rest =>
      if String.eqb k name then (k, vs ++ [value]) :: rest
      else (k, vs) :: log_metric name value rest
  end.

(** The list stored under [name], if any. *)
Fixpoint lookup_metric {V : Type} (name : String.string) (m : metrics V)
  : option (list V) :=
  match m with
  | [] => None
  | (k, vs) :: rest => if String.eqb k name then Some vs else lookup_metric name rest
  end.

End MetricsLogger.

(** ** Predicates of the statements *)

(** Shapes of arrays. *)
Definition vec_shape (n : nat) (v : vec) : Prop := length v = n.
Definition mat_shape (n m : nat) (M : mat) : Prop :=
  length M = n /\ Forall (vec_shape m) M.
Definition tensor_shape (n m k : nat) (T : tensor) : Prop :=
  length T = n /\ Forall (mat_shape m k) T.

(** The table of [get_transition_matrix] has its shape and the row of the
    absorbing state is still zero. *)
Definition absorbing_row_untouched (nS nA : nat) (T : tensor) : Prop :=
  tensor_shape (S nS) nA (S nS) T /\ T !! nS = Some (zeros2 nA (S nS)).

(** The items [items] of a dict stand for the transition structure [P] in the
    store [st]. *)
Definition reads (st : store) (items : list (nat * nat)) (P : Pdict) : Prop :=
  Forall2 (fun e se => fst e = fst se /\ rows st !! snd e = Some (snd se)) items P.


(** ** Further predicates of the statements *)

(** The sum of [g o] over the outcomes [o] that [P] lists for the state [s]
    and the action [a], wherever they stand in [P]. *)
Definition listed (g : outcome -> Q) (P : Pdict) (s a : nat) : Q :=
  vsum (flat_map (fun se =>
          if (fst se =? s)%nat
          then flat_map (fun ae => if (fst ae =? a)%nat then map g (snd ae) else [])
                 (snd se)
          else []) P).

(** The probability that [P] lists for the move from [s] under [a] to [j]:
    the entries for the same move are added up. *)
Definition listed_probability (P : Pdict) (s a j : nat) : Q :=
  listed (fun o => if (next_state o =? j)%nat then probability o else 0) P s a.


(** Some outcome of [P] with [done = True] leads to the state [s]. *)
Definition terminal (P : Pdict) (s : nat) : bool :=
  existsb (fun se =>
    existsb (fun ae =>
      existsb (fun o => done o && (next_state o =? s)%nat) (snd ae)) (snd se)) P.

(** Every index the loops of [get_transition_matrix] use on a table with
    [n_states] states and [n_actions] actions is in range. *)
Definition indices_in_range (n_states n_actions : nat) (P : Pdict) : bool :=
  forallb (fun se =>
    forallb (fun ae =>
      forallb (fun o => (fst se <? n_states)%nat && (fst ae <? n_actions)%nat
                        && (next_state o <? n_states)%nat) (snd ae)) (snd se)) P.

(** Every outcome listed for a terminal state ends the episode in that
    state, as in the toy-text environments of gym. *)
Definition terminal_self_loops (P : Pdict) : bool :=
  forallb (fun se =>
    negb (terminal P (fst se))
    || forallb (fun ae =>
         forallb (fun o => done o && (next_state o =? fst se)%nat) (snd ae)) (snd se)) P.

(** Arrays without negative entries. *)
Definition nonneg_vec (v : vec) : bool := forallb (Qle_bool 0) v.
Definition nonneg_mat (M : mat) : bool := forallb nonneg_vec M.
Definition nonneg_tensor (T : tensor) : bool := forallb nonneg_mat T.

(** [sum(abs(v))] *)
Definition l1_norm (v : vec) : Q := vsum (map Qabs v).

(** In the store [st], [env.P] is a dict whose per-state dicts are objects
    of their own and which stands for the transition structure [P]. *)
Definition holds (st : store) (P : Pdict) : Prop :=
  exists items,
    dicts st !! env_P st = Some items
    /\ reads st items P
    /\ List.NoDup (map snd items).


(** The number of timesteps [t < len(traj['actions'])] of a trajectory at
    which the state is [s] and the action is [a]. *)
Definition visits (s a : nat) (traj : trajectory) : nat :=
  length (List.filter
            (fun t => match states traj !! t, actions traj !! t with
                      | Some s', Some a' => (s' =? s)%nat && (a' =? a)%nat
                      | _, _ => false
                      end)
            (seq 0 (length (actions traj)))).

(** The same over a dataset. *)
Definition total_visits (s a : nat) (trajs : list trajectory) : nat :=
  list_sum (map (visits s a) trajs).


(** A run of the logger: the metrics after the calls [log_metric(name, value)]
    for the pairs of [calls], in order. *)
Definition logged {V : Type} (calls : list (String.string * V)) : MetricsLogger.metrics V :=
  fold_left (fun m c => MetricsLogger.log_metric (fst c) (snd c) m) calls
    MetricsLogger.init.

(** The names of [calls] in the order of their first call. *)
Fixpoint first_calls (seen : list String.string) (names : list String.string)
  : list String.string :=
  match names with
  | [] => []
  | n :: rest =>
      if existsb (String.eqb n) seen then first_calls seen rest
      else n :: first_calls (seen ++ [n]) rest
  end.

(** * Properties *)

(** ** Loops and exceptions *)

Lemma bind_Ok {A B : Type} (m : result A) (k : A -> result B) (b : B) :
  bind m k = Ok b -> exists a, m = Ok a /\ k a = Ok b.
Proof. destruct m as [a|e]; simpl; [eauto | discriminate]. Qed.

Lemma for_each_app {A B : Type} (l1 l2 : list A) (body : A -> B -> result B) (acc : B) :
  for_each (l1 ++ l2) body acc = bind (for_each l1 body acc) (for_each l2 body).
Proof.
  revert acc. induction l1 as [|x l1 IH]; intros acc; simpl; [reflexivity|].
  destruct (body x acc) as [acc'|e]; simpl; [apply IH | reflexivity].
Qed.

(** A loop whose body keeps an invariant and never raises under it runs to
    completion and keeps the invariant. *)
Lemma for_each_invariant {A B : Type} (I : B -> Prop) (l : list A)
    (body : A -> B -> result B) (acc : B) :
  I acc ->
  (forall x b, In x l -> I b -> exists b', body x b = Ok b' /\ I b') ->
  exists acc', for_each l body acc = Ok acc' /\ I acc'.
Proof.
  revert acc. induction l as [|x l IH]; intros acc Hacc Hbody; simpl.
  - eauto.
  - destruct (Hbody x acc) as (b' & Hb & Ib'); [left; reflexivity | exact Hacc |].
    rewrite Hb; simpl. apply IH; [exact Ib'|].
    intros y b Hy. apply Hbody. right; exact Hy.
Qed.

(** ** Shapes *)

Lemma zeros_shape n : vec_shape n (zeros n).
Proof. apply repeat_length. Qed.

Lemma zeros2_shape n m : mat_shape n m (zeros2 n m).
Proof.
  split; [apply repeat_length|].
  apply List.Forall_forall. intros r Hr. apply repeat_spec in Hr. subst. apply zeros_shape.
Qed.

Lemma zeros3_shape n m k : tensor_shape n m k (zeros3 n m k).
Proof.
  split; [apply repeat_length|].
  apply List.Forall_forall. intros r Hr. apply repeat_spec in Hr. subst. apply zeros2_shape.
Qed.

Lemma Forall_insert_shape {A : Type} (P : A -> Prop) (l : list A) (i : nat) (x : A) :
  Forall P l -> P x -> Forall P (<[i := x]> l).
Proof.
  revert i. induction l as [|y l IH]; intros i Hl Hx; simpl; [constructor|].
  destruct i; simpl; inversion Hl; subst; constructor; auto.
Qed.

Lemma vec_add_at_ok n (v : vec) (i : nat) (x : Q) :
  vec_shape n v -> (i < n)%nat ->
  exists v', vec_add_at v i x = Ok v' /\ vec_shape n v'.
Proof.
  intros Hv Hi. unfold vec_add_at.
  destruct (v !! i) as [y|] eqn:E.
  - eexists; split; [reflexivity|]. unfold vec_shape. rewrite length_insert. exact Hv.
  - apply lookup_ge_None in E. unfold vec_shape in Hv. lia.
Qed.

Lemma mat_lookup_shape n m (M : mat) (i : nat) :
  mat_shape n m M -> (i < n)%nat -> exists r, M !! i = Some r /\ vec_shape m r.
Proof.
  intros [Hl HF] Hi.
  destruct (M !! i) as [r|] eqn:E.
  - exists r; split; [reflexivity|].
    rewrite Forall_forall in HF. apply HF.
    eapply list_elem_of_lookup_2; eauto.
  - apply lookup_ge_None in E. lia.
Qed.

Lemma tensor_lookup_shape n m k (T : tensor) (i : nat) :
  tensor_shape n m k T -> (i < n)%nat -> exists M, T !! i = Some M /\ mat_shape m k M.
Proof.
  intros [Hl HF] Hi.
  destruct (T !! i) as [r|] eqn:E.
  - exists r; split; [reflexivity|].
    rewrite Forall_forall in HF. apply HF.
    eapply list_elem_of_lookup_2; eauto.
  - apply lookup_ge_None in E. lia.
Qed.

Lemma mat_add_at_ok n m (M : mat) (i j : nat) (x : Q) :
  mat_shape n m M -> (i < n)%nat -> (j < m)%nat ->
  exists M', mat_add_at M i j x = Ok M' /\ mat_shape n m M'.
Proof.
  intros HM Hi Hj. unfold mat_add_at.
  destruct (mat_lookup_shape _ _ _ _ HM Hi) as (r & Hr & Hs). rewrite Hr.
  destruct (vec_add_at_ok _ _ _ x Hs Hj) as (r' & Hr' & Hs'). rewrite Hr'; simpl.
  eexists; split; [reflexivity|].
  destruct HM as [Hl HF]. split; [rewrite length_insert; exact Hl|].
  apply Forall_insert_shape; assumption.
Qed.

Lemma tensor_add_at_ok n m k (T : tensor) (i j l : nat) (x : Q) :
  tensor_shape n m k T -> (i < n)%nat -> (j < m)%nat -> (l < k)%nat ->
  exists T', tensor_add_at T i j l x = Ok T' /\ tensor_shape n m k T'.
Proof.
  intros HT Hi Hj Hl. unfold tensor_add_at.
  destruct (tensor_lookup_shape _ _ _ _ _ HT Hi) as (M & HM & Hs). rewrite HM.
  destruct (mat_add_at_ok _ _ _ _ _ x Hs Hj Hl) as (M' & HM' & Hs'). rewrite HM'; simpl.
  eexists; split; [reflexivity|].
  destruct HT as [Hlen HF]. split; [rewrite length_insert; exact Hlen|].
  apply Forall_insert_shape; assumption.
Qed.

(** ** [get_transition_matrix] without the absorbing state *)

(** A loop that raises [e] at the first bad element and keeps an invariant on
    the others. *)
Lemma for_each_first_failure {A B : Type} (I : B -> Prop) (bad : A -> bool)
    (e : exn) (l : list A) (body : A -> B -> result B) (acc : B) :
  I acc ->
  (forall x b, In x l -> I b -> bad x = false -> exists b', body x b = Ok b' /\ I b') ->
  (forall x b, In x l -> I b -> bad x = true -> body x b = Raise e) ->
  match for_each l body acc with
  | Ok acc' => existsb bad l = false /\ I acc'
  | Raise e' => existsb bad l = true /\ e' = e
  end.
Proof.
  revert acc. induction l as [|x l IH]; intros acc Hacc Hgood Hbad; simpl.
  - split; [reflexivity | exact Hacc].
  - destruct (bad x) eqn:Ex.
    + rewrite (Hbad x acc) by (auto; left; reflexivity). simpl. split; reflexivity.
    + destruct (Hgood x acc) as (b' & Hb & Ib'); [left; reflexivity | exact Hacc | exact Ex |].
      rewrite Hb. simpl. apply IH; [exact Ib' | |].
      * intros y b Hy. apply Hgood. right; exact Hy.
      * intros y b Hy. apply Hbad. right; exact Hy.
Qed.

(** A loop that completes met no element on which its body always raises. *)
Lemma for_each_Ok_no_failure {A B : Type} (bad : A -> bool) (l : list A)
    (body : A -> B -> result B) (acc acc' : B) :
  (forall x b b', In x l -> body x b = Ok b' -> bad x = false) ->
  for_each l body acc = Ok acc' -> existsb bad l = false.
Proof.
  revert acc. induction l as [|x l IH]; intros acc Hbody H; simpl in *; [reflexivity|].
  apply bind_Ok in H. destruct H as (b & Hb & Hrest).
  rewrite (Hbody x acc b) by (auto; left; reflexivity). simpl.
  eapply IH; [|exact Hrest]. intros y c c' Hy. apply Hbody. right; exact Hy.
Qed.

Section NoAbsorbingState.

Variables nS nA : nat.

Lemma on_outcome_false_spec (state action : nat) (o : outcome) (T : tensor) :
  tensor_shape nS nA nS T -> (state < nS)%nat -> (action < nA)%nat ->
  (next_state o < nS)%nat ->
  if done o
  then on_outcome false state action o T = Raise AssertionError
  else exists T', on_outcome false state action o T = Ok T' /\ tensor_shape nS nA nS T'.
Proof.
  intros HT Hs Ha Hn. unfold on_outcome.
  destruct (tensor_add_at_ok _ _ _ _ _ _ _ (probability o) HT Hs Ha Hn) as (T' & HT' & Hsh).
  rewrite HT'. simpl. destruct (done o); [reflexivity | eauto].
Qed.

Lemma on_action_false_spec (state : nat) (ae : nat * list outcome) (T : tensor) :
  tensor_shape nS nA nS T -> (state < nS)%nat -> (fst ae < nA)%nat ->
  forallb (fun o => (next_state o <? nS)%nat) (snd ae) = true ->
  match on_action false state ae T with
  | Ok T' => existsb done (snd ae) = false /\ tensor_shape nS nA nS T'
  | Raise e => existsb done (snd ae) = true /\ e = AssertionError
  end.
Proof.
  intros HT Hs Ha Hr. unfold on_action.
  rewrite forallb_forall in Hr.
  apply for_each_first_failure; [exact HT | |].
  - intros o b Ho Hb Hd.
    pose proof (on_outcome_false_spec state (fst ae) o b Hb Hs Ha) as H.
    rewrite Hd in H. apply H. apply Nat.ltb_lt. apply Hr; exact Ho.
  - intros o b Ho Hb Hd.
    pose proof (on_outcome_false_spec state (fst ae) o b Hb Hs Ha) as H.
    rewrite Hd in H. apply H. apply Nat.ltb_lt. apply Hr; exact Ho.
Qed.

Lemma on_state_false_spec (se : nat * list (nat * list outcome)) (T : tensor) :
  tensor_shape nS nA nS T -> (fst se < nS)%nat ->
  forallb (fun ae =>
    (fst ae <? nA)%nat &&
    forallb (fun o => (next_state o <? nS)%nat) (snd ae)) (snd se) = true ->
  match on_state false se T with
  | Ok T' => existsb (fun ae => existsb done (snd ae)) (snd se) = false
             /\ tensor_shape nS nA nS T'
  | Raise e => existsb (fun ae => existsb done (snd ae)) (snd se) = true
               /\ e = AssertionError
  end.
Proof.
  intros HT Hs Hr. unfold on_state.
  rewrite forallb_forall in Hr.
  apply for_each_first_failure; [exact HT | |].
  - intros ae b Hae Hb Hd.
    specialize (Hr ae Hae). apply andb_true_iff in Hr. destruct Hr as [Ha Hr].
    apply Nat.ltb_lt in Ha.
    pose proof (on_action_false_spec (fst se) ae b Hb Hs Ha Hr) as H.
    destruct (on_action false (fst se) ae b) as [T'|e].
    + exists T'. split; [reflexivity | apply H].
    + destruct H as [H _]. congruence.
  - intros ae b Hae Hb Hd.
    specialize (Hr ae Hae). apply andb_true_iff in Hr. destruct Hr as [Ha Hr].
    apply Nat.ltb_lt in Ha.
    pose proof (on_action_false_spec (fst se) ae b Hb Hs Ha Hr) as H.
    destruct (on_action false (fst se) ae b) as [T'|e].
    + destruct H as [H _]. congruence.
    + destruct H as [_ H]. rewrite H. reflexivity.
Qed.

Lemma transition_table_false_spec (P : Pdict) :
  well_formed_P nS nA P = true ->
  match transition_table nS nA P false with
  | Ok T => has_done P = false /\ tensor_shape nS nA nS T
  | Raise e => has_done P = true /\ e = AssertionError
  end.
Proof.
  intros Hwf. unfold transition_table, well_formed_P in *.
  rewrite forallb_forall in Hwf.
  pose proof (for_each_first_failure (tensor_shape nS nA nS)
                (fun se => existsb (fun ae => existsb done (snd ae)) (snd se))
                AssertionError P (on_state false) (zeros3 nS nA nS)
                (zeros3_shape nS nA nS)) as H.
  unfold has_done.
  destruct (for_each P (on_state false) (zeros3 nS nA nS)) as [T|e]; simpl; apply H.
  all: intros se b Hse Hb Hd; specialize (Hwf se Hse);
    apply andb_true_iff in Hwf; destruct Hwf as [Hs Hr]; apply Nat.ltb_lt in Hs;
    pose proof (on_state_false_spec se b Hb Hs Hr) as H';
    destruct (on_state false se b) as [T'|e'].
  all: try (exists T'; split; [reflexivity | apply H']).
  all: try (destruct H' as [H' _]; congruence).
  all: try (destruct H' as [_ H']; rewrite H'; reflexivity).
Qed.

Lemma transition_table_false_Ok (P : Pdict) (T : tensor) :
  transition_table nS nA P false = Ok T -> has_done P = false.
Proof.
  unfold transition_table. intros H. apply bind_Ok in H.
  destruct H as (T' & H & _). unfold has_done.
  eapply for_each_Ok_no_failure; [|exact H].
  intros se b b' _ Hse. unfold on_state in Hse.
  eapply for_each_Ok_no_failure; [|exact Hse].
  intros ae c c' _ Hae. unfold on_action in Hae.
  eapply for_each_Ok_no_failure; [|exact Hae].
  intros o d d' _ Ho. unfold on_outcome in Ho.
  apply bind_Ok in Ho. destruct Ho as (t & _ & Ho).
  destruct (done o); [discriminate | reflexivity].
Qed.

End NoAbsorbingState.

(** C10.  Without the absorbing state, [get_transition_matrix] raises
    [AssertionError] on every well-formed transition structure that has an
    outcome with [done = True]; whenever it returns a tensor the transition
    structure has no such outcome; and on a well-formed transition structure
    without one it does return a tensor, of shape [nS x nA x nS]. *)
Theorem get_transition_matrix_no_absorbing_state (env e : Env) (st : store) :
  unwrap_env env (Some DiscreteEnvC) = Ok e ->
  let P := read_P st (env_P st) in
  let nS := observation_space_n e in
  let nA := action_space_n e in
  (well_formed_P nS nA P = true -> has_done P = true ->
   get_transition_matrix env false st = Raise AssertionError)
  /\ (forall T, get_transition_matrix env false st = Ok T -> has_done P = false)
  /\ (well_formed_P nS nA P = true -> has_done P = false ->
      exists T, get_transition_matrix env false st = Ok T /\ tensor_shape nS nA nS T).
Proof.
  intros He P nS nA. unfold get_transition_matrix. rewrite He. simpl.
  fold P nS nA. split; [|split].
  - intros Hwf Hd.
    pose proof (transition_table_false_spec nS nA P Hwf) as H.
    destruct (transition_table nS nA P false) as [T|x].
    + destruct H as [H _]. congruence.
    + destruct H as [_ H]. rewrite H. reflexivity.
  - intros T HT. eapply transition_table_false_Ok. exact HT.
  - intros Hwf Hd.
    pose proof (transition_table_false_spec nS nA P Hwf) as H.
    destruct (transition_table nS nA P false) as [T|x].
    + exists T. split; [reflexivity | apply H].
    + destruct H as [H _]. congruence.
Qed.

Lemma get_transition_matrix_no_absorbing_state_witness :
  get_transition_matrix (DiscreteEnv 2 1) false (store_of P_two_state)
  = Raise AssertionError.
Proof.
  exact (proj1 (get_transition_matrix_no_absorbing_state
                  (DiscreteEnv 2 1) (DiscreteEnv 2 1) (store_of P_two_state) eq_refl)
           eq_refl eq_refl).
Defined.

(** ** Sums *)

Lemma Qsum_ext (n : nat) (f g : nat -> Q) :
  (forall i, (i < n)%nat -> f i == g i) -> Qsum n f == Qsum n g.
Proof.
  induction n as [|n IH]; intros H; simpl; [reflexivity|].
  rewrite IH by (intros i Hi; apply H; lia).
  rewrite (H n) by lia. reflexivity.
Qed.

Lemma Qsum_zero (n : nat) : Qsum n (fun _ => 0) == 0.
Proof. induction n as [|n IH]; simpl; [reflexivity|]. rewrite IH. ring. Qed.

Lemma Qsum_plus (n : nat) (f g : nat -> Q) :
  Qsum n (fun i => f i + g i) == Qsum n f + Qsum n g.
Proof. induction n as [|n IH]; simpl; [ring|]. rewrite IH. ring. Qed.

Lemma Qsum_scale (n : nat) (c : Q) (f : nat -> Q) :
  Qsum n (fun i => c * f i) == c * Qsum n f.
Proof. induction n as [|n IH]; simpl; [ring|]. rewrite IH. ring. Qed.

Lemma Qsum_swap (n m : nat) (f : nat -> nat -> Q) :
  Qsum n (fun i => Qsum m (fun j => f i j)) == Qsum m (fun j => Qsum n (fun i => f i j)).
Proof.
  induction n as [|n IH]; simpl.
  - symmetry. apply Qsum_zero.
  - rewrite IH. symmetry. apply Qsum_plus.
Qed.

Lemma Qsum_delta (n j : nat) (v : nat -> Q) :
  Qsum n (fun i => if (j =? i)%nat then v i else 0) == if (j <? n)%nat then v j else 0.
Proof.
  induction n as [|n IH]; simpl; [reflexivity|].
  rewrite IH. destruct (Nat.eqb_spec j n) as [->|Hne].
  - rewrite Nat.ltb_irrefl.
    replace (n <? S n)%nat with true by (symmetry; apply Nat.ltb_lt; lia). ring.
  - destruct (Nat.ltb_spec j n) as [Hlt|Hge].
    + replace (j <? S n)%nat with true by (symmetry; apply Nat.ltb_lt; lia). ring.
    + replace (j <? S n)%nat with false by (symmetry; apply Nat.ltb_ge; lia). ring.
Qed.

Lemma vsum_app (u v : vec) : vsum (u ++ v) == vsum u + vsum v.
Proof.
  induction u as [|x u IH]; simpl; [ring|]. rewrite IH. ring.
Qed.

Lemma vsum_Qsum (v : vec) : vsum v == Qsum (length v) (fun i => nth i v 0).
Proof.
  induction v as [|x v IH] using rev_ind; simpl; [reflexivity|].
  rewrite vsum_app, length_app. simpl.
  replace (length v + 1)%nat with (S (length v)) by lia. simpl.
  rewrite app_nth2 by lia. rewrite Nat.sub_diag. simpl.
  rewrite IH. apply Qplus_comp; [|ring].
  apply Qsum_ext. intros i Hi. rewrite app_nth1 by lia. reflexivity.
Qed.

Lemma vsum_insert (v : vec) (i : nat) (y x : Q) :
  v !! i = Some y -> vsum (<[i := y + x]> v) == vsum v + x.
Proof.
  revert i. induction v as [|z v IH]; intros i H; [discriminate|].
  destruct i as [|i]; simpl in *.
  - injection H as ->. ring.
  - rewrite (IH i H). ring.
Qed.

Lemma vec_add_at_vsum (v v' : vec) (i : nat) (x : Q) :
  vec_add_at v i x = Ok v' -> vsum v' == vsum v + x.
Proof.
  unfold vec_add_at. destruct (v !! i) as [y|] eqn:E; [|discriminate].
  intros H. injection H as <-. apply vsum_insert. exact E.
Qed.

Lemma nth_lookup_Q (v : vec) (i : nat) (y : Q) : v !! i = Some y -> nth i v 0 = y.
Proof.
  revert i. induction v as [|z v IH]; intros i H; [discriminate|].
  destruct i; simpl in *; [congruence | auto].
Qed.

Lemma nth_insert_Q (v : vec) (i j : nat) (x : Q) :
  (i < length v)%nat -> nth j (<[i := x]> v) 0 = if (j =? i)%nat then x else nth j v 0.
Proof.
  revert i j. induction v as [|z v IH]; intros i j Hi; simpl in Hi; [lia|].
  destruct i as [|i], j as [|j]; simpl; try reflexivity.
  apply IH. lia.
Qed.

Lemma vec_add_at_nth (v v' : vec) (i j : nat) (x : Q) :
  vec_add_at v i x = Ok v' ->
  nth j v' 0 == nth j v 0 + (if (j =? i)%nat then x else 0).
Proof.
  unfold vec_add_at. destruct (v !! i) as [y|] eqn:E; [|discriminate].
  intros H. injection H as <-.
  rewrite nth_insert_Q by (eapply lookup_lt_Some; eauto).
  destruct (Nat.eqb_spec j i) as [->|Hne].
  - rewrite (nth_lookup_Q _ _ _ E). reflexivity.
  - ring.
Qed.

Lemma msum_insert (M : mat) (i : nat) (r r' : vec) (x : Q) :
  M !! i = Some r -> vsum r' == vsum r + x -> msum (<[i := r']> M) == msum M + x.
Proof.
  unfold msum. revert i. induction M as [|z M IH]; intros i H Hr; [discriminate|].
  destruct i as [|i]; simpl in *.
  - injection H as ->. rewrite Hr. ring.
  - rewrite (IH i H Hr). ring.
Qed.

Lemma mat_add_at_msum (M M' : mat) (i j : nat) (x : Q) :
  mat_add_at M i j x = Ok M' -> msum M' == msum M + x.
Proof.
  unfold mat_add_at. destruct (M !! i) as [r|] eqn:E; [|discriminate].
  intros H. apply bind_Ok in H. destruct H as (r' & Hr' & H). injection H as <-.
  eapply msum_insert; [exact E|]. eapply vec_add_at_vsum; exact Hr'.
Qed.



Lemma nth_zeros (n i : nat) : nth i (zeros n) 0 = 0.
Proof.
  unfold zeros. destruct (Nat.lt_ge_cases i n) as [H|H].
  - apply nth_repeat_lt. exact H.
  - apply nth_overflow. rewrite repeat_length. exact H.
Qed.


Lemma Qnat_S (n : nat) : Qnat (S n) == Qnat n + 1.
Proof.
  unfold Qnat. rewrite Nat2Z.inj_succ. unfold Z.succ.
  rewrite inject_Z_plus. reflexivity.
Qed.

Lemma Qnat_plus (n m : nat) : Qnat (n + m) == Qnat n + Qnat m.
Proof.
  unfold Qnat. rewrite Nat2Z.inj_add, inject_Z_plus. reflexivity.
Qed.


(** ** [sa_visitations] *)

Lemma for_each_measure {A B : Type} (I : B -> Prop) (mu : B -> Q) (l : list A)
    (body : A -> B -> result B) (acc : B) :
  I acc ->
  (forall x b, In x l -> I b -> exists b', body x b = Ok b' /\ I b' /\ mu b' == mu b + 1) ->
  exists acc', for_each l body acc = Ok acc' /\ I acc' /\ mu acc' == mu acc + Qnat (length l).
Proof.
  revert acc. induction l as [|x l IH]; intros acc Hacc Hbody.
  - exists acc. split; [reflexivity|]. split; [exact Hacc|]. simpl. unfold Qnat. simpl. ring.
  - destruct (Hbody x acc) as (b & Hb & Ib & Hmu); [left; reflexivity | exact Hacc |].
    destruct (IH b Ib) as (acc' & Hf & Iacc' & Hmu').
    { intros y c Hy. apply Hbody. right; exact Hy. }
    exists acc'. split; [simpl; rewrite Hb; exact Hf|]. split; [exact Iacc'|].
    rewrite Hmu', Hmu. change (length (x :: l)) with (S (length l)).
    rewrite Qnat_S. ring.
Qed.

Lemma forallb_firstn_lookup {A : Type} (p : A -> bool) (l : list A) (k t : nat) :
  forallb p (firstn k l) = true -> (t < k)%nat -> (t < length l)%nat ->
  exists x, l !! t = Some x /\ p x = true.
Proof.
  revert k t. induction l as [|y l IH]; intros k t H Hk Hl; simpl in Hl; [lia|].
  destruct k as [|k]; [lia|]. simpl in H. apply andb_true_iff in H. destruct H as [Hy H].
  destruct t as [|t]; simpl.
  - exists y. split; [reflexivity | exact Hy].
  - apply (IH k t H); lia.
Qed.

Lemma forallb_lookup {A : Type} (p : A -> bool) (l : list A) (t : nat) :
  forallb p l = true -> (t < length l)%nat -> exists x, l !! t = Some x /\ p x = true.
Proof.
  revert t. induction l as [|y l IH]; intros t H Hl; simpl in Hl; [lia|].
  simpl in H. apply andb_true_iff in H. destruct H as [Hy H].
  destruct t as [|t]; simpl.
  - exists y. split; [reflexivity | exact Hy].
  - apply (IH t H); lia.
Qed.

Section Visitations.

Variables n_states n_actions : nat.

Lemma on_timestep_spec (traj : trajectory) (t : nat) (sa : mat) :
  well_formed_traj n_states n_actions traj = true ->
  In t (seq 0 (length (actions traj))) ->
  mat_shape n_states n_actions sa ->
  exists sa', on_timestep traj t sa = Ok sa' /\ mat_shape n_states n_actions sa'
              /\ msum sa' == msum sa + 1.
Proof.
  intros Hwf Ht Hsa. apply in_seq in Ht.
  unfold well_formed_traj in Hwf.
  apply andb_true_iff in Hwf; destruct Hwf as [Hwf Hacts].
  apply andb_true_iff in Hwf; destruct Hwf as [Hwf Hsts].
  apply andb_true_iff in Hwf; destruct Hwf as [Hwf Hlen].
  apply Nat.leb_le in Hlen.
  destruct (forallb_firstn_lookup (fun s => (s <? n_states)%nat) (states traj)
              (length (actions traj)) t)
    as (s & Hs & Hsn); [assumption | lia | lia |].
  destruct (forallb_lookup (fun a => (a <? n_actions)%nat) (actions traj) t)
    as (a & Ha & Han); [assumption | lia |].
  apply Nat.ltb_lt in Hsn, Han.
  unfold on_timestep. rewrite Hs, Ha.
  destruct (mat_add_at_ok _ _ _ _ _ 1 Hsa Hsn Han) as (sa' & Hsa' & Hsh).
  exists sa'. split; [exact Hsa'|]. split; [exact Hsh|].
  eapply mat_add_at_msum. exact Hsa'.
Qed.

Lemma on_traj_spec (traj : trajectory) (s0_count : vec) (sa : mat) :
  well_formed_traj n_states n_actions traj = true ->
  vec_shape n_states s0_count -> mat_shape n_states n_actions sa ->
  exists s0_count' sa',
    on_traj traj (s0_count, sa) = Ok (s0_count', sa')
    /\ vec_shape n_states s0_count' /\ mat_shape n_states n_actions sa'
    /\ vsum s0_count' == vsum s0_count + 1
    /\ msum sa' == msum sa + Qnat (length (actions traj))
    /\ forall s, nth s s0_count' 0 == nth s s0_count 0 + Qnat (starts_in s [traj]).
Proof.
  intros Hwf Hs0 Hsa.
  destruct (for_each_measure (mat_shape n_states n_actions) msum
              (seq 0 (length (actions traj))) (on_timestep traj) sa Hsa)
    as (sa' & Hloop & Hsh & Hsum).
  { intros t b Ht Hb. apply on_timestep_spec; assumption. }
  rewrite length_seq in Hsum.
  unfold on_traj, starts_in. simpl.
  pose proof Hwf as Hwf'. unfold well_formed_traj in Hwf'.
  destruct (states traj) as [|s0 rest] eqn:Est; [discriminate|].
  simpl in Hwf'. repeat (apply andb_true_iff in Hwf'; destruct Hwf' as [Hwf' ?]).
  apply Nat.ltb_lt in Hwf'. simpl.
  destruct (vec_add_at_ok _ _ _ 1 Hs0 Hwf') as (s0' & Hadd & Hsh0).
  rewrite Hadd. simpl. rewrite Hloop. simpl.
  exists s0', sa'. split; [reflexivity|].
  split; [exact Hsh0|]. split; [exact Hsh|].
  split; [eapply vec_add_at_vsum; exact Hadd|].
  split; [exact Hsum|].
  intros s. rewrite (vec_add_at_nth _ _ _ s _ Hadd).
  rewrite (Nat.eqb_sym s s0).
  destruct (s0 =? s)%nat; simpl; unfold Qnat; simpl; reflexivity.
Qed.

Lemma starts_in_cons (s : nat) (traj : trajectory) (trajs : list trajectory) :
  starts_in s (traj :: trajs) = (starts_in s [traj] + starts_in s trajs)%nat.
Proof.
  unfold starts_in. simpl.
  destruct (match states traj with [] => false | s0 :: _ => (s0 =? s)%nat end);
    reflexivity.
Qed.

Lemma trajs_loop_spec (trajs : list trajectory) :
  forallb (well_formed_traj n_states n_actions) trajs = true ->
  forall (s0_count : vec) (sa : mat),
  vec_shape n_states s0_count -> mat_shape n_states n_actions sa ->
  exists s0_count' sa',
    for_each trajs on_traj (s0_count, sa) = Ok (s0_count', sa')
    /\ vec_shape n_states s0_count' /\ mat_shape n_states n_actions sa'
    /\ vsum s0_count' == vsum s0_count + Qnat (length trajs)
    /\ msum sa' == msum sa + Qnat (timesteps trajs)
    /\ forall s, nth s s0_count' 0 == nth s s0_count 0 + Qnat (starts_in s trajs).
Proof.
  induction trajs as [|traj trajs IH]; intros Hwf s0_count sa Hs0 Hsa.
  - exists s0_count, sa. split; [reflexivity|]. split; [exact Hs0|]. split; [exact Hsa|].
    split; [change (Qnat (length (@nil trajectory))) with 0; ring|].
    split; [change (Qnat (timesteps [])) with 0; ring|].
    intros s. change (Qnat (starts_in s [])) with 0. ring.
  - simpl in Hwf. apply andb_true_iff in Hwf. destruct Hwf as [Hwf1 Hwf].
    destruct (on_traj_spec traj s0_count sa Hwf1 Hs0 Hsa)
      as (s1 & sa1 & H1 & Hsh1 & Hsha1 & Hv1 & Hm1 & Hn1).
    destruct (IH Hwf s1 sa1 Hsh1 Hsha1)
      as (s2 & sa2 & H2 & Hsh2 & Hsha2 & Hv2 & Hm2 & Hn2).
    exists s2, sa2. split; [simpl; rewrite H1; simpl; exact H2|].
    split; [exact Hsh2|]. split; [exact Hsha2|].
    split; [|split].
    + rewrite Hv2, Hv1. change (length (traj :: trajs)) with (S (length trajs)).
      rewrite Qnat_S. ring.
    + rewrite Hm2, Hm1.
      change (timesteps (traj :: trajs))
        with (length (actions traj) + timesteps trajs)%nat.
      rewrite Qnat_plus. ring.
    + intros s. rewrite Hn2, Hn1, (starts_in_cons s traj trajs), Qnat_plus. ring.
Qed.

End Visitations.



(** ** Reading arrays *)

Lemma lookup_nth_lt {A : Type} (l : list A) (i : nat) (d : A) :
  (i < length l)%nat -> l !! i = Some (nth i l d).
Proof.
  revert i. induction l as [|x l IH]; intros i H; simpl in H; [lia|].
  destruct i; simpl; [reflexivity | apply IH; lia].
Qed.

Lemma vec_shapeb_spec n v : vec_shapeb n v = true <-> vec_shape n v.
Proof. unfold vec_shapeb, vec_shape. apply Nat.eqb_eq. Qed.

Lemma mat_shapeb_spec n m M : mat_shapeb n m M = true <-> mat_shape n m M.
Proof.
  unfold mat_shapeb, mat_shape. rewrite andb_true_iff, Nat.eqb_eq, forallb_forall.
  rewrite List.Forall_forall.
  split; intros [H1 H2]; (split; [exact H1|]); intros x Hx; apply vec_shapeb_spec; auto.
Qed.

Lemma tensor_shapeb_spec n m k T : tensor_shapeb n m k T = true <-> tensor_shape n m k T.
Proof.
  unfold tensor_shapeb, tensor_shape. rewrite andb_true_iff, Nat.eqb_eq, forallb_forall.
  rewrite List.Forall_forall.
  split; intros [H1 H2]; (split; [exact H1|]); intros x Hx; apply mat_shapeb_spec; auto.
Qed.

Lemma mat_row_shape n m (M : mat) (s : nat) :
  mat_shape n m M -> (s < n)%nat -> length (nth s M []) = m.
Proof.
  intros HM Hs. destruct (mat_lookup_shape _ _ _ _ HM Hs) as (r & Hr & Hsh).
  destruct HM as [Hl _].
  rewrite (lookup_nth_lt M s []) in Hr by lia. injection Hr as ->. exact Hsh.
Qed.

Lemma tensor_row_shape n m k (T : tensor) (s : nat) :
  tensor_shape n m k T -> (s < n)%nat -> mat_shape m k (nth s T []).
Proof.
  intros HT Hs. destruct (tensor_lookup_shape _ _ _ _ _ HT Hs) as (r & Hr & Hsh).
  destruct HT as [Hl _].
  rewrite (lookup_nth_lt T s []) in Hr by lia. injection Hr as ->. exact Hsh.
Qed.

Lemma vget_ok (v : vec) (s : nat) : (s < length v)%nat -> vget v s = Ok (Vat v s).
Proof. intros H. unfold vget, Vat. rewrite (lookup_nth_lt v s 0 H). reflexivity. Qed.

Lemma mget_ok n m (M : mat) (s a : nat) :
  mat_shape n m M -> (s < n)%nat -> (a < m)%nat -> mget M s a = Ok (Mat M s a).
Proof.
  intros HM Hs Ha. unfold mget, Mat.
  pose proof (mat_row_shape _ _ _ _ HM Hs) as Hr. destruct HM as [Hl _].
  rewrite (lookup_nth_lt M s []) by lia.
  rewrite (lookup_nth_lt (nth s M []) a 0) by lia. reflexivity.
Qed.

Lemma tget_ok n m k (T : tensor) (s a j : nat) :
  tensor_shape n m k T -> (s < n)%nat -> (a < m)%nat -> (j < k)%nat ->
  tget T s a j = Ok (Tat T s a j).
Proof.
  intros HT Hs Ha Hj. unfold tget, Tat.
  pose proof (tensor_row_shape _ _ _ _ _ HT Hs) as HM.
  pose proof (mat_row_shape _ _ _ _ HM Ha) as Hr.
  destruct HT as [Hl _]. destruct HM as [Hl' _].
  rewrite (lookup_nth_lt T s []) by lia.
  rewrite (lookup_nth_lt (nth s T []) a []) by lia.
  rewrite (lookup_nth_lt (nth a (nth s T []) []) j 0) by lia. reflexivity.
Qed.

(** ** Entrywise equality *)

Lemma veq_intro (n : nat) (u v : vec) :
  length u = n -> length v = n -> (forall j, (j < n)%nat -> Vat u j == Vat v j) ->
  veq u v.
Proof.
  revert u v. induction n as [|n IH]; intros u v Hu Hv H.
  - destruct u, v; try discriminate. constructor.
  - destruct u as [|x u], v as [|y v]; try discriminate. constructor.
    + apply (H 0%nat). lia.
    + apply IH; [simpl in Hu; lia | simpl in Hv; lia |].
      intros j Hj. apply (H (S j)). lia.
Qed.


Lemma veq_Vat (u v : vec) (j : nat) : veq u v -> Vat u j == Vat v j.
Proof.
  intros H. revert j. induction H as [|x y u v Hxy H IH]; intros j.
  - reflexivity.
  - destruct j; [exact Hxy | apply IH].
Qed.

Lemma veq_refl (u : vec) : veq u u.
Proof. induction u; constructor; [reflexivity | assumption]. Qed.

Lemma veq_sym (u v : vec) : veq u v -> veq v u.
Proof. intros H. induction H; constructor; [symmetry|]; assumption. Qed.

Lemma veq_trans (u v w : vec) : veq u v -> veq v w -> veq u w.
Proof.
  intros H. revert w. induction H as [|x y u v Hxy H IH]; intros w Hw.
  - exact Hw.
  - inversion Hw as [|y' z v' w' Hyz Hvw]; subst. constructor.
    + rewrite Hxy. exact Hyz.
    + apply IH. exact Hvw.
Qed.

Lemma Vat_map_seq (f : nat -> Q) (n j : nat) :
  (j < n)%nat -> Vat (map f (seq 0 n)) j = f j.
Proof.
  intros Hj. unfold Vat.
  rewrite (nth_indep _ 0 (f 0%nat)) by (rewrite length_map, length_seq; exact Hj).
  rewrite (map_nth f). rewrite seq_nth by exact Hj. reflexivity.
Qed.

(** ** One sweep of [occupancy_measure] *)

(** A loop over [range(k)] whose [i]-th pass adds [g i j] to entry [j] adds
    their sum. *)
Lemma for_each_seq_adds (n k : nat) (body : nat -> vec -> result vec)
    (g : nat -> nat -> Q) :
  (forall i d, (i < k)%nat -> length d = n ->
     exists d', body i d = Ok d' /\ length d' = n /\
                forall j, (j < n)%nat -> Vat d' j == Vat d j + g i j) ->
  forall d, length d = n ->
  exists d', for_each (seq 0 k) body d = Ok d' /\ length d' = n /\
             forall j, (j < n)%nat -> Vat d' j == Vat d j + Qsum k (fun i => g i j).
Proof.
  induction k as [|k IH]; intros Hbody d Hd.
  - exists d. split; [reflexivity|]. split; [exact Hd|]. intros j Hj. simpl. ring.
  - destruct (IH (fun i d Hi => Hbody i d (Nat.lt_lt_succ_r _ _ Hi)) d Hd)
      as (d1 & H1 & Hl1 & Hv1).
    destruct (Hbody k d1 (Nat.lt_succ_diag_r k) Hl1) as (d2 & H2 & Hl2 & Hv2).
    exists d2. rewrite seq_S, for_each_app, H1. simpl. rewrite H2.
    split; [reflexivity|]. split; [exact Hl2|].
    intros j Hj. rewrite (Hv2 j Hj), (Hv1 j Hj). ring.
Qed.

Section Sweep.

Variables (n_states n_actions : nat) (transition_matrix : tensor) (gamma : Q).
Variables (policy : mat) (P0 : vec).
Hypothesis HT : tensor_shape n_states n_actions n_states transition_matrix.
Hypothesis Hpolicy : mat_shape n_states n_actions policy.

Lemma sweep_next_state_spec (d_prev : vec) (state action j : nat) (d : vec) :
  length d_prev = n_states -> (state < n_states)%nat -> (action < n_actions)%nat ->
  (j < n_states)%nat -> length d = n_states ->
  exists d', sweep_next_state transition_matrix gamma policy d_prev state action j d
             = Ok d'
    /\ length d' = n_states
    /\ forall i, (i < n_states)%nat ->
         Vat d' i == Vat d i +
           (if (i =? j)%nat
            then gamma * Vat d_prev state * Mat policy state action
                 * Tat transition_matrix state action j
            else 0).
Proof.
  intros Hdp Hs Ha Hj Hd. unfold sweep_next_state.
  rewrite (tget_ok _ _ _ _ _ _ _ HT Hs Ha Hj). simpl.
  rewrite vget_ok by lia. simpl.
  rewrite (mget_ok _ _ _ _ _ Hpolicy Hs Ha). simpl.
  destruct (vec_add_at_ok n_states d j
              (gamma * Vat d_prev state * Mat policy state action
               * Tat transition_matrix state action j) Hd Hj) as (d' & Hd' & Hsh).
  exists d'. split; [exact Hd'|]. split; [exact Hsh|].
  intros i Hi. unfold Vat at 1 2. apply (vec_add_at_nth _ _ _ i _ Hd').
Qed.

Lemma sweep_action_spec (d_prev : vec) (state action : nat) (d : vec) :
  length d_prev = n_states -> (state < n_states)%nat -> (action < n_actions)%nat ->
  length d = n_states ->
  exists d', sweep_action n_states transition_matrix gamma policy d_prev state action d
             = Ok d'
    /\ length d' = n_states
    /\ forall i, (i < n_states)%nat ->
         Vat d' i == Vat d i +
           gamma * Vat d_prev state * Mat policy state action
           * Tat transition_matrix state action i.
Proof.
  intros Hdp Hs Ha Hd. unfold sweep_action.
  destruct (for_each_seq_adds n_states n_states
              (sweep_next_state transition_matrix gamma policy d_prev state action)
              (fun j i => if (i =? j)%nat
                          then gamma * Vat d_prev state * Mat policy state action
                               * Tat transition_matrix state action j
                          else 0))
    with (d := d) as (d' & Hd' & Hl & Hv).
  - intros j c Hj Hc. apply sweep_next_state_spec; assumption.
  - exact Hd.
  - exists d'. split; [exact Hd'|]. split; [exact Hl|].
    intros i Hi. rewrite (Hv i Hi). apply Qplus_comp; [reflexivity|].
    rewrite (Qsum_delta n_states i
               (fun j => gamma * Vat d_prev state * Mat policy state action
                         * Tat transition_matrix state action j)).
    replace (i <? n_states)%nat with true by (symmetry; apply Nat.ltb_lt; exact Hi).
    reflexivity.
Qed.

Lemma sweep_state_spec (d_prev : vec) (state : nat) (d : vec) :
  length d_prev = n_states -> (state < n_states)%nat -> length d = n_states ->
  exists d', sweep_state n_states n_actions transition_matrix gamma policy d_prev state d
             = Ok d'
    /\ length d' = n_states
    /\ forall i, (i < n_states)%nat ->
         Vat d' i == Vat d i +
           Qsum n_actions (fun a => gamma * Vat d_prev state * Mat policy state a
                                    * Tat transition_matrix state a i).
Proof.
  intros Hdp Hs Hd. unfold sweep_state.
  apply (for_each_seq_adds n_states n_actions
           (sweep_action n_states transition_matrix gamma policy d_prev state)
           (fun a i => gamma * Vat d_prev state * Mat policy state a
                       * Tat transition_matrix state a i)); [|exact Hd].
  intros a c Ha Hc. apply sweep_action_spec; assumption.
Qed.

(** A sweep computes the recursion of the specification, entry by entry. *)
Lemma sweep_spec (d_prev : vec) :
  length d_prev = n_states -> length P0 = n_states ->
  exists d, sweep n_states n_actions transition_matrix gamma policy P0 d_prev = Ok d
    /\ length d = n_states
    /\ veq d (recursion_step n_states n_actions transition_matrix gamma policy P0 d_prev).
Proof.
  intros Hdp HP0. unfold sweep.
  destruct (for_each_seq_adds n_states n_states
              (sweep_state n_states n_actions transition_matrix gamma policy d_prev)
              (fun s i => Qsum n_actions (fun a =>
                 gamma * Vat d_prev s * Mat policy s a * Tat transition_matrix s a i)))
    with (d := P0) as (d & Hd & Hl & Hv).
  - intros s c Hs Hc. apply sweep_state_spec; assumption.
  - exact HP0.
  - exists d. split; [exact Hd|]. split; [exact Hl|].
    apply (veq_intro n_states); [exact Hl | |].
    + unfold recursion_step. rewrite length_map, length_seq. reflexivity.
    + intros j Hj. rewrite (Hv j Hj). unfold recursion_step.
      rewrite Vat_map_seq by exact Hj.
      apply Qplus_comp; [reflexivity|].
      rewrite <- Qsum_scale. apply Qsum_ext. intros s Hs.
      rewrite <- Qsum_scale. apply Qsum_ext. intros a Ha. ring.
Qed.

End Sweep.

(** ** The maximum of the differences *)

Lemma fold_left_Qmax_is_max (xs : vec) :
  forall x,
    (forall j, (j < S (length xs))%nat -> nth j (x :: xs) 0 <= fold_left Qmax xs x)
    /\ exists j, (j < S (length xs))%nat /\ nth j (x :: xs) 0 == fold_left Qmax xs x.
Proof.
  induction xs as [|y ys IH]; intros x.
  - split.
    + intros j Hj. simpl in Hj. assert (j = 0%nat) by lia. subst. simpl. apply Qle_refl.
    + exists 0%nat. split; [simpl; lia | reflexivity].
  - destruct (IH (Qmax x y)) as [Hle (j & Hj & Hmax)]. simpl fold_left. split.
    + intros i Hi. destruct i as [|[|i]].
      * simpl. eapply Qle_trans; [apply Q.le_max_l | apply (Hle 0%nat); simpl; lia].
      * simpl. eapply Qle_trans; [apply Q.le_max_r | apply (Hle 0%nat); simpl; lia].
      * apply (Hle (S i)). simpl in *. lia.
    + destruct j as [|j].
      * simpl in Hmax.
        destruct (Q.max_spec x y) as [[_ E]|[_ E]].
        -- exists 1%nat. split; [simpl; lia|]. simpl. rewrite <- Hmax, E. reflexivity.
        -- exists 0%nat. split; [simpl; lia|]. simpl. rewrite <- Hmax, E. reflexivity.
      * exists (S (S j)). split; [simpl in *; lia | exact Hmax].
Qed.

Lemma nth_zip_with_abs (u v : vec) (j : nat) :
  (j < length u)%nat -> (j < length v)%nat ->
  nth j (zip_with (fun x y => Qabs (x - y)) u v) 0 = Qabs (Vat u j - Vat v j).
Proof.
  revert v j. induction u as [|x u IH]; intros v j Hu Hv; simpl in Hu; [lia|].
  destruct v as [|y v]; simpl in Hv; [lia|].
  destruct j; simpl; [reflexivity | apply IH; lia].
Qed.

Lemma length_zip_with_abs (u v : vec) :
  length u = length v ->
  length (zip_with (fun x y => Qabs (x - y)) u v) = length u.
Proof.
  revert v. induction u as [|x u IH]; intros v H; destruct v; simpl in *;
    try discriminate; [reflexivity|]. f_equal. apply IH. lia.
Qed.

Lemma max_abs_diff_spec (n : nat) (u v : vec) :
  (0 < n)%nat -> length u = n -> length v = n ->
  exists m, max_abs_diff u v = Ok m /\ is_max_abs_diff n m u v.
Proof.
  intros Hn Hu Hv. unfold max_abs_diff.
  pose proof (length_zip_with_abs u v ltac:(congruence)) as Hl.
  pose proof (fun j => nth_zip_with_abs u v j) as Hnth.
  destruct (zip_with (fun x y => Qabs (x - y)) u v) as [|x xs] eqn:E.
  - simpl in Hl. lia.
  - exists (fold_left Qmax xs x). split; [reflexivity|].
    destruct (fold_left_Qmax_is_max xs x) as [Hle (j & Hj & Hmax)].
    simpl in Hl. split.
    + intros s Hs. rewrite <- Hnth by lia. apply Hle. lia.
    + exists j. split; [lia|]. rewrite <- Hnth by lia. exact Hmax.
Qed.

Lemma is_max_abs_diff_unique (n : nat) (m m' : Q) (u v : vec) :
  is_max_abs_diff n m u v -> is_max_abs_diff n m' u v -> m == m'.
Proof.
  intros [Hle (s & Hs & Hm)] [Hle' (s' & Hs' & Hm')].
  apply Qle_antisym.
  - rewrite <- Hm. apply Hle'. exact Hs.
  - rewrite <- Hm'. apply Hle. exact Hs'.
Qed.

Lemma is_max_abs_diff_veq (n : nat) (m : Q) (u v u' v' : vec) :
  veq u u' -> veq v v' -> is_max_abs_diff n m u v -> is_max_abs_diff n m u' v'.
Proof.
  intros Hu Hv [Hle (s & Hs & Hm)]. split.
  - intros j Hj. rewrite <- (veq_Vat u u' j Hu), <- (veq_Vat v v' j Hv). apply Hle. exact Hj.
  - exists s. split; [exact Hs|].
    rewrite <- (veq_Vat u u' s Hu), <- (veq_Vat v v' s Hv). exact Hm.
Qed.

(** ** The loop of [occupancy_measure] *)

Lemma while_loop_done n_states n_actions T gamma fuel policy P0 t_max threshold
    d_prev t diff :
  exceeds diff threshold = false ->
  while_loop n_states n_actions T gamma fuel policy P0 t_max threshold d_prev t diff
  = Some (Ok d_prev).
Proof. intros H. destruct fuel; simpl; rewrite H; reflexivity. Qed.

Lemma exceeds_Some (m threshold : Q) :
  exceeds (Some m) threshold = false <-> m <= threshold.
Proof.
  unfold exceeds. rewrite negb_false_iff. apply Qle_bool_iff.
Qed.

Lemma exceeds_Some_true (m threshold : Q) :
  exceeds (Some m) threshold = true <-> threshold < m.
Proof.
  unfold exceeds. rewrite negb_true_iff. split.
  - intros H. apply Qnot_le_lt. intros Hle. apply Qle_bool_iff in Hle. congruence.
  - intros H. destruct (Qle_bool m threshold) eqn:E; [|reflexivity].
    apply Qle_bool_iff in E. exfalso. apply (Qlt_not_le _ _ H). exact E.
Qed.

Section Loop.

Variables (n_states n_actions : nat) (transition_matrix : tensor) (gamma : Q).
Variables (policy : mat) (P0 : vec).
Hypothesis HT : tensor_shape n_states n_actions n_states transition_matrix.
Hypothesis Hpolicy : mat_shape n_states n_actions policy.
Hypothesis HP0 : length P0 = n_states.
Hypothesis Hn : (0 < n_states)%nat.

Local Abbreviation step := (recursion_step n_states n_actions transition_matrix gamma policy P0).
Local Abbreviation iter := (iterate n_states n_actions transition_matrix gamma policy P0).
Local Abbreviation loop := (while_loop n_states n_actions transition_matrix gamma).

Lemma recursion_step_length (d : vec) : length (step d) = n_states.
Proof. unfold recursion_step. rewrite length_map, length_seq. reflexivity. Qed.

Lemma recursion_step_veq (d d' : vec) : veq d d' -> veq (step d) (step d').
Proof.
  intros H. apply (veq_intro n_states); try apply recursion_step_length.
  intros j Hj. unfold recursion_step. rewrite !Vat_map_seq by exact Hj.
  apply Qplus_comp; [reflexivity|]. apply Qmult_comp; [reflexivity|].
  apply Qsum_ext. intros s Hs. apply Qsum_ext. intros a Ha.
  rewrite (veq_Vat d d' s H). reflexivity.
Qed.

Lemma iterate_length (k : nat) : length (iter k) = n_states.
Proof. destruct k; simpl; [apply repeat_length | apply recursion_step_length]. Qed.

(** One pass of the loop body from an array equal to the [k]-th iterate. *)
Lemma body_spec (d_prev : vec) (k : nat) :
  length d_prev = n_states -> veq d_prev (iter k) ->
  exists d m,
    sweep n_states n_actions transition_matrix gamma policy P0 d_prev = Ok d
    /\ length d = n_states /\ veq d (iter (S k))
    /\ max_abs_diff d_prev d = Ok m
    /\ is_max_abs_diff n_states m (iter k) (iter (S k)).
Proof.
  intros Hl Hveq.
  destruct (sweep_spec n_states n_actions transition_matrix gamma policy P0 HT Hpolicy
              d_prev Hl HP0) as (d & Hd & Hld & Hvd).
  assert (Hd' : veq d (iter (S k))).
  { simpl. eapply veq_trans; [exact Hvd|]. apply recursion_step_veq. exact Hveq. }
  destruct (max_abs_diff_spec n_states d_prev d Hn Hl Hld) as (m & Hm & Hmax).
  exists d, m. repeat split; try assumption.
  - destruct Hmax as [Hle _]. intros s Hs.
    rewrite <- (veq_Vat _ _ s Hveq), <- (veq_Vat _ _ s Hd'). apply Hle. exact Hs.
  - destruct Hmax as [_ (s & Hs & Hm')]. exists s. split; [exact Hs|].
    rewrite <- (veq_Vat _ _ s Hveq), <- (veq_Vat _ _ s Hd'). exact Hm'.
Qed.

Lemma while_loop_uncapped_sound (threshold : Q) (fuel : nat) :
  forall (k : nat) (d_prev : vec) (t : Z) (diff : option Q) (d : vec),
  length d_prev = n_states -> veq d_prev (iter k) -> exceeds diff threshold = true ->
  loop fuel policy P0 None threshold d_prev t diff = Some (Ok d) ->
  exists k', (k <= k')%nat /\ (k' < k + fuel)%nat /\ veq d (iter (S k'))
    /\ converged_at n_states n_actions transition_matrix gamma policy P0 threshold k'
    /\ forall j, (k <= j < k')%nat ->
         not_converged_at n_states n_actions transition_matrix gamma policy P0 threshold j.
Proof.
  induction fuel as [|fuel IH]; intros k d_prev t diff d Hl Hveq Hex Hrun.
  - simpl in Hrun. rewrite Hex in Hrun. discriminate.
  - simpl in Hrun. rewrite Hex in Hrun.
    destruct (body_spec d_prev k Hl Hveq) as (d1 & m & Hs & Hl1 & Hv1 & Hm & Hmax).
    rewrite Hs, Hm in Hrun.
    destruct (exceeds (Some m) threshold) eqn:Em.
    + destruct (IH (S k) d1 t (Some m) d Hl1 Hv1 Em Hrun)
        as (k' & Hk1 & Hk2 & Hvd & Hconv & Hnot).
      exists k'. split; [lia|]. split; [lia|]. split; [exact Hvd|]. split; [exact Hconv|].
      intros j Hj. destruct (Nat.eq_dec j k) as [->|Hne].
      * exists m. split; [exact Hmax|]. apply exceeds_Some_true. exact Em.
      * apply Hnot. lia.
    + rewrite (while_loop_done _ _ _ _ _ _ _ _ _ _ _ _ Em) in Hrun.
      injection Hrun as <-.
      exists k. split; [lia|]. split; [lia|]. split; [exact Hv1|]. split.
      * exists m. split; [exact Hmax|]. apply exceeds_Some. exact Em.
      * intros j Hj. lia.
Qed.

Lemma while_loop_uncapped_complete (threshold : Q) (fuel : nat) :
  forall (k k' : nat) (d_prev : vec) (t : Z) (diff : option Q),
  length d_prev = n_states -> veq d_prev (iter k) -> exceeds diff threshold = true ->
  (k <= k')%nat -> (k' < k + fuel)%nat ->
  converged_at n_states n_actions transition_matrix gamma policy P0 threshold k' ->
  (forall j, (k <= j < k')%nat ->
     not_converged_at n_states n_actions transition_matrix gamma policy P0 threshold j) ->
  exists d, loop fuel policy P0 None threshold d_prev t diff = Some (Ok d)
            /\ veq d (iter (S k')).
Proof.
  induction fuel as [|fuel IH]; intros k k' d_prev t diff Hl Hveq Hex Hk1 Hk2 Hconv Hnot.
  - lia.
  - simpl. rewrite Hex.
    destruct (body_spec d_prev k Hl Hveq) as (d1 & m & Hs & Hl1 & Hv1 & Hm & Hmax).
    rewrite Hs, Hm.
    destruct (Nat.eq_dec k' k) as [->|Hne].
    + destruct Hconv as (m' & Hmax' & Hle).
      assert (Em : exceeds (Some m) threshold = false).
      { apply exceeds_Some. rewrite (is_max_abs_diff_unique _ _ _ _ _ Hmax Hmax'). exact Hle. }
      rewrite (while_loop_done _ _ _ _ _ _ _ _ _ _ _ _ Em).
      exists d1. split; [reflexivity | exact Hv1].
    + destruct (Hnot k ltac:(lia)) as (m' & Hmax' & Hlt).
      assert (Em : exceeds (Some m) threshold = true).
      { apply exceeds_Some_true. rewrite (is_max_abs_diff_unique _ _ _ _ _ Hmax Hmax').
        exact Hlt. }
      apply (IH (S k) k' d1 t (Some m) Hl1 Hv1 Em); try lia; try assumption.
      intros j Hj. apply Hnot. lia.
Qed.

End Loop.

(** C4.  With a transition tensor, a policy matrix and a [P0] of matching
    shapes over at least one state: every sweep started from [d_prev] returns
    the array [P0[s'] + gamma * sum_s sum_a d_prev[s] * policy[s,a] * T[s,a,s']]
    (the accumulator starts from [P0] in every sweep); the iterates start from
    the zero vector; and without a cap [occupancy_measure] returns exactly when
    the maximum absolute difference of two consecutive iterates is at most the
    threshold, for the first time, and returns the later of the two. *)
Theorem occupancy_measure_recursion (n_states n_actions : nat) (T : tensor)
    (gamma : Q) (policy : mat) (P0 : vec) :
  tensor_shapeb n_states n_actions n_states T = true ->
  mat_shapeb n_states n_actions policy = true ->
  vec_shapeb n_states P0 = true ->
  (0 < n_states)%nat ->
  (forall d_prev, length d_prev = n_states ->
     exists d, sweep n_states n_actions T gamma policy P0 d_prev = Ok d
               /\ veq d (recursion_step n_states n_actions T gamma policy P0 d_prev))
  /\ iterate n_states n_actions T gamma policy P0 0 = zeros n_states
  /\ (forall fuel threshold d,
        occupancy_measure n_states n_actions T gamma fuel policy (Some P0) None threshold
        = Some (Ok d) ->
        exists k, (k < fuel)%nat
          /\ veq d (iterate n_states n_actions T gamma policy P0 (S k))
          /\ converged_at n_states n_actions T gamma policy P0 threshold k
          /\ forall j, (j < k)%nat ->
               not_converged_at n_states n_actions T gamma policy P0 threshold j)
  /\ (forall fuel threshold k,
        (k < fuel)%nat ->
        converged_at n_states n_actions T gamma policy P0 threshold k ->
        (forall j, (j < k)%nat ->
           not_converged_at n_states n_actions T gamma policy P0 threshold j) ->
        exists d,
          occupancy_measure n_states n_actions T gamma fuel policy (Some P0) None threshold
          = Some (Ok d)
          /\ veq d (iterate n_states n_actions T gamma policy P0 (S k))).
Proof.
  intros HT Hpol HP0 Hn.
  apply tensor_shapeb_spec in HT. apply mat_shapeb_spec in Hpol.
  apply vec_shapeb_spec in HP0. unfold vec_shape in HP0.
  split; [|split; [reflexivity|split]].
  - intros d_prev Hl.
    destruct (sweep_spec n_states n_actions T gamma policy P0 HT Hpol d_prev Hl HP0)
      as (d & Hd & _ & Hv).
    exists d. split; assumption.
  - intros fuel threshold d Hrun. unfold occupancy_measure in Hrun. rewrite HP0 in Hrun.
    destruct (while_loop_uncapped_sound n_states n_actions T gamma policy P0 HT Hpol HP0 Hn
                threshold fuel 0 (zeros n_states) 0%Z None d)
      as (k & _ & Hk & Hv & Hc & Hnot); try assumption.
    + apply repeat_length.
    + apply veq_refl.
    + reflexivity.
    + exists k. split; [lia|]. split; [exact Hv|]. split; [exact Hc|].
      intros j Hj. apply Hnot. lia.
  - intros fuel threshold k Hk Hc Hnot. unfold occupancy_measure. rewrite HP0.
    apply (while_loop_uncapped_complete n_states n_actions T gamma policy P0 HT Hpol HP0 Hn
             threshold fuel 0 k (zeros n_states) 0%Z None); try assumption; try lia.
    + apply repeat_length.
    + apply veq_refl.
    + reflexivity.
    + intros j Hj. apply Hnot. lia.
Qed.

Lemma occupancy_measure_recursion_witness :
  exists d, sweep 2 1 chain_T chain_gamma chain_policy chain_P0 [1; 0] = Ok d
            /\ veq d (recursion_step 2 1 chain_T chain_gamma chain_policy chain_P0 [1; 0]).
Proof.
  apply (proj1 (occupancy_measure_recursion 2 1 chain_T chain_gamma chain_policy chain_P0
                  eq_refl eq_refl eq_refl (Nat.lt_0_succ 1)) [1; 0] eq_refl).
Defined.

(** ** The iteration cap *)

Lemma Qsum_all_zero (n : nat) (f : nat -> Q) :
  (forall i, (i < n)%nat -> f i == 0) -> Qsum n f == 0.
Proof.
  intros H. rewrite (Qsum_ext n f (fun _ => 0) H). apply Qsum_zero.
Qed.

Lemma recursion_step_zeros (n_states n_actions : nat) (T : tensor) (gamma : Q)
    (policy : mat) (P0 : vec) :
  length P0 = n_states ->
  veq (recursion_step n_states n_actions T gamma policy P0 (zeros n_states)) P0.
Proof.
  intros HP0. apply (veq_intro n_states).
  - unfold recursion_step. rewrite length_map, length_seq. reflexivity.
  - exact HP0.
  - intros j Hj. unfold recursion_step. rewrite Vat_map_seq by exact Hj.
    rewrite Qsum_all_zero; [ring|].
    intros s Hs. apply Qsum_all_zero. intros a Ha.
    unfold Vat at 1. rewrite nth_zeros. ring.
Qed.

(** More fuel does not change the result of a run that completes. *)
Lemma while_loop_fuel_mono n_states n_actions T gamma policy P0 t_max threshold
    (fuel : nat) :
  forall (fuel' : nat) (d_prev : vec) (t : Z) (diff : option Q) (r : result vec),
  (fuel <= fuel')%nat ->
  while_loop n_states n_actions T gamma fuel policy P0 t_max threshold d_prev t diff
  = Some r ->
  while_loop n_states n_actions T gamma fuel' policy P0 t_max threshold d_prev t diff
  = Some r.
Proof.
  induction fuel as [|fuel IH]; intros fuel' d_prev t diff r Hle Hrun.
  - simpl in Hrun. destruct (exceeds diff threshold) eqn:E; [discriminate|].
    rewrite while_loop_done by exact E. exact Hrun.
  - destruct fuel' as [|fuel']; [lia|]. simpl in *.
    destruct (exceeds diff threshold); [|exact Hrun].
    destruct (sweep n_states n_actions T gamma policy P0 d_prev) as [d|e]; [|exact Hrun].
    destruct (max_abs_diff d_prev d) as [m|e]; [|exact Hrun].
    destruct t_max as [tm|].
    + destruct (t + 1 =? tm)%Z; [exact Hrun|]. apply IH; [lia | exact Hrun].
    + apply IH; [lia | exact Hrun].
Qed.

(** A cap that the counter has already passed is never met: the loop runs as
    if there were no cap. *)
Lemma while_loop_cap_never_met n_states n_actions T gamma policy P0 threshold
    (tm : Z) (fuel : nat) :
  forall (d_prev : vec) (t t' : Z) (diff : option Q),
  (tm <= t)%Z ->
  while_loop n_states n_actions T gamma fuel policy P0 (Some tm) threshold d_prev t diff
  = while_loop n_states n_actions T gamma fuel policy P0 None threshold d_prev t' diff.
Proof.
  induction fuel as [|fuel IH]; intros d_prev t t' diff Ht; simpl; [reflexivity|].
  destruct (exceeds diff threshold); [|reflexivity].
  destruct (sweep n_states n_actions T gamma policy P0 d_prev) as [d|e]; [|reflexivity].
  destruct (max_abs_diff d_prev d) as [m|e]; [|reflexivity].
  destruct (Z.eqb_spec (t + 1) tm) as [E|Hne]; [lia|].
  apply IH. lia.
Qed.

(** With the cap [0], [occupancy_measure] runs as without a cap. *)
Lemma occupancy_measure_cap_zero_uncapped n_states n_actions T gamma fuel policy P0
    threshold :
  occupancy_measure n_states n_actions T gamma fuel policy P0 (Some 0%Z) threshold
  = occupancy_measure n_states n_actions T gamma fuel policy P0 None threshold.
Proof.
  unfold occupancy_measure. apply while_loop_cap_never_met. lia.
Qed.

(** C2, for the cap 1.  With a transition tensor, a policy matrix and a [P0]
    of matching shapes over at least one state, [occupancy_measure] with the
    iteration cap [1] returns after its first sweep an array equal to [P0]. *)
Theorem occupancy_measure_cap_one (n_states n_actions : nat) (T : tensor)
    (gamma : Q) (policy : mat) (P0 : vec) (fuel : nat) (threshold : Q) :
  tensor_shapeb n_states n_actions n_states T = true ->
  mat_shapeb n_states n_actions policy = true ->
  vec_shapeb n_states P0 = true ->
  (0 < n_states)%nat ->
  exists d,
    occupancy_measure n_states n_actions T gamma (S fuel) policy (Some P0) (Some 1%Z)
      threshold = Some (Ok d)
    /\ veq d P0.
Proof.
  intros HT Hpol HP0 Hn.
  apply tensor_shapeb_spec in HT. apply mat_shapeb_spec in Hpol.
  apply vec_shapeb_spec in HP0. unfold vec_shape in HP0.
  unfold occupancy_measure. rewrite HP0. simpl.
  destruct (sweep_spec n_states n_actions T gamma policy P0 HT Hpol (zeros n_states)
              (repeat_length _ _) HP0) as (d & Hd & Hl & Hv).
  destruct (max_abs_diff_spec n_states (zeros n_states) d Hn (repeat_length _ _) Hl)
    as (m & Hm & _).
  rewrite Hd, Hm. exists d. split; [reflexivity|].
  eapply veq_trans; [exact Hv|]. apply recursion_step_zeros. exact HP0.
Qed.

Lemma occupancy_measure_cap_one_witness :
  exists d,
    occupancy_measure 2 1 chain_T chain_gamma 1 chain_policy (Some chain_P0) (Some 1%Z)
      default_threshold = Some (Ok d)
    /\ veq d chain_P0.
Proof.
  apply (occupancy_measure_cap_one 2 1 chain_T chain_gamma chain_policy chain_P0 0
           default_threshold eq_refl eq_refl eq_refl (Nat.lt_0_succ 1)).
Defined.

(** C2, for the cap 0.  On the discounted chain, with a valid policy and
    a [P0] summing to one, [occupancy_measure] with the iteration cap [0] and
    the threshold [0.25] runs three sweeps and returns [[1, 0.75]], which
    differs from [P0] in its second entry; no amount of fuel makes it return
    [P0]. *)
Lemma occupancy_measure_cap_zero_differs :
  stochastic_tensor 2 1 chain_T = true
  /\ stochastic_policy 2 1 chain_policy = true
  /\ sums_to_one 2 chain_P0 = true
  /\ (exists d,
        occupancy_measure 2 1 chain_T chain_gamma 3 chain_policy (Some chain_P0)
          (Some 0%Z) (1 # 4) = Some (Ok d)
        /\ veq d [1; 3 # 4] /\ ~ veq d chain_P0)
  /\ (forall fuel d,
        occupancy_measure 2 1 chain_T chain_gamma fuel chain_policy (Some chain_P0)
          (Some 0%Z) (1 # 4) = Some (Ok d) ->
        ~ veq d chain_P0).
Proof.
  split; [reflexivity|]. split; [reflexivity|]. split; [reflexivity|].
  assert (Hrun : exists d,
            occupancy_measure 2 1 chain_T chain_gamma 3 chain_policy (Some chain_P0)
              (Some 0%Z) (1 # 4) = Some (Ok d)
            /\ veq d [1; 3 # 4]).
  { eexists. split; [vm_compute; reflexivity|].
    constructor; [reflexivity|]. constructor; [reflexivity | constructor]. }
  destruct Hrun as (d & Hd & Hv).
  assert (Hne : ~ veq d chain_P0).
  { intros H. apply veq_sym in Hv. pose proof (veq_trans _ _ _ Hv H) as H'.
    apply (veq_Vat _ _ 1) in H'. vm_compute in H'. discriminate. }
  split.
  - exists d. split; [exact Hd|]. split; [exact Hv | exact Hne].
  - intros fuel d' Hd'. unfold occupancy_measure in Hd, Hd'.
    apply (while_loop_fuel_mono _ _ _ _ _ _ _ _ _ (Nat.max fuel 3)) in Hd; [|lia].
    apply (while_loop_fuel_mono _ _ _ _ _ _ _ _ _ (Nat.max fuel 3)) in Hd'; [|lia].
    rewrite Hd in Hd'. injection Hd' as <-. exact Hne.
Qed.

(** ** The mass of the occupancy measure *)

Lemma forallb_nth {A : Type} (p : A -> bool) (l : list A) (i : nat) (d : A) :
  forallb p l = true -> (i < length l)%nat -> p (nth i l d) = true.
Proof.
  intros H Hi. rewrite forallb_forall in H. apply H. apply nth_In. exact Hi.
Qed.

Section Mass.

Variables (n_states n_actions : nat) (transition_matrix : tensor) (gamma : Q).
Variables (policy : mat) (P0 : vec).
Hypothesis HT : stochastic_tensor n_states n_actions transition_matrix = true.
Hypothesis Hpolicy : stochastic_policy n_states n_actions policy = true.
Hypothesis HP0 : sums_to_one n_states P0 = true.

Lemma stochastic_tensor_shape : tensor_shape n_states n_actions n_states transition_matrix.
Proof.
  unfold stochastic_tensor in HT. apply andb_true_iff in HT.
  apply tensor_shapeb_spec. apply HT.
Qed.

Lemma stochastic_policy_shape : mat_shape n_states n_actions policy.
Proof.
  unfold stochastic_policy in Hpolicy. apply andb_true_iff in Hpolicy.
  apply mat_shapeb_spec. apply Hpolicy.
Qed.



Lemma transition_row_sum (s a : nat) :
  (s < n_states)%nat -> (a < n_actions)%nat ->
  Qsum n_states (fun j => Tat transition_matrix s a j) == 1.
Proof.
  intros Hs Ha. pose proof stochastic_tensor_shape as Hsh.
  pose proof (tensor_row_shape _ _ _ _ _ Hsh Hs) as HM.
  pose proof (mat_row_shape _ _ _ _ HM Ha) as Hr.
  unfold stochastic_tensor in HT. apply andb_true_iff in HT. destruct HT as [_ Hrows].
  destruct Hsh as [Hl _]. destruct HM as [Hl' _].
  pose proof (forallb_nth _ _ s [] Hrows ltac:(lia)) as H1. simpl in H1.
  pose proof (forallb_nth _ _ a [] H1 ltac:(lia)) as H2. simpl in H2.
  apply Qeq_bool_iff in H2. rewrite vsum_Qsum, Hr in H2. exact H2.
Qed.

Lemma policy_row_sum (s : nat) :
  (s < n_states)%nat -> Qsum n_actions (fun a => Mat policy s a) == 1.
Proof.
  intros Hs. pose proof stochastic_policy_shape as Hsh.
  pose proof (mat_row_shape _ _ _ _ Hsh Hs) as Hr.
  unfold stochastic_policy in Hpolicy. apply andb_true_iff in Hpolicy.
  destruct Hpolicy as [_ Hrows]. destruct Hsh as [Hl _].
  pose proof (forallb_nth _ _ s [] Hrows ltac:(lia)) as H1. simpl in H1.
  apply Qeq_bool_iff in H1. rewrite vsum_Qsum, Hr in H1. exact H1.
Qed.



End Mass.

(** A property of [d_prev] that every sweep keeps holds of the array the loop
    returns. *)
Lemma while_loop_keeps (I : vec -> Prop) n_states n_actions T gamma policy P0
    t_max threshold :
  (forall d_prev d, I d_prev ->
     sweep n_states n_actions T gamma policy P0 d_prev = Ok d -> I d) ->
  forall (fuel : nat) (d_prev : vec) (t : Z) (diff : option Q) (d : vec),
  I d_prev ->
  while_loop n_states n_actions T gamma fuel policy P0 t_max threshold d_prev t diff
  = Some (Ok d) ->
  I d.
Proof.
  intros Hkeep. induction fuel as [|fuel IH]; intros d_prev t diff d HI Hrun; simpl in Hrun.
  - destruct (exceeds diff threshold); [discriminate|]. injection Hrun as <-. exact HI.
  - destruct (exceeds diff threshold); [|injection Hrun as <-; exact HI].
    destruct (sweep n_states n_actions T gamma policy P0 d_prev) as [d1|e] eqn:Es;
      [|discriminate].
    pose proof (Hkeep d_prev d1 HI Es) as HI1.
    destruct (max_abs_diff d_prev d1) as [m|e]; [|discriminate].
    destruct t_max as [tm|].
    + destruct (t + 1 =? tm)%Z.
      * injection Hrun as <-. exact HI1.
      * eapply IH; eassumption.
    + eapply IH; eassumption.
Qed.



(** ** [train] *)

Lemma nth_zip_with_Q (f : Q -> Q -> Q) (u v : vec) (j : nat) :
  (j < length u)%nat -> (j < length v)%nat ->
  nth j (zip_with f u v) 0 = f (nth j u 0) (nth j v 0).
Proof.
  revert v j. induction u as [|x u IH]; intros v j Hu Hv; simpl in Hu; [lia|].
  destruct v as [|y v]; simpl in Hv; [lia|].
  destruct j; simpl; [reflexivity | apply IH; lia].
Qed.

Lemma length_zip_with_Q (f : Q -> Q -> Q) (u v : vec) :
  length u = length v -> length (zip_with f u v) = length u.
Proof.
  revert v. induction u as [|x u IH]; intros v H; destruct v; simpl in *;
    try discriminate; [reflexivity|]. f_equal. apply IH. lia.
Qed.

Lemma Vat_column (M : mat) (i j : nat) :
  (j < length M)%nat -> Vat (column M i) j = Mat M j i.
Proof.
  intros Hj. unfold Vat, column, Mat.
  rewrite (nth_indep _ 0 (nth i [] 0)) by (rewrite length_map; exact Hj).
  rewrite (map_nth (fun row => nth i row 0)). reflexivity.
Qed.

(** [np.dot(M.T, v)] computes the entries [sum_j M[j, i] * v[j]]. *)
Lemma dot_T_spec (cols : nat) (M : mat) (v : vec) :
  length M = length v ->
  exists r, dot_T cols M v = Ok r /\ length r = cols
            /\ forall i, (i < cols)%nat -> Vat r i == dotT_entry M v i.
Proof.
  intros Hl. unfold dot_T. rewrite Hl, Nat.eqb_refl.
  eexists. split; [reflexivity|]. split; [rewrite length_map, length_seq; reflexivity|].
  intros i Hi. rewrite Vat_map_seq by exact Hi.
  rewrite vsum_Qsum. unfold dotT_entry.
  rewrite length_zip_with_Q by (unfold column; rewrite length_map; exact Hl).
  unfold column at 1. rewrite length_map, Hl.
  apply Qsum_ext. intros j Hj.
  rewrite nth_zip_with_Q by (unfold column; rewrite ?length_map; lia).
  change (nth j (column M i) 0) with (Vat (column M i) j).
  rewrite Vat_column by lia. reflexivity.
Qed.

Lemma Mat_eye (n j i : nat) :
  (j < n)%nat -> (i < n)%nat -> Mat (eye n) j i = if (j =? i)%nat then 1 else 0.
Proof.
  intros Hj Hi. unfold Mat, eye.
  rewrite (nth_indep _ [] ((fun i0 => map (fun j0 => if (i0 =? j0)%nat then 1 else 0)
                                        (seq 0 n)) 0%nat))
    by (rewrite length_map, length_seq; exact Hj).
  rewrite (map_nth (fun i0 => map (fun j0 => if (i0 =? j0)%nat then 1 else 0) (seq 0 n))).
  rewrite seq_nth by exact Hj. simpl.
  change (nth i ?l 0) with (Vat l i). rewrite Vat_map_seq by exact Hi. reflexivity.
Qed.

(** With the identity feature map, [feature_map^T . d] is [d]. *)
Lemma dotT_entry_eye (n : nat) (d : vec) (i : nat) :
  length d = n -> (i < n)%nat -> dotT_entry (eye n) d i == Vat d i.
Proof.
  intros Hl Hi. unfold dotT_entry. rewrite Hl.
  rewrite (Qsum_ext n _ (fun j => if (i =? j)%nat then Vat d j else 0)).
  - rewrite Qsum_delta.
    replace (i <? n)%nat with true by (symmetry; apply Nat.ltb_lt; exact Hi). reflexivity.
  - intros j Hj. rewrite Mat_eye by assumption. rewrite (Nat.eqb_sym j i).
    destruct (i =? j)%nat; ring.
Qed.

Lemma length_eye (n : nat) : length (eye n) = n.
Proof. unfold eye. rewrite length_map, length_seq. reflexivity. Qed.

Lemma for_each_Ok_invariant {A B : Type} (I : B -> Prop) (l : list A)
    (body : A -> B -> result B) (acc acc' : B) :
  (forall x b b', I b -> body x b = Ok b' -> I b') ->
  I acc -> for_each l body acc = Ok acc' -> I acc'.
Proof.
  intros Hbody. revert acc. induction l as [|x l IH]; intros acc HI H; simpl in H.
  - injection H as <-. exact HI.
  - apply bind_Ok in H. destruct H as (b & Hb & Hrest).
    eapply IH; [|exact Hrest]. eapply Hbody; eassumption.
Qed.

Lemma vec_add_at_length (v v' : vec) (i : nat) (x : Q) :
  vec_add_at v i x = Ok v' -> length v' = length v.
Proof.
  unfold vec_add_at. destruct (v !! i); [|discriminate].
  intros H. injection H as <-. apply length_insert.
Qed.

Lemma sweep_length n_states n_actions T gamma policy P0 d_prev d :
  sweep n_states n_actions T gamma policy P0 d_prev = Ok d -> length d = length P0.
Proof.
  unfold sweep. apply (for_each_Ok_invariant (fun v => length v = length P0));
    [|reflexivity].
  intros s b b' Hb. unfold sweep_state.
  apply (for_each_Ok_invariant (fun v => length v = length P0)); [|exact Hb].
  intros a c c' Hc. unfold sweep_action.
  apply (for_each_Ok_invariant (fun v => length v = length P0)); [|exact Hc].
  intros j e e' He. unfold sweep_next_state. intros H.
  apply bind_Ok in H. destruct H as (x1 & _ & H).
  apply bind_Ok in H. destruct H as (x2 & _ & H).
  apply bind_Ok in H. destruct H as (x3 & _ & H).
  rewrite (vec_add_at_length _ _ _ _ H). exact He.
Qed.

Lemma occupancy_measure_length n_states n_actions T gamma fuel policy P0 t_max
    threshold d :
  occupancy_measure n_states n_actions T gamma fuel policy (Some P0) t_max threshold
  = Some (Ok d) ->
  length d = length P0.
Proof.
  unfold occupancy_measure.
  apply (while_loop_keeps (fun v => length v = length P0)).
  - intros d_prev d' _ Hs. eapply sweep_length. exact Hs.
  - apply repeat_length.
Qed.

Lemma removelast_length {A : Type} (l : list A) : length (removelast l) = pred (length l).
Proof.
  destruct l as [|x l] using rev_ind; [reflexivity|].
  rewrite removelast_last, length_app. simpl. lia.
Qed.

Lemma Vat_removelast (l : vec) (i : nat) :
  (i < pred (length l))%nat -> Vat (removelast l) i = Vat l i.
Proof.
  destruct l as [|x l] using rev_ind; intros Hi; [simpl in Hi; lia|].
  rewrite length_app in Hi. simpl in Hi.
  rewrite removelast_last. unfold Vat. rewrite app_nth1 by lia. reflexivity.
Qed.

Lemma Vat_map_mult (c : Q) (l : vec) (i : nat) :
  (i < length l)%nat -> Vat (map (Qmult c) l) i = c * Vat l i.
Proof.
  intros Hi. unfold Vat.
  rewrite (nth_indep _ 0 (c * 0)) by (rewrite length_map; exact Hi).
  rewrite (map_nth (Qmult c)). reflexivity.
Qed.

(** Lines 140-143 on a parameter array of length [n_states - 1]. *)
Lemma update_theta_spec (n_states : nat) (lr : Q) (mean_feature_count d : vec)
    (theta_ref : nat) (h : gmap nat (list Q)) (theta : vec) :
  length mean_feature_count = n_states -> length d = n_states ->
  h !! theta_ref = Some theta -> length theta = pred n_states ->
  exists theta',
    update_theta n_states lr mean_feature_count d theta_ref h
    = Ok (<[theta_ref := theta']> h)
    /\ length theta' = pred n_states
    /\ forall i, (i < pred n_states)%nat ->
         Vat theta' i ==
         Vat theta i
         - lr * - (Vat mean_feature_count i - dotT_entry (feat_map n_states) d i).
Proof.
  intros Hmfc Hd Hth Hlen. unfold update_theta.
  destruct (dot_T_spec n_states (feat_map n_states) d) as (fd & Hfd & Hlfd & Hvfd).
  { unfold feat_map. rewrite length_eye. congruence. }
  rewrite Hfd. simpl. rewrite Hth. simpl.
  assert (Hldl : length (neg_diff mean_feature_count fd) = n_states).
  { unfold neg_diff. rewrite length_zip_with_Q by congruence. exact Hmfc. }
  unfold isub. rewrite length_map, removelast_length, Hldl, Hlen, Nat.eqb_refl.
  eexists. split; [reflexivity|].
  split.
  - rewrite length_zip_with_Q; [exact Hlen|].
    rewrite length_map, removelast_length, Hldl. exact Hlen.
  - intros i Hi. unfold Vat at 1.
    rewrite nth_zip_with_Q
      by (rewrite ?length_map, ?removelast_length, ?Hldl; lia).
    change (nth i ?l 0) with (Vat l i).
    rewrite Vat_map_mult by (rewrite removelast_length, Hldl; exact Hi).
    rewrite Vat_removelast by (rewrite Hldl; exact Hi).
    unfold neg_diff. unfold Vat at 2.
    rewrite nth_zip_with_Q by lia.
    change (nth i ?l 0) with (Vat l i).
    rewrite (Hvfd i) by lia. reflexivity.
Qed.

Lemma update_theta_frame (n_states : nat) (lr : Q) (mean_feature_count d : vec)
    (theta_ref : nat) (h h' : gmap nat (list Q)) (l : nat) :
  update_theta n_states lr mean_feature_count d theta_ref h = Ok h' ->
  l <> theta_ref -> h' !! l = h !! l.
Proof.
  unfold update_theta. intros H Hne.
  apply bind_Ok in H. destruct H as (fd & _ & H).
  apply bind_Ok in H. destruct H as (theta' & _ & H). injection H as <-.
  apply lookup_insert_ne. congruence.
Qed.

Section TrainFacts.

Variables (n_states n_actions : nat) (transition_matrix : tensor).
Variables (gamma lr : Q).
Variable agent : Type.
Variable agent_train : agent -> vec -> nat -> agent.
Variable policy_array : agent -> mat.

Local Abbreviation run_loop :=
  (train_loop n_states n_actions transition_matrix gamma lr agent agent_train policy_array).

(** The loop returns the reference it was given, and leaves every other array
    of the store as it was. *)
Lemma train_loop_same_reference (fuel remaining no_rl_episodes : nat)
    (P0 mean_feature_count : vec) (theta_ref : nat) :
  forall (a : agent) (h : gmap nat (list Q)) (ref : nat) (h' : gmap nat (list Q)),
  run_loop fuel remaining no_rl_episodes P0 mean_feature_count theta_ref a h
  = Some (Ok (ref, h')) ->
  ref = theta_ref /\ forall l, l <> theta_ref -> h' !! l = h !! l.
Proof.
  induction remaining as [|remaining IH]; intros a h ref h' Hrun; simpl in Hrun.
  - injection Hrun as <- <-. split; [reflexivity | intros; reflexivity].
  - destruct (occupancy_measure n_states n_actions transition_matrix gamma fuel
                (policy_array (agent_train a (default [] (h !! theta_ref)) no_rl_episodes))
                (Some P0) None default_threshold) as [[d|e]|]; try discriminate.
    destruct (update_theta n_states lr mean_feature_count d theta_ref h) as [h1|e] eqn:Eu;
      [|discriminate].
    destruct (IH _ _ _ _ Hrun) as [Href Hframe].
    split; [exact Href|]. intros l Hl. rewrite (Hframe l Hl).
    eapply update_theta_frame; eassumption.
Qed.

End TrainFacts.

(** C5.  In an outer iteration of [train] that starts with the parameter
    array [theta] of length [n_states - 1] behind the reference [theta_ref],
    and in which the occupancy measure of the policy the solver returns is
    [d]: the iteration writes to the same reference the array
    [theta - lr * grad] with [grad = -(mean_feature_count - feat_map^T . d)]
    restricted to all but the last feature dimension, where [feat_map^T . d]
    is [d] itself for the identity feature map, and the loop goes on from that
    store.  The reference the loop returns is the one it was given, and the
    loop changes no other array. *)
Theorem train_iteration (n_states n_actions : nat) (T : tensor) (gamma lr : Q)
    (agent : Type) (agent_train : agent -> vec -> nat -> agent)
    (policy_array : agent -> mat) (fuel remaining no_rl_episodes : nat)
    (P0 mean_feature_count : vec) (theta_ref : nat) (a : agent)
    (h : gmap nat (list Q)) (theta d : vec) :
  length P0 = n_states ->
  length mean_feature_count = n_states ->
  h !! theta_ref = Some theta ->
  length theta = pred n_states ->
  occupancy_measure n_states n_actions T gamma fuel
    (policy_array (agent_train a theta no_rl_episodes)) (Some P0) None default_threshold
  = Some (Ok d) ->
  (exists theta',
     length theta' = pred n_states
     /\ (forall i, (i < pred n_states)%nat ->
           Vat theta' i ==
           Vat theta i
           - lr * - (Vat mean_feature_count i - dotT_entry (feat_map n_states) d i))
     /\ (forall i, (i < n_states)%nat ->
           dotT_entry (feat_map n_states) d i == Vat d i)
     /\ train_loop n_states n_actions T gamma lr agent agent_train policy_array
          fuel (S remaining) no_rl_episodes P0 mean_feature_count theta_ref a h
        = train_loop n_states n_actions T gamma lr agent agent_train policy_array
            fuel remaining no_rl_episodes P0 mean_feature_count theta_ref
            (agent_train a theta no_rl_episodes) (<[theta_ref := theta']> h))
  /\ (forall ref h',
        train_loop n_states n_actions T gamma lr agent agent_train policy_array
          fuel (S remaining) no_rl_episodes P0 mean_feature_count theta_ref a h
        = Some (Ok (ref, h')) ->
        ref = theta_ref /\ forall l, l <> theta_ref -> h' !! l = h !! l).
Proof.
  intros HP0 Hmfc Hth Hlen Hom.
  pose proof (occupancy_measure_length _ _ _ _ _ _ _ _ _ _ Hom) as Hd.
  rewrite HP0 in Hd.
  split.
  - destruct (update_theta_spec n_states lr mean_feature_count d theta_ref h theta
                Hmfc Hd Hth Hlen) as (theta' & Hup & Hl' & Hv').
    exists theta'. split; [exact Hl'|]. split; [exact Hv'|]. split.
    + intros i Hi. apply dotT_entry_eye; assumption.
    + simpl. rewrite Hth. simpl. rewrite Hom, Hup. reflexivity.
  - intros ref h'. apply train_loop_same_reference.
Qed.

Lemma train_iteration_witness :
  exists theta',
    length theta' = 1%nat
    /\ train_loop 2 1 chain_T 0 (1 # 2) unit chain_agent_train chain_policy_array
         2 1 1 chain_P0 [1; 0] 0 tt {[ 0%nat := [0] ]}
       = train_loop 2 1 chain_T 0 (1 # 2) unit chain_agent_train chain_policy_array
           2 0 1 chain_P0 [1; 0] 0 tt (<[ 0%nat := theta' ]> {[ 0%nat := [0] ]}).
Proof.
  assert (H : exists d,
            occupancy_measure 2 1 chain_T 0 2
              (chain_policy_array (chain_agent_train tt [0] 1)) (Some chain_P0) None
              default_threshold = Some (Ok d)).
  { eexists. vm_compute. reflexivity. }
  destruct H as (d & Hd).
  assert (Hth : ({[ 0%nat := [0] ]} : gmap nat (list Q)) !! 0%nat = Some [0]).
  { vm_compute. reflexivity. }
  destruct (proj1 (train_iteration 2 1 chain_T 0 (1 # 2) unit chain_agent_train
                     chain_policy_array 2 0 1 chain_P0 [1; 0] 0 tt {[ 0%nat := [0] ]}
                     [0] d eq_refl eq_refl Hth eq_refl Hd))
    as (theta' & Hl & _ & _ & Hrun).
  exists theta'. split; [exact Hl | exact Hrun].
Defined.

(** On a dataset of well-formed trajectories [train] enters its loop with an
    initial-state vector and a mean feature count of length [n_states]. *)
Lemma train_enters_loop (n_states n_actions : nat) (T : tensor) (gamma lr : Q)
    (expert_trajs : list trajectory) (agent : Type)
    (agent_train : agent -> vec -> nat -> agent) (policy_array : agent -> mat) :
  forallb (well_formed_traj n_states n_actions) expert_trajs = true ->
  exists P0 mean_feature_count,
    length P0 = n_states /\ length mean_feature_count = n_states
    /\ forall fuel no_irl_iterations no_rl_episodes theta_ref a h,
         train n_states n_actions T gamma lr expert_trajs agent agent_train policy_array
           fuel no_irl_iterations no_rl_episodes theta_ref a h
         = train_loop n_states n_actions T gamma lr agent agent_train policy_array
             fuel no_irl_iterations no_rl_episodes P0 mean_feature_count theta_ref a h.
Proof.
  intros Hwf.
  destruct (trajs_loop_spec n_states n_actions expert_trajs Hwf
              (zeros n_states) (zeros2 n_states n_actions)
              (zeros_shape _) (zeros2_shape _ _))
    as (s0 & sa & Hloop & Hsh0 & [Hlsa _] & _).
  destruct (dot_T_spec n_states (feat_map n_states)
              (row_sums_div sa (Qlen expert_trajs))) as (mfc & Hmfc & Hlm & _).
  { unfold feat_map, row_sums_div. rewrite length_eye, length_map. congruence. }
  exists (map (fun c => c / Qlen expert_trajs) s0), mfc.
  split; [rewrite length_map; exact Hsh0|]. split; [exact Hlm|].
  intros fuel k eps theta_ref a h. unfold train, sa_visitations.
  rewrite Hloop. simpl. rewrite Hmfc. reflexivity.
Qed.

(** One iteration of [train] on the chain: the expert and the policy visit
    state 0 alike, the gradient vanishes and the parameter stays at 0. *)
Example train_on_the_chain :
  exists h,
    train 2 1 chain_T 0 (1 # 2) chain_expert unit chain_agent_train chain_policy_array
      2 1 1 0 tt {[ 0%nat := [0] ]} = Some (Ok (0%nat, h))
    /\ exists theta, h !! 0%nat = Some theta /\ veq theta [0].
Proof.
  eexists. split; [vm_compute; reflexivity|].
  eexists. split; [vm_compute; reflexivity|].
  constructor; [reflexivity | constructor].
Qed.

(** ** Unwrapping *)

Lemma is_unwrappable_to_unwrap (env : Env) (c : class) :
  is_unwrappable_to env c = true ->
  exists e, unwrap_env env (Some c) = Ok e /\ isinstance e c = true.
Proof.
  induction env as [nS nA|nS nA|rw env IH|fw env IH|env IH]; simpl;
    destruct c; simpl; intros H; try discriminate; eauto.
Qed.

Lemma unwrap_env_isinstance (env e : Env) (c : class) :
  unwrap_env env (Some c) = Ok e -> isinstance e c = true.
Proof.
  induction env as [nS nA|nS nA|rw env IH|fw env IH|env IH]; simpl;
    destruct c; simpl; intros H; try discriminate; try (injection H as <-; reflexivity);
    auto.
Qed.

(** ** The store *)

Lemma reads_read_P (st : store) (l : nat) (items : list (nat * nat)) (P : Pdict) :
  dicts st !! l = Some items -> reads st items P -> read_P st l = P.
Proof.
  intros Hl Hr. unfold read_P, items_of. rewrite Hl. simpl. clear Hl.
  induction Hr as [|e se items P [Hk Hrow] Hr IH]; [reflexivity|].
  simpl. rewrite IH. unfold row_of. rewrite Hrow. simpl. rewrite Hk.
  destruct se; reflexivity.
Qed.

Lemma reads_frame (st st' : store) (items : list (nat * nat)) (P : Pdict) :
  (forall l, In l (map snd items) -> rows st' !! l = rows st !! l) ->
  reads st items P -> reads st' items P.
Proof.
  intros Hf Hr. induction Hr as [|e se items P [Hk Hrow] Hr IH]; constructor.
  - split; [exact Hk|]. rewrite Hf by (left; reflexivity). exact Hrow.
  - apply IH. intros l Hl. apply Hf. right; exact Hl.
Qed.


Section Rewiring.

Variable n_states : nat.

Lemma rewire_state_rows (st : store) (se : nat * nat) (l : nat) :
  l <> snd se -> rows (rewire_state n_states st se) !! l = rows st !! l.
Proof.
  intros Hne. unfold rewire_state. destruct (rows st !! snd se); [|reflexivity].
  simpl. apply lookup_insert_ne. congruence.
Qed.

Lemma rewire_state_dicts (st : store) (se : nat * nat) :
  dicts (rewire_state n_states st se) = dicts st
  /\ env_P (rewire_state n_states st se) = env_P st.
Proof.
  unfold rewire_state. destruct (rows st !! snd se); split; reflexivity.
Qed.

Lemma rewire_fold_spec (items : list (nat * nat)) :
  forall (P : Pdict) (st : store),
  reads st items P -> List.NoDup (map snd items) ->
  reads (fold_left (rewire_state n_states) items st) items (rewire_P n_states P)
  /\ dicts (fold_left (rewire_state n_states) items st) = dicts st
  /\ env_P (fold_left (rewire_state n_states) items st) = env_P st
  /\ forall l, ~ In l (map snd items) ->
       rows (fold_left (rewire_state n_states) items st) !! l = rows st !! l.
Proof.
  induction items as [|e items IH]; intros P st Hr Hnd.
  - inversion Hr; subst. simpl. repeat split; try constructor; reflexivity.
  - inversion Hr as [|e' se items' P' [Hk Hrow] Hr']; subst.
    inversion Hnd as [|l0 ls Hnotin Hnd']; subst. simpl fold_left.
    assert (Hr1 : reads (rewire_state n_states st e) items P').
    { apply (reads_frame st); [|exact Hr'].
      intros l Hl. apply rewire_state_rows. intros ->. contradiction. }
    destruct (IH P' (rewire_state n_states st e) Hr1 Hnd') as (HR & Hd & He & Hf).
    destruct (rewire_state_dicts st e) as [Hd1 He1].
    repeat split.
    + simpl. constructor; [|exact HR]. simpl. split; [exact Hk|].
      rewrite Hf by exact Hnotin.
      unfold rewire_state. rewrite Hrow. simpl. rewrite lookup_insert_eq, Hk. reflexivity.
    + congruence.
    + congruence.
    + intros l Hl. simpl in Hl.
      rewrite Hf by (intros Hin; apply Hl; right; exact Hin).
      apply rewire_state_rows. intros ->. apply Hl. left; reflexivity.
Qed.

End Rewiring.

Section WrappedStore.

Variable is_unwrappable_to_subclass_of : Env -> class -> result bool.
Variable unwrap_to_subclass_of : Env -> class -> result Env.

Local Abbreviation first_pass' :=
  (first_pass is_unwrappable_to_subclass_of unwrap_to_subclass_of).
Local Abbreviation first_block' :=
  (first_block is_unwrappable_to_subclass_of unwrap_to_subclass_of).


End WrappedStore.

(** ** Computations that record the calls of the reward function *)









(** A traversal the body of which raises [e] without recording a call on the
    bad elements, and returns without recording a call on the others. *)
Lemma mapL_first_raise {A B : Type} (f : A -> L B) (bad : A -> bool) (e : exn)
    (l : list A) :
  (forall x log, In x l -> bad x = true -> f x log = (Raise e, log)) ->
  (forall x log, In x l -> bad x = false -> exists y, f x log = (Ok y, log)) ->
  forall log,
    if existsb bad l then mapL f l log = (Raise e, log)
    else exists ys, mapL f l log = (Ok ys, log).
Proof.
  induction l as [|x l IH]; intros Hbad Hgood log; simpl.
  - eexists. reflexivity.
  - destruct (bad x) eqn:Ex; simpl.
    + unfold bindL. rewrite (Hbad x log) by (auto; left; reflexivity). reflexivity.
    + destruct (Hgood x log) as (y & Hy); [left; reflexivity | exact Ex |].
      specialize (IH (fun z lg Hz => Hbad z lg (or_intror Hz))
                     (fun z lg Hz => Hgood z lg (or_intror Hz)) log).
      unfold bindL. rewrite Hy.
      destruct (existsb bad l).
      * rewrite IH. reflexivity.
      * destruct IH as (ys & Hys). rewrite Hys. eexists. reflexivity.
Qed.


(** ** The first recomputation and the store *)

Section FirstPass.

Variable is_unwrappable_to_subclass_of : Env -> class -> result bool.
Variable unwrap_to_subclass_of : Env -> class -> result Env.



End FirstPass.



(** ** The second recomputation with an unrecognised reward function *)


Lemma mapL_first_raise_if {A B : Type} (f : A -> L B) (bad : A -> bool) (e : exn)
    (l : list A) :
  (forall x log, In x l ->
     if bad x then f x log = (Raise e, log) else exists y, f x log = (Ok y, log)) ->
  forall log,
    if existsb bad l then mapL f l log = (Raise e, log)
    else exists ys, mapL f l log = (Ok ys, log).
Proof.
  intros H. apply mapL_first_raise.
  - intros x log Hx Hb. specialize (H x log Hx). rewrite Hb in H. exact H.
  - intros x log Hx Hb. specialize (H x log Hx). rewrite Hb in H. exact H.
Qed.

Lemma bindL_ret_first_raise {A B : Type} (m : L A) (g : A -> B) (cond : bool)
    (e : exn) (log : list consult) :
  (if cond then m log = (Raise e, log) else exists y, m log = (Ok y, log)) ->
  if cond then bindL m (fun x => retL (g x)) log = (Raise e, log)
  else exists z, bindL m (fun x => retL (g x)) log = (Ok z, log).
Proof.
  unfold bindL. destruct cond.
  - intros ->. reflexivity.
  - intros (y & ->). eexists. reflexivity.
Qed.







(** ** The two unbound names *)

(** With the two names unbound, as [utils.py] has them, [get_reward_matrix]
    raises [NameError] on line 101 for the first outcome of an environment
    with a reward wrapper, before [env.P] is assigned. *)
Lemma get_reward_matrix_unbound_names (env e : Env) (rw : reward_wrapper)
    (st : store) (with_absorbing_state : bool) :
  unwrap_env env (Some DiscreteEnvC) = Ok e ->
  attached env = Ok (Some rw) ->
  has_outcome (read_P st (env_P st)) = true ->
  get_reward_matrix unbound_test unbound_unwrap env with_absorbing_state st
  = (Raise NameError, st, []).
Proof.
  intros He Hatt Hout. unfold get_reward_matrix, first_block. rewrite He, Hatt.
  assert (H : first_pass unbound_test unbound_unwrap env rw (read_P st (env_P st)) []
              = (Raise NameError, [])).
  { pose proof (mapL_first_raise_if
                  (fun se =>
                     bindL (mapL (fun ae =>
                              bindL (mapL (first_outcome unbound_test unbound_unwrap
                                             env rw (fst se) (fst ae)) (snd ae))
                                (fun outcomes => retL (fst ae, outcomes))) (snd se))
                       (fun r => retL (fst se, r)))
                  (fun se => existsb (fun ae => existsb (fun _ => true) (snd ae)) (snd se))
                  NameError (read_P st (env_P st))) as Hm.
    unfold has_outcome in Hout. unfold first_pass.
    specialize (Hm (fun se lg _ =>
      bindL_ret_first_raise _ (fun r => (fst se, r)) _ NameError lg
        (mapL_first_raise_if _ (fun ae => existsb (fun _ => true) (snd ae)) NameError
           (snd se)
           (fun ae lg' _ =>
              bindL_ret_first_raise _ (fun outcomes => (fst ae, outcomes)) _ NameError lg'
                (mapL_first_raise_if _ (fun _ => true) NameError (snd ae)
                   (fun o lg'' _ => eq_refl) lg')) lg)) []).
    rewrite Hout in Hm. exact Hm. }
  rewrite H. reflexivity.
Qed.

(** On a transition structure that lists no outcome, line 101 is never
    reached and the variant of the reward function is never tested: nothing
    is raised. *)
Example get_reward_matrix_no_outcome :
  fst (fst (get_reward_matrix unbound_test unbound_unwrap
              (RewardWrapper other_wrapper (DiscreteEnv 1 1)) true
              (store_of [ (0%nat, [ (0%nat, []) ]) ])))
  = Ok [[0]; [0]].
Proof. vm_compute. reflexivity. Qed.

(** ** The reward matrix and the absorbing state *)

Section CallsOfTheRewardFunction.

Variable is_unwrappable_to_subclass_of : Env -> class -> result bool.
Variable unwrap_to_subclass_of : Env -> class -> result Env.





End CallsOfTheRewardFunction.


(** ** Accumulating the rewards *)

Lemma nth_insert_list {A : Type} (l : list A) (i j : nat) (x d : A) :
  (i < length l)%nat -> nth j (<[i := x]> l) d = if (j =? i)%nat then x else nth j l d.
Proof.
  revert i j. induction l as [|z l IH]; intros i j Hi; simpl in Hi; [lia|].
  destruct i as [|i], j as [|j]; simpl; try reflexivity.
  apply IH. lia.
Qed.

Lemma nth_lookup_list {A : Type} (l : list A) (i : nat) (x d : A) :
  l !! i = Some x -> nth i l d = x.
Proof.
  revert i. induction l as [|z l IH]; intros i H; [discriminate|].
  destruct i; simpl in *; [congruence | auto].
Qed.

Lemma mat_add_at_Mat (M M' : mat) (i j : nat) (x : Q) (s a : nat) :
  mat_add_at M i j x = Ok M' ->
  Mat M' s a == Mat M s a + (if (s =? i)%nat && (a =? j)%nat then x else 0).
Proof.
  unfold mat_add_at. destruct (M !! i) as [row|] eqn:E; [|discriminate].
  intros H. apply bind_Ok in H. destruct H as (row' & Hrow' & H). injection H as <-.
  unfold Mat. rewrite nth_insert_list by (eapply lookup_lt_Some; eauto).
  destruct (Nat.eqb_spec s i) as [->|Hne]; simpl.
  - rewrite (nth_lookup_list M i row [] E).
    apply (vec_add_at_nth _ _ _ a _ Hrow').
  - ring.
Qed.

Lemma mat_add_at_length (M M' : mat) (i j : nat) (x : Q) :
  mat_add_at M i j x = Ok M' -> length M' = length M.
Proof.
  unfold mat_add_at. destruct (M !! i) as [row|]; [|discriminate].
  intros H. apply bind_Ok in H. destruct H as (row' & _ & H). injection H as <-.
  apply length_insert.
Qed.

Section Accumulate.

Variables s a : nat.

Local Abbreviation rp := (fun o : outcome => reward o * probability o).

Lemma outcomes_loop_Mat (s0 a0 : nat) (outs : list outcome) :
  forall (b b' : mat),
  for_each outs (fun o rewards => mat_add_at rewards s0 a0 (rp o)) b = Ok b' ->
  Mat b' s a == Mat b s a
               + (if (s =? s0)%nat && (a =? a0)%nat then vsum (map rp outs) else 0).
Proof.
  induction outs as [|o outs IH]; intros b b' H; simpl in H.
  - injection H as <-. simpl. destruct ((s =? s0)%nat && (a =? a0)%nat); ring.
  - apply bind_Ok in H. destruct H as (b1 & H1 & H).
    rewrite (IH _ _ H), (mat_add_at_Mat _ _ _ _ _ s a H1). simpl.
    destruct ((s =? s0)%nat && (a =? a0)%nat); ring.
Qed.

Lemma actions_loop_Mat (s0 : nat) (acts : list (nat * list outcome)) :
  forall (b b' : mat),
  for_each acts
    (fun ae => for_each (snd ae)
       (fun o rewards => mat_add_at rewards s0 (fst ae) (rp o))) b = Ok b' ->
  Mat b' s a == Mat b s a
               + (if (s0 =? s)%nat
                  then vsum (flat_map (fun ae => if (fst ae =? a)%nat
                                                 then map rp (snd ae) else []) acts)
                  else 0).
Proof.
  induction acts as [|ae acts IH]; intros b b' H; simpl in H.
  - injection H as <-. simpl. destruct (s0 =? s)%nat; ring.
  - apply bind_Ok in H. destruct H as (b1 & H1 & H).
    rewrite (IH _ _ H), (outcomes_loop_Mat _ _ _ _ _ H1). simpl.
    rewrite (Nat.eqb_sym s s0), (Nat.eqb_sym a (fst ae)).
    destruct (s0 =? s)%nat; simpl; [|ring].
    rewrite vsum_app. destruct (fst ae =? a)%nat; simpl; ring.
Qed.

Lemma accumulate_rewards_Mat (P : Pdict) :
  forall (b b' : mat),
  accumulate_rewards P b = Ok b' ->
  Mat b' s a == Mat b s a + expected_reward (fun _ => false) P s a.
Proof.
  unfold accumulate_rewards, expected_reward.
  induction P as [|se P IH]; intros b b' H; simpl in H.
  - injection H as <-. simpl. ring.
  - apply bind_Ok in H. destruct H as (b1 & H1 & H).
    rewrite (IH _ _ H), (actions_loop_Mat _ _ _ _ H1). simpl.
    rewrite vsum_app. destruct (fst se =? s)%nat; simpl; ring.
Qed.

End Accumulate.

Lemma accumulate_rewards_length (P : Pdict) (b b' : mat) :
  accumulate_rewards P b = Ok b' -> length b' = length b.
Proof.
  unfold accumulate_rewards.
  apply (for_each_Ok_invariant (fun M => length M = length b)); [|reflexivity].
  intros se c c' Hc.
  apply (for_each_Ok_invariant (fun M => length M = length b)); [|exact Hc].
  intros ae d d' Hd.
  apply (for_each_Ok_invariant (fun M => length M = length b)); [|exact Hd].
  intros o f f' Hf H. rewrite (mat_add_at_length _ _ _ _ _ H). exact Hf.
Qed.


Lemma nth_map_zero (r : vec) (a : nat) : nth a (map (fun _ => 0) r) 0 = 0.
Proof.
  revert a. induction r as [|x r IH]; intros a; destruct a; simpl; auto.
Qed.

Lemma zero_last_row_spec (M : mat) (n : nat) :
  length M = S n ->
  length (zero_last_row M) = S n
  /\ (forall a, Mat (zero_last_row M) n a = 0)
  /\ (forall s a, s <> n -> Mat (zero_last_row M) s a = Mat M s a).
Proof.
  intros Hl. unfold zero_last_row. rewrite Hl. simpl.
  destruct (M !! n) as [r|] eqn:E.
  - split; [rewrite length_insert; exact Hl|]. split.
    + intros a. unfold Mat. rewrite nth_insert_list by lia.
      rewrite Nat.eqb_refl. apply nth_map_zero.
    + intros s a Hs. unfold Mat. rewrite nth_insert_list by lia.
      destruct (Nat.eqb_spec s n); [contradiction | reflexivity].
  - apply lookup_ge_None in E. lia.
Qed.




(** ** [get_transition_matrix] with the absorbing state *)

Section AbsorbingRow.

Variables nS nA : nat.

Lemma absorb_row_shape (m k : nat) (M : mat) :
  mat_shape m k M -> mat_shape m k (absorb_row M).
Proof.
  intros [Hl HF]. unfold absorb_row. split; [rewrite length_map; exact Hl|].
  apply List.Forall_forall. intros c Hc. apply in_map_iff in Hc.
  destruct Hc as (c0 & <- & Hc0). rewrite List.Forall_forall in HF.
  unfold vec_shape, set_last. rewrite length_insert, length_map. apply HF. exact Hc0.
Qed.

Lemma on_outcome_true_keeps (state action : nat) (o : outcome) (T : tensor) :
  absorbing_row_untouched nS nA T -> (state < nS)%nat -> (action < nA)%nat ->
  (next_state o < nS)%nat ->
  exists T', on_outcome true state action o T = Ok T' /\ absorbing_row_untouched nS nA T'.
Proof.
  intros [Hsh Hrow] Hs Ha Hn. unfold on_outcome.
  destruct (tensor_add_at_ok (S nS) nA (S nS) T state action (next_state o)
              (probability o) Hsh) as (T1 & HT1 & Hsh1); try lia.
  rewrite HT1. simpl.
  assert (Hrow1 : T1 !! nS = Some (zeros2 nA (S nS))).
  { unfold tensor_add_at in HT1. destruct (T !! state) as [M|]; [|discriminate].
    apply bind_Ok in HT1. destruct HT1 as (M' & _ & HT1). injection HT1 as <-.
    rewrite list_lookup_insert_ne by lia. exact Hrow. }
  destruct (done o); [|exists T1; split; [reflexivity | split; assumption]].
  eexists. split; [reflexivity|]. unfold rewire_to_absorbing.
  destruct (tensor_lookup_shape _ _ _ _ (next_state o) Hsh1) as (M & HM & HMsh); [lia|].
  rewrite HM. split.
  - destruct Hsh1 as [Hl HF]. split; [rewrite length_insert; exact Hl|].
    apply Forall_insert_shape; [exact HF | apply absorb_row_shape; exact HMsh].
  - rewrite list_lookup_insert_ne by lia. exact Hrow1.
Qed.

Lemma transition_table_true_keeps (P : Pdict) :
  well_formed_P nS nA P = true ->
  exists T, for_each P (TransitionMatrix.on_state true) (zeros3 (S nS) nA (S nS)) = Ok T
            /\ absorbing_row_untouched nS nA T.
Proof.
  intros Hwf. unfold well_formed_P in Hwf. rewrite forallb_forall in Hwf.
  apply for_each_invariant.
  - split; [apply zeros3_shape|]. unfold zeros3.
    rewrite (lookup_nth_lt _ nS []) by (rewrite repeat_length; lia).
    rewrite nth_repeat_lt by lia. reflexivity.
  - intros se T Hse HT. specialize (Hwf se Hse).
    apply andb_true_iff in Hwf. destruct Hwf as [Hs Hacts]. apply Nat.ltb_lt in Hs.
    rewrite forallb_forall in Hacts.
    unfold TransitionMatrix.on_state. apply for_each_invariant; [exact HT|].
    intros ae T1 Hae HT1. specialize (Hacts ae Hae).
    apply andb_true_iff in Hacts. destruct Hacts as [Ha Houts]. apply Nat.ltb_lt in Ha.
    rewrite forallb_forall in Houts.
    unfold TransitionMatrix.on_action. apply for_each_invariant; [exact HT1|].
    intros o T2 Ho HT2. apply on_outcome_true_keeps; try assumption.
    apply Nat.ltb_lt. apply Houts. exact Ho.
Qed.

(** On a well-formed transition structure [get_transition_matrix] with the
    absorbing state returns a tensor in which the absorbing state moves to
    itself with probability one under every action. *)
Lemma transition_table_absorbing_row (P : Pdict) :
  well_formed_P nS nA P = true ->
  exists T, transition_table nS nA P true = Ok T
    /\ forall a j, (a < nA)%nat ->
         Tat T nS a j = if (j =? nS)%nat then 1 else 0.
Proof.
  intros Hwf. destruct (transition_table_true_keeps P Hwf) as (T & HT & [Hsh Hrow]).
  unfold transition_table. rewrite HT. simpl.
  eexists. split; [reflexivity|].
  intros a j Ha. unfold set_last_row_last_col.
  destruct Hsh as [Hl _]. rewrite Hl. simpl. rewrite Hrow.
  unfold Tat. rewrite nth_insert_list by lia. rewrite Nat.eqb_refl.
  unfold zeros2.
  rewrite (nth_indep _ [] (set_last 1 (zeros (S nS))))
    by (rewrite length_map, repeat_length; exact Ha).
  rewrite (map_nth (set_last 1)). rewrite nth_repeat_lt by exact Ha.
  unfold set_last, zeros. rewrite repeat_length. simpl pred.
  rewrite nth_insert_list by (rewrite repeat_length; lia).
  destruct (j =? nS)%nat; [reflexivity|].
  change (nth j (repeat 0 (S nS)) 0) with (nth j (zeros (S nS)) 0). apply nth_zeros.
Qed.

End AbsorbingRow.

(** C1.  On the two-state environment, whose transition structure is well
    formed and lists probabilities summing to one for every state and action,
    [get_transition_matrix] with the absorbing state returns a tensor whose
    row for state 1 and action 0 sums to 2: state 1 is rewired to the
    absorbing state when the outcome of state 0 is read, and its own outcome
    is added on top afterwards. *)
Theorem get_transition_matrix_row_sums_to_two :
  well_formed_P 2 1 P_two_state = true /\
  stochastic_P P_two_state = true /\
  exists T r,
    get_transition_matrix (DiscreteEnv 2 1) true (store_of P_two_state) = Ok T /\
    row_sum T 1 0 = Ok r /\ r == 2 /\ ~ Qabs (r - 1) <= tolerance.
Proof.
  split; [reflexivity|]. split; [reflexivity|].
  eexists. eexists. split; [vm_compute; reflexivity|].
  split; [vm_compute; reflexivity|].
  split; [reflexivity|].
  vm_compute. intros H. apply H. reflexivity.
Qed.

(** * Further properties *)

(** ** [unwrap_env] and [is_unwrappable_to] *)

(** The object has an attribute [env]: it is a wrapper. *)
Definition hasattr_env (env : Env) : bool :=
  match env with
  | RewardWrapper _ _ | FeatureWrapper _ _ | Wrapper _ => true
  | _ => false
  end.

(** The layers of an environment, outermost first. *)
Fixpoint layers (env : Env) : list Env :=
  env :: match env with
         | RewardWrapper _ e | FeatureWrapper _ e | Wrapper e => layers e
         | _ => []
         end.

Lemma unwrap_env_not_unwrappable (env : Env) (c : class) :
  is_unwrappable_to env c = false -> unwrap_env env (Some c) = Raise ValueError.
Proof.
  induction env as [nS nA | nS nA | rw e IH | fw e IH | e IH]; simpl;
    destruct c; simpl; try reflexivity; try exact IH; discriminate.
Qed.

(** X1.  [unwrap_env(env, until_class)] returns an environment exactly when
    [is_unwrappable_to(env, until_class)] holds, and the environment it
    returns is an instance of the class; otherwise it raises [ValueError]. *)
Theorem unwrap_env_iff_unwrappable (env : Env) (c : class) :
  if is_unwrappable_to env c
  then exists e, unwrap_env env (Some c) = Ok e /\ isinstance e c = true
  else unwrap_env env (Some c) = Raise ValueError.
Proof.
  destruct (is_unwrappable_to env c) eqn:E.
  - apply is_unwrappable_to_unwrap. exact E.
  - apply unwrap_env_not_unwrappable. exact E.
Qed.

(** X2.  The environment that [unwrap_env(env, until_class)] returns is the
    outermost layer of [env] that is an instance of the class: no layer around
    it is one, and unwrapping it again returns it unchanged. *)
Theorem unwrap_env_outermost (env e : Env) (c : class) :
  unwrap_env env (Some c) = Ok e ->
  exists before after,
    layers env = before ++ e :: after
    /\ isinstance e c = true
    /\ Forall (fun x => isinstance x c = false) before
    /\ unwrap_env e (Some c) = Ok e.
Proof.
  induction env as [nS nA | nS nA | rw env IH | fw env IH | env IH]; simpl.
  1,2: destruct c; simpl; try discriminate; intros H; injection H as <-;
       exists [], []; repeat split; constructor.
  all: destruct c; simpl.
  all: try (intros H; destruct (IH H) as (b & a & Hl & Hi & Hb & Hu);
            eexists (_ :: b), a; rewrite Hl;
            split; [reflexivity | split; [exact Hi | split; [|exact Hu]]];
            constructor; [reflexivity | exact Hb]).
  all: intros H; injection H as <-; eexists [], _; repeat split; constructor.
Qed.

Lemma unwrap_env_outermost_witness :
  exists before after,
    layers (Wrapper (RewardWrapper tabular_wrapper (DiscreteEnv 2 1)))
    = before ++ RewardWrapper tabular_wrapper (DiscreteEnv 2 1) :: after
    /\ isinstance (RewardWrapper tabular_wrapper (DiscreteEnv 2 1)) RewardWrapperC = true
    /\ Forall (fun x => isinstance x RewardWrapperC = false) before
    /\ unwrap_env (RewardWrapper tabular_wrapper (DiscreteEnv 2 1)) (Some RewardWrapperC)
       = Ok (RewardWrapper tabular_wrapper (DiscreteEnv 2 1)).
Proof.
  exact (unwrap_env_outermost (Wrapper (RewardWrapper tabular_wrapper (DiscreteEnv 2 1)))
           (RewardWrapper tabular_wrapper (DiscreteEnv 2 1)) RewardWrapperC eq_refl).
Defined.

Lemma last_default {A : Type} (l : list A) (d d' : A) :
  l <> [] -> List.last l d = List.last l d'.
Proof.
  induction l as [|x l IH]; intros H; [congruence|].
  destruct l as [|y l]; [reflexivity|]. apply IH. discriminate.
Qed.

Lemma last_cons {A : Type} (x : A) (l : list A) (d : A) :
  l <> [] -> List.last (x :: l) d = List.last l d.
Proof. destruct l; [congruence | reflexivity]. Qed.

Lemma layers_nonempty (env : Env) : layers env <> [].
Proof. destruct env; discriminate. Qed.

(** X3.  Without a class, [unwrap_env] never raises: it returns the innermost
    environment of the chain, which has no attribute [env], and unwrapping
    that again returns it unchanged. *)
Theorem unwrap_env_all_the_way (env : Env) :
  exists e, unwrap_env env None = Ok e
    /\ hasattr_env e = false
    /\ List.last (layers env) env = e
    /\ unwrap_env e None = Ok e.
Proof.
  induction env as [nS nA | nS nA | rw env IH | fw env IH | env IH].
  1,2: eexists; repeat split.
  all: destruct IH as (e & H1 & H2 & H3 & H4); exists e.
  all: split; [exact H1 | split; [exact H2 | split; [|exact H4]]].
  all: rewrite <- H3.
  - change (layers (RewardWrapper rw env)) with (RewardWrapper rw env :: layers env).
    rewrite last_cons by apply layers_nonempty. apply last_default, layers_nonempty.
  - change (layers (FeatureWrapper fw env)) with (FeatureWrapper fw env :: layers env).
    rewrite last_cons by apply layers_nonempty. apply last_default, layers_nonempty.
  - change (layers (Wrapper env)) with (Wrapper env :: layers env).
    rewrite last_cons by apply layers_nonempty. apply last_default, layers_nonempty.
Qed.

(** ** [get_transition_matrix]: exceptions and entries *)

Lemma for_each_Raise {A B : Type} (l : list A) (body : A -> B -> result B)
    (acc : B) (e : exn) :
  for_each l body acc = Raise e -> exists x b, In x l /\ body x b = Raise e.
Proof.
  revert acc. induction l as [|x l IH]; intros acc H; simpl in H; [discriminate|].
  destruct (body x acc) as [b|e'] eqn:E; simpl in H.
  - destruct (IH _ H) as (y & c & Hy & Hc). exists y, c. split; [right; exact Hy | exact Hc].
  - injection H as ->. exists x, acc. split; [left; reflexivity | exact E].
Qed.

Lemma vec_add_at_Raise (v : vec) (i : nat) (x : Q) (e : exn) :
  vec_add_at v i x = Raise e -> e = IndexError.
Proof. unfold vec_add_at. destruct (v !! i); congruence. Qed.

Lemma mat_add_at_Raise (M : mat) (i j : nat) (x : Q) (e : exn) :
  mat_add_at M i j x = Raise e -> e = IndexError.
Proof.
  unfold mat_add_at. destruct (M !! i) as [r|]; [|congruence].
  destruct (vec_add_at r j x) as [r'|e'] eqn:E; simpl; [discriminate|].
  intros H. injection H as <-. eapply vec_add_at_Raise; eauto.
Qed.

Lemma tensor_add_at_Raise (T : tensor) (i j k : nat) (x : Q) (e : exn) :
  tensor_add_at T i j k x = Raise e -> e = IndexError.
Proof.
  unfold tensor_add_at. destruct (T !! i) as [M|]; [|congruence].
  destruct (mat_add_at M j k x) as [M'|e'] eqn:E; simpl; [discriminate|].
  intros H. injection H as <-. eapply mat_add_at_Raise; eauto.
Qed.

Lemma on_outcome_Raise (w : bool) (state action : nat) (o : outcome) (T : tensor)
    (e : exn) :
  on_outcome w state action o T = Raise e ->
  e = IndexError \/ (e = AssertionError /\ w = false /\ done o = true).
Proof.
  unfold on_outcome.
  destruct (tensor_add_at T state action (next_state o) (probability o)) as [T'|e'] eqn:E;
    simpl.
  - destruct (done o), w; try discriminate. intros H. injection H as <-. right. auto.
  - intros H. injection H as <-. left. eapply tensor_add_at_Raise; eauto.
Qed.

Lemma transition_table_Raise (nS nA : nat) (P : Pdict) (w : bool) (e : exn) :
  transition_table nS nA P w = Raise e ->
  e = IndexError \/ (e = AssertionError /\ w = false /\ has_done P = true).
Proof.
  unfold transition_table.
  destruct (for_each P (on_state w) _) as [T|e'] eqn:E; simpl; [discriminate|].
  intros H. injection H as ->.
  apply for_each_Raise in E. destruct E as (se & T1 & Hse & E).
  apply for_each_Raise in E. destruct E as (ae & T2 & Hae & E).
  apply for_each_Raise in E. destruct E as (o & T3 & Ho & E).
  apply on_outcome_Raise in E. destruct E as [E | (E & Hw & Hd)]; [left; exact E|].
  right. split; [exact E|]. split; [exact Hw|].
  unfold has_done. apply existsb_exists. exists se. split; [exact Hse|].
  apply existsb_exists. exists ae. split; [exact Hae|].
  apply existsb_exists. exists o. split; [exact Ho | exact Hd].
Qed.

(** X4.  The exceptions of [get_transition_matrix]: [ValueError] only when no
    layer of [env] is a [DiscreteEnv], [IndexError] only when one is, and
    [AssertionError] only when one is, the absorbing state is disabled and
    some outcome has [done = True]; it raises no other exception. *)
Theorem get_transition_matrix_errors (env : Env) (w : bool) (st : store) (e : exn) :
  get_transition_matrix env w st = Raise e ->
  match e with
  | ValueError => is_unwrappable_to env DiscreteEnvC = false
  | IndexError => is_unwrappable_to env DiscreteEnvC = true
  | AssertionError =>
      is_unwrappable_to env DiscreteEnvC = true /\ w = false
      /\ has_done (read_P st (env_P st)) = true
  | _ => False
  end.
Proof.
  unfold get_transition_matrix.
  destruct (is_unwrappable_to env DiscreteEnvC) eqn:Hu.
  - apply is_unwrappable_to_unwrap in Hu.
    destruct Hu as (e0 & -> & _). simpl. intros H.
    apply transition_table_Raise in H.
    destruct H as [-> | (-> & Hw & Hd)]; auto.
  - rewrite (unwrap_env_not_unwrappable _ _ Hu). simpl.
    intros H. injection H as <-. reflexivity.
Qed.

Lemma get_transition_matrix_errors_witness :
  is_unwrappable_to (Wrapper (OtherEnv 2 1)) DiscreteEnvC = false.
Proof.
  exact (get_transition_matrix_errors (Wrapper (OtherEnv 2 1)) true
           (store_of P_two_state) ValueError eq_refl).
Defined.


(** *** When the loops stay in range *)

Lemma existsb_negb_forallb {A : Type} (p : A -> bool) (l : list A) :
  existsb (fun x => negb (p x)) l = negb (forallb p l).
Proof.
  induction l as [|x l IH]; simpl; [reflexivity|].
  rewrite IH. destruct (p x), (forallb p l); reflexivity.
Qed.

Lemma vec_add_at_out (v : vec) (i : nat) (x : Q) :
  (length v <= i)%nat -> vec_add_at v i x = Raise IndexError.
Proof.
  intros H. unfold vec_add_at. rewrite (proj2 (lookup_ge_None v i)) by exact H. reflexivity.
Qed.

Lemma tensor_add_at_out n m k (T : tensor) (i j l : nat) (x : Q) :
  tensor_shape n m k T ->
  (i <? n)%nat && (j <? m)%nat && (l <? k)%nat = false ->
  tensor_add_at T i j l x = Raise IndexError.
Proof.
  intros HT H. unfold tensor_add_at.
  destruct (T !! i) as [M|] eqn:EM; [|reflexivity].
  assert (Hi : (i < n)%nat).
  { apply lookup_lt_Some in EM. destruct HT as [Hl _]. lia. }
  destruct (tensor_lookup_shape _ _ _ _ _ HT Hi) as (M0 & HM0 & HMsh).
  rewrite EM in HM0. injection HM0 as <-.
  unfold mat_add_at. destruct (M !! j) as [r|] eqn:Er; [|reflexivity].
  assert (Hj : (j < m)%nat).
  { apply lookup_lt_Some in Er. destruct HMsh as [Hl _]. lia. }
  destruct (mat_lookup_shape _ _ _ _ HMsh Hj) as (r0 & Hr0 & Hrsh).
  rewrite Er in Hr0. injection Hr0 as <-.
  rewrite vec_add_at_out; [reflexivity|].
  unfold vec_shape in Hrsh. rewrite Hrsh.
  apply Nat.ltb_lt in Hi, Hj. rewrite Hi, Hj in H. simpl in H.
  apply Nat.ltb_ge in H. exact H.
Qed.

Lemma rewire_to_absorbing_shape n m k (T : tensor) (i : nat) :
  tensor_shape n m k T -> tensor_shape n m k (rewire_to_absorbing T i).
Proof.
  intros HT. unfold rewire_to_absorbing.
  destruct (T !! i) as [M|] eqn:E; [|exact HT].
  assert (Hi : (i < n)%nat).
  { apply lookup_lt_Some in E. destruct HT as [Hl _]. lia. }
  destruct (tensor_lookup_shape _ _ _ _ _ HT Hi) as (M0 & HM0 & HMsh).
  rewrite E in HM0. injection HM0 as <-.
  destruct HT as [Hl HF]. split; [rewrite length_insert; exact Hl|].
  apply Forall_insert_shape; [exact HF | apply absorb_row_shape; exact HMsh].
Qed.

Lemma negb_existsb {A : Type} (f : A -> bool) (l : list A) :
  negb (existsb f l) = forallb (fun x => negb (f x)) l.
Proof.
  induction l as [|x l IH]; simpl; [reflexivity|].
  rewrite negb_orb, IH. reflexivity.
Qed.

Lemma forallb_eq {A : Type} (f g : A -> bool) (l : list A) :
  (forall x, f x = g x) -> forallb f l = forallb g l.
Proof.
  intros H. induction l as [|x l IH]; simpl; [reflexivity|]. rewrite H, IH. reflexivity.
Qed.

Section InRange.

Variables nS nA : nat.

Local Abbreviation shape := (tensor_shape (S nS) nA (S nS)).
Local Abbreviation bad_o := (fun (s a : nat) (o : outcome) =>
  negb ((s <? S nS)%nat && (a <? nA)%nat && (next_state o <? S nS)%nat)).
Local Abbreviation bad_a := (fun (s : nat) (ae : nat * list outcome) =>
  existsb (bad_o s (fst ae)) (snd ae)).
Local Abbreviation bad_s := (fun (se : nat * list (nat * list outcome)) =>
  existsb (bad_a (fst se)) (snd se)).

Lemma indices_in_range_bad (P : Pdict) :
  indices_in_range (S nS) nA P = negb (existsb bad_s P).
Proof.
  unfold indices_in_range. rewrite negb_existsb. apply forallb_eq. intros se.
  rewrite negb_existsb. apply forallb_eq. intros ae.
  rewrite negb_existsb. apply forallb_eq. intros o.
  rewrite negb_involutive. reflexivity.
Qed.

Lemma on_outcome_true_in_range (state action : nat) (o : outcome) (T : tensor) :
  shape T ->
  if (state <? S nS)%nat && (action <? nA)%nat && (next_state o <? S nS)%nat
  then exists T', on_outcome true state action o T = Ok T' /\ shape T'
  else on_outcome true state action o T = Raise IndexError.
Proof.
  intros HT. unfold on_outcome.
  destruct ((state <? S nS)%nat && (action <? nA)%nat && (next_state o <? S nS)%nat) eqn:E.
  - apply andb_true_iff in E. destruct E as [E E3]. apply andb_true_iff in E.
    destruct E as [E1 E2]. apply Nat.ltb_lt in E1, E2, E3.
    destruct (tensor_add_at_ok _ _ _ _ _ _ _ (probability o) HT E1 E2 E3) as (T' & -> & HT').
    simpl. destruct (done o); eexists; (split; [reflexivity|]); [|exact HT'].
    apply rewire_to_absorbing_shape. exact HT'.
  - rewrite (tensor_add_at_out _ _ _ _ _ _ _ _ HT E). reflexivity.
Qed.

Lemma transition_loops_in_range (P : Pdict) (T : tensor) :
  shape T ->
  if indices_in_range (S nS) nA P
  then exists T', for_each P (on_state true) T = Ok T' /\ shape T'
  else for_each P (on_state true) T = Raise IndexError.
Proof.
  intros HT.
  assert (Ho : forall s a o b, shape b ->
            match on_outcome true s a o b with
            | Ok b' => bad_o s a o = false /\ shape b'
            | Raise e => bad_o s a o = true /\ e = IndexError
            end).
  { intros s a o b Hb. pose proof (on_outcome_true_in_range s a o b Hb) as H.
    destruct ((s <? S nS)%nat && (a <? nA)%nat && (next_state o <? S nS)%nat).
    - destruct H as (b' & -> & Hb'). auto.
    - rewrite H. auto. }
  assert (Ha : forall s ae b, shape b ->
            match on_action true s ae b with
            | Ok b' => bad_a s ae = false /\ shape b'
            | Raise e => bad_a s ae = true /\ e = IndexError
            end).
  { intros s ae b Hb. unfold on_action.
    apply for_each_first_failure; [exact Hb | |].
    - intros o c _ Hc Hbad. specialize (Ho s (fst ae) o c Hc).
      destruct (on_outcome true s (fst ae) o c) as [c'|e].
      + exists c'. split; [reflexivity | apply Ho].
      + destruct Ho as [Ho _]. congruence.
    - intros o c _ Hc Hbad. specialize (Ho s (fst ae) o c Hc).
      destruct (on_outcome true s (fst ae) o c) as [c'|e].
      + destruct Ho as [Ho _]. congruence.
      + destruct Ho as [_ ->]. reflexivity. }
  assert (Hs : forall se b, shape b ->
            match on_state true se b with
            | Ok b' => bad_s se = false /\ shape b'
            | Raise e => bad_s se = true /\ e = IndexError
            end).
  { intros se b Hb. unfold on_state.
    apply for_each_first_failure; [exact Hb | |].
    - intros ae c _ Hc Hbad. specialize (Ha (fst se) ae c Hc).
      destruct (on_action true (fst se) ae c) as [c'|e].
      + exists c'. split; [reflexivity | apply Ha].
      + destruct Ha as [Ha _]. congruence.
    - intros ae c _ Hc Hbad. specialize (Ha (fst se) ae c Hc).
      destruct (on_action true (fst se) ae c) as [c'|e].
      + destruct Ha as [Ha _]. congruence.
      + destruct Ha as [_ ->]. reflexivity. }
  rewrite indices_in_range_bad.
  assert (Hgood : forall se b, In se P -> shape b -> bad_s se = false ->
            exists b', on_state true se b = Ok b' /\ shape b').
  { intros se b _ Hb Hbad. specialize (Hs se b Hb).
    destruct (on_state true se b) as [c'|e].
    - exists c'. split; [reflexivity | apply Hs].
    - destruct Hs as [Hs _]. congruence. }
  assert (Hbad : forall se b, In se P -> shape b -> bad_s se = true ->
            on_state true se b = Raise IndexError).
  { intros se b _ Hb Hbad. specialize (Hs se b Hb).
    destruct (on_state true se b) as [c'|e].
    - destruct Hs as [Hs _]. congruence.
    - destruct Hs as [_ ->]. reflexivity. }
  pose proof (for_each_first_failure shape bad_s IndexError P (on_state true) T HT
                Hgood Hbad) as H.
  destruct (for_each P (on_state true) T) as [T'|e] eqn:E.
  - destruct H as [-> H]. simpl. eauto.
  - destruct H as [-> ->]. reflexivity.
Qed.

End InRange.

Lemma set_last_row_last_col_shape n m k (T : tensor) :
  tensor_shape n m k T -> tensor_shape n m k (set_last_row_last_col T).
Proof.
  intros HT. unfold set_last_row_last_col.
  destruct (T !! pred (length T)) as [M|] eqn:E; [|exact HT].
  assert (Hi : (pred (length T) < n)%nat).
  { apply lookup_lt_Some in E. destruct HT as [Hl _]. lia. }
  destruct (tensor_lookup_shape _ _ _ _ _ HT Hi) as (M0 & HM0 & [HMl HMF]).
  rewrite E in HM0. injection HM0 as <-.
  destruct HT as [Hl HF]. split; [rewrite length_insert; exact Hl|].
  apply Forall_insert_shape; [exact HF|].
  split; [rewrite length_map; exact HMl|].
  apply List.Forall_forall. intros c Hc. apply in_map_iff in Hc.
  destruct Hc as (c0 & <- & Hc0). rewrite List.Forall_forall in HMF.
  unfold vec_shape, set_last. rewrite length_insert. apply HMF. exact Hc0.
Qed.

(** X5.  With the absorbing state, [get_transition_matrix] returns exactly when
    every index the loops use is in range, the state and the next state of
    every listed outcome below [nS + 1] and its action below [nA]; the table
    then has shape [(nS+1) x nA x (nS+1)].  Otherwise it raises [IndexError];
    it never fails on [done = True]. *)
Theorem get_transition_matrix_absorbing_returns (env e : Env) (st : store) :
  unwrap_env env (Some DiscreteEnvC) = Ok e ->
  let nS := observation_space_n e in
  let nA := action_space_n e in
  if indices_in_range (S nS) nA (read_P st (env_P st))
  then exists T, get_transition_matrix env true st = Ok T
                 /\ tensor_shape (S nS) nA (S nS) T
  else get_transition_matrix env true st = Raise IndexError.
Proof.
  intros He nS nA. unfold get_transition_matrix. rewrite He. simpl. fold nS nA.
  unfold transition_table.
  pose proof (transition_loops_in_range nS nA (read_P st (env_P st))
                (zeros3 (S nS) nA (S nS)) (zeros3_shape _ _ _)) as H.
  destruct (indices_in_range (S nS) nA (read_P st (env_P st))).
  - destruct H as (T & -> & HT). simpl. eexists. split; [reflexivity|].
    apply set_last_row_last_col_shape. exact HT.
  - rewrite H. reflexivity.
Qed.

Lemma get_transition_matrix_absorbing_returns_witness :
  exists T, get_transition_matrix (DiscreteEnv 2 1) true (store_of P_two_state) = Ok T
            /\ tensor_shape 3 1 3 T.
Proof.
  exact (get_transition_matrix_absorbing_returns (DiscreteEnv 2 1) (DiscreteEnv 2 1)
           (store_of P_two_state) eq_refl).
Defined.

(** *** Entries *)

Lemma vec_add_at_Vat (v v' : vec) (i : nat) (x : Q) (j : nat) :
  vec_add_at v i x = Ok v' ->
  Vat v' j == Vat v j + (if (j =? i)%nat then x else 0).
Proof. apply vec_add_at_nth. Qed.

Lemma tensor_add_at_Tat (T T' : tensor) (i j k : nat) (x : Q) (s a l : nat) :
  tensor_add_at T i j k x = Ok T' ->
  Tat T' s a l
  == Tat T s a l + (if (s =? i)%nat && (a =? j)%nat && (l =? k)%nat then x else 0).
Proof.
  unfold tensor_add_at. destruct (T !! i) as [M|] eqn:E; [|discriminate].
  intros H. apply bind_Ok in H. destruct H as (M' & HM' & H). injection H as <-.
  unfold Tat. rewrite nth_insert_list by (eapply lookup_lt_Some; eauto).
  destruct (Nat.eqb_spec s i) as [->|Hne]; simpl.
  - rewrite (nth_lookup_list T i M [] E).
    apply (mat_add_at_Mat _ _ _ _ _ a l HM').
  - ring.
Qed.

Lemma tensor_add_at_length (T T' : tensor) (i j k : nat) (x : Q) :
  tensor_add_at T i j k x = Ok T' -> length T' = length T.
Proof.
  unfold tensor_add_at. destruct (T !! i) as [M|]; [|discriminate].
  intros H. apply bind_Ok in H. destruct H as (M' & _ & H). injection H as <-.
  apply length_insert.
Qed.

Lemma rewire_to_absorbing_length (T : tensor) (i : nat) :
  length (rewire_to_absorbing T i) = length T.
Proof.
  unfold rewire_to_absorbing. destruct (T !! i); [apply length_insert | reflexivity].
Qed.

Lemma rewire_to_absorbing_other (T : tensor) (i s : nat) :
  s <> i -> nth s (rewire_to_absorbing T i) [] = nth s T [].
Proof.
  intros Hne. unfold rewire_to_absorbing. destruct (T !! i) as [M|] eqn:E; [|reflexivity].
  rewrite nth_insert_list by (eapply lookup_lt_Some; eauto).
  destruct (Nat.eqb_spec s i); [congruence | reflexivity].
Qed.

Section ListedProbabilities.

Variables (w : bool) (s a : nat).

(** A quantity read off the row of the state [s] that grows by [g k x] when
    [x] is added at [(s, a, k)], and does not change otherwise. *)
Variables (f : mat -> Q) (g : nat -> Q -> Q).
Hypothesis Hadd : forall (T T' : tensor) (i j k : nat) (x : Q),
  tensor_add_at T i j k x = Ok T' ->
  f (nth s T' []) == f (nth s T []) + (if (i =? s)%nat && (j =? a)%nat then g k x else 0).

Local Abbreviation hit := (fun o : outcome => done o && (next_state o =? s)%nat).
Local Abbreviation pr := (fun o : outcome => g (next_state o) (probability o)).

Lemma on_outcome_listed (state action : nat) (o : outcome) (T T' : tensor) :
  hit o = false ->
  on_outcome w state action o T = Ok T' ->
  length T' = length T
  /\ f (nth s T' [])
     == f (nth s T []) + (if (state =? s)%nat && (action =? a)%nat then pr o else 0).
Proof.
  intros Hhit H. unfold on_outcome in H. apply bind_Ok in H.
  destruct H as (T1 & H1 & H).
  pose proof (Hadd _ _ _ _ _ _ H1) as E.
  pose proof (tensor_add_at_length _ _ _ _ _ _ H1) as El.
  destruct (done o) eqn:Hd.
  - destruct w; [|discriminate]. injection H as <-.
    split; [rewrite rewire_to_absorbing_length; exact El|].
    cbv beta in Hhit. rewrite Hd in Hhit. simpl in Hhit. apply Nat.eqb_neq in Hhit.
    rewrite rewire_to_absorbing_other by congruence. exact E.
  - injection H as <-. split; [exact El | exact E].
Qed.

Lemma on_action_listed (state : nat) (ae : nat * list outcome) :
  existsb hit (snd ae) = false ->
  forall (T T' : tensor),
  on_action w state ae T = Ok T' ->
  length T' = length T
  /\ f (nth s T' [])
     == f (nth s T [])
        + (if (state =? s)%nat && (fst ae =? a)%nat then vsum (map pr (snd ae)) else 0).
Proof.
  unfold on_action. destruct ae as [action outs]. simpl.
  induction outs as [|o outs IH]; intros Hhit T T' H; simpl in H.
  - injection H as <-. split; [reflexivity|].
    simpl. destruct ((state =? s)%nat && (action =? a)%nat); ring.
  - simpl in Hhit. apply orb_false_iff in Hhit. destruct Hhit as [Ho Hrest].
    apply bind_Ok in H. destruct H as (T1 & H1 & H).
    destruct (on_outcome_listed _ _ _ _ _ Ho H1) as [L1 E1].
    destruct (IH Hrest _ _ H) as [L2 E2].
    split; [congruence|]. rewrite E2, E1. simpl.
    destruct ((state =? s)%nat && (action =? a)%nat); ring.
Qed.

Lemma on_state_listed (se : nat * list (nat * list outcome)) :
  existsb (fun ae => existsb hit (snd ae)) (snd se) = false ->
  forall (T T' : tensor),
  on_state w se T = Ok T' ->
  length T' = length T
  /\ f (nth s T' [])
     == f (nth s T [])
        + (if (fst se =? s)%nat
           then vsum (flat_map (fun ae => if (fst ae =? a)%nat then map pr (snd ae) else [])
                        (snd se))
           else 0).
Proof.
  unfold on_state. destruct se as [state acts]. simpl.
  induction acts as [|ae acts IH]; intros Hhit T T' H; simpl in H.
  - injection H as <-. split; [reflexivity|]. simpl. destruct (state =? s)%nat; ring.
  - simpl in Hhit. apply orb_false_iff in Hhit. destruct Hhit as [Ho Hrest].
    apply bind_Ok in H. destruct H as (T1 & H1 & H).
    destruct (on_action_listed _ _ Ho _ _ H1) as [L1 E1].
    destruct (IH Hrest _ _ H) as [L2 E2].
    split; [congruence|]. rewrite E2, E1. simpl.
    destruct (state =? s)%nat; simpl; [|ring].
    rewrite vsum_app. destruct (fst ae =? a)%nat; simpl; ring.
Qed.

Lemma transition_loops_listed (P : Pdict) :
  terminal P s = false ->
  forall (T T' : tensor),
  for_each P (on_state w) T = Ok T' ->
  length T' = length T
  /\ f (nth s T' []) == f (nth s T []) + listed pr P s a.
Proof.
  unfold terminal, listed.
  induction P as [|se P IH]; intros Hhit T T' H; simpl in H.
  - injection H as <-. split; [reflexivity|]. simpl. ring.
  - simpl in Hhit. apply orb_false_iff in Hhit. destruct Hhit as [Ho Hrest].
    apply bind_Ok in H. destruct H as (T1 & H1 & H).
    destruct (on_state_listed _ Ho _ _ H1) as [L1 E1].
    destruct (IH Hrest _ _ H) as [L2 E2].
    split; [congruence|]. rewrite E2, E1. simpl.
    rewrite vsum_app. destruct (fst se =? s)%nat; simpl; ring.
Qed.

(** The same through the whole of [transition_table], for a state of the
    environment. *)
Lemma transition_table_listed (nS nA : nat) (P : Pdict) (T : tensor) :
  terminal P s = false -> (s < nS)%nat ->
  transition_table nS nA P w = Ok T ->
  f (nth s T []) == f (nth s (zeros3 (if w then S nS else nS) nA (if w then S nS else nS)) [])
                    + listed pr P s a.
Proof.
  intros Hterm Hs H. unfold transition_table in H.
  apply bind_Ok in H. destruct H as (T1 & H1 & H). injection H as <-.
  destruct (transition_loops_listed _ Hterm _ _ H1) as [L E].
  rewrite <- E. destruct w; [|reflexivity].
  unfold set_last_row_last_col. destruct (T1 !! pred (length T1)) as [M|] eqn:EM;
    [|reflexivity].
  rewrite nth_insert_list by (eapply lookup_lt_Some; eauto).
  rewrite L. unfold zeros3. rewrite repeat_length. simpl pred.
  destruct (Nat.eqb_spec s nS); [lia | reflexivity].
Qed.

End ListedProbabilities.

Lemma nth_zeros3 (n m k s : nat) :
  (s < n)%nat -> nth s (zeros3 n m k) [] = zeros2 m k.
Proof. intros H. unfold zeros3. apply nth_repeat_lt. exact H. Qed.

Lemma Mat_zeros2 (m k a j : nat) : Mat (zeros2 m k) a j = 0.
Proof.
  unfold Mat, zeros2.
  destruct (Nat.lt_ge_cases a m) as [Ha|Ha].
  - rewrite nth_repeat_lt by exact Ha. apply nth_zeros.
  - rewrite (nth_overflow (repeat (zeros k) m)) by (rewrite repeat_length; exact Ha).
    destruct j; reflexivity.
Qed.

(** X6.  Whenever [get_transition_matrix] returns a table, with or without the
    absorbing state, the row of every state of the environment that no
    outcome with [done = True] leads to holds the probabilities listed for it:
    [T[s, a, j]] is the sum of the probabilities of the outcomes listed for
    [s] and [a] with next state [j]. *)
Theorem get_transition_matrix_listed_probabilities (env e : Env) (w : bool)
    (st : store) (T : tensor) (s a j : nat) :
  unwrap_env env (Some DiscreteEnvC) = Ok e ->
  get_transition_matrix env w st = Ok T ->
  (s < observation_space_n e)%nat ->
  terminal (read_P st (env_P st)) s = false ->
  Tat T s a j == listed_probability (read_P st (env_P st)) s a j.
Proof.
  intros He H Hs Hterm. unfold get_transition_matrix in H. rewrite He in H. simpl in H.
  assert (Hadd : forall (T T' : tensor) (i i' k : nat) (x : Q),
            tensor_add_at T i i' k x = Ok T' ->
            Mat (nth s T' []) a j
            == Mat (nth s T []) a j
               + (if (i =? s)%nat && (i' =? a)%nat
                  then (if (k =? j)%nat then x else 0) else 0)).
  { clear. intros T T' i i' k x H.
    pose proof (tensor_add_at_Tat _ _ _ _ _ _ s a j H) as E. unfold Tat in E.
    unfold Mat. rewrite E.
    rewrite (Nat.eqb_sym s i), (Nat.eqb_sym a i'), (Nat.eqb_sym j k).
    destruct (i =? s)%nat, (i' =? a)%nat, (k =? j)%nat; simpl; ring. }
  pose proof (transition_table_listed w s a (fun M => Mat M a j)
                (fun k x => if (k =? j)%nat then x else 0) Hadd _ _ _ _ Hterm Hs H) as E.
  cbv beta in E. unfold listed_probability.
  change (Tat T s a j) with (Mat (nth s T []) a j). rewrite E.
  rewrite nth_zeros3 by (destruct w; lia). rewrite Mat_zeros2. ring.
Qed.

Lemma get_transition_matrix_listed_probabilities_witness :
  exists T, get_transition_matrix (DiscreteEnv 2 1) true (store_of P_two_state) = Ok T
    /\ Tat T 0 0 1 == listed_probability P_two_state 0 0 1.
Proof.
  eexists. split; [vm_compute; reflexivity|].
  exact (get_transition_matrix_listed_probabilities (DiscreteEnv 2 1) (DiscreteEnv 2 1)
           true (store_of P_two_state) _ 0%nat 0%nat 1%nat eq_refl eq_refl
           ltac:(simpl; lia) eq_refl).
Defined.

(** *** Terminal rows *)

Lemma for_each_establish {A B : Type} (I K : B -> Prop) (hit : A -> bool)
    (l : list A) (body : A -> B -> result B) :
  (forall x b b', In x l -> I b -> body x b = Ok b' ->
     I b' /\ (K b -> K b') /\ (hit x = true -> K b')) ->
  forall (acc acc' : B),
  I acc -> for_each l body acc = Ok acc' ->
  I acc' /\ (K acc -> K acc') /\ (existsb hit l = true -> K acc').
Proof.
  induction l as [|x l IH]; intros Hbody acc acc' Hacc H; simpl in H.
  - injection H as <-. split; [exact Hacc|]. split; [tauto | discriminate].
  - apply bind_Ok in H. destruct H as (b & Hb & H).
    destruct (Hbody x acc b (or_introl eq_refl) Hacc Hb) as (Ib & Kb & Hitb).
    destruct (IH (fun y c c' Hy => Hbody y c c' (or_intror Hy)) b acc' Ib H)
      as (I' & K' & Hit').
    split; [exact I'|]. split; [tauto|].
    simpl. intros E. apply orb_true_iff in E. destruct E as [E|E]; [tauto | tauto].
Qed.

Lemma map_const_zeros (c : vec) : map (fun _ => 0) c = zeros (length c).
Proof. induction c as [|x c IH]; simpl; [reflexivity|]. rewrite IH. reflexivity. Qed.

Lemma absorb_row_canonical (m k : nat) (M : mat) :
  mat_shape m k M -> absorb_row M = repeat (set_last 1 (zeros k)) m.
Proof.
  intros [Hl HF]. unfold absorb_row. subst m.
  induction M as [|c M IH]; simpl; [reflexivity|].
  inversion HF as [|? ? Hc HF']; subst. rewrite IH by exact HF'.
  rewrite map_const_zeros. unfold vec_shape in Hc. rewrite Hc. reflexivity.
Qed.

Lemma Tat_absorbing_form (nS nA : nat) (T : tensor) (s a j : nat) :
  T !! s = Some (repeat (set_last 1 (zeros (S nS))) nA) -> (a < nA)%nat ->
  Tat T s a j = if (j =? nS)%nat then 1 else 0.
Proof.
  intros H Ha. unfold Tat. rewrite (nth_lookup_list T s _ [] H).
  rewrite nth_repeat_lt by exact Ha.
  unfold set_last, zeros. rewrite repeat_length. simpl pred.
  rewrite nth_insert_list by (rewrite repeat_length; lia).
  destruct (j =? nS)%nat; [reflexivity|].
  change (nth j (repeat 0 (S nS)) 0) with (nth j (zeros (S nS)) 0). apply nth_zeros.
Qed.

Lemma tensor_add_at_shape n m k (T T' : tensor) (i j l : nat) (x : Q) :
  tensor_shape n m k T -> tensor_add_at T i j l x = Ok T' -> tensor_shape n m k T'.
Proof.
  intros HT H.
  destruct ((i <? n)%nat && (j <? m)%nat && (l <? k)%nat) eqn:E.
  - apply andb_true_iff in E. destruct E as [E E3]. apply andb_true_iff in E.
    destruct E as [E1 E2]. apply Nat.ltb_lt in E1, E2, E3.
    destruct (tensor_add_at_ok _ _ _ _ _ _ _ x HT E1 E2 E3) as (T0 & H0 & HT0).
    congruence.
  - rewrite (tensor_add_at_out _ _ _ _ _ _ _ _ HT E) in H. discriminate.
Qed.

Section TerminalRows.

Variables (nS nA s : nat).

Local Abbreviation shape := (tensor_shape (S nS) nA (S nS)).
Local Abbreviation absorbed :=
  (fun T : tensor => T !! s = Some (repeat (set_last 1 (zeros (S nS))) nA)).
Local Abbreviation hit := (fun o : outcome => done o && (next_state o =? s)%nat).

Lemma on_outcome_absorbed (state action : nat) (o : outcome) (T T' : tensor) :
  (state = s -> hit o = true) ->
  shape T -> on_outcome true state action o T = Ok T' ->
  shape T' /\ (absorbed T -> absorbed T') /\ (hit o = true -> absorbed T').
Proof.
  intros Hloop HT H.
  pose proof (on_outcome_true_in_range nS nA state action o T HT) as Hr.
  destruct ((state <? S nS)%nat && (action <? nA)%nat && (next_state o <? S nS)%nat)
    eqn:Er; [|congruence].
  destruct Hr as (T0 & Hr & HT'). rewrite H in Hr. injection Hr as <-.
  split; [exact HT'|].
  apply andb_true_iff in Er. destruct Er as [_ En]. apply Nat.ltb_lt in En.
  unfold on_outcome in H. apply bind_Ok in H. destruct H as (T1 & H1 & H).
  assert (HT1 : shape T1) by exact (tensor_add_at_shape _ _ _ _ _ _ _ _ _ HT H1).
  assert (Hhit : hit o = true -> absorbed T').
  { intros Eh. cbv beta in Eh. apply andb_true_iff in Eh. destruct Eh as [Hd Hn].
    apply Nat.eqb_eq in Hn. rewrite Hd in H. injection H as <-.
    unfold rewire_to_absorbing.
    destruct (tensor_lookup_shape _ _ _ _ (next_state o) HT1 En) as (M & HM & HMsh).
    rewrite HM. rewrite <- Hn.
    rewrite list_lookup_insert_eq by (rewrite (proj1 HT1); exact En).
    rewrite (absorb_row_canonical _ _ _ HMsh). reflexivity. }
  split; [|exact Hhit].
  intros HK. destruct (hit o) eqn:Eh; [apply Hhit; reflexivity|].
  assert (Hne : state <> s) by (intros Heq; specialize (Hloop Heq); congruence).
  assert (HK1 : absorbed T1).
  { unfold tensor_add_at in H1. destruct (T !! state) as [M|] eqn:E; [|discriminate].
    apply bind_Ok in H1. destruct H1 as (M' & _ & H1). injection H1 as <-.
    rewrite list_lookup_insert_ne by exact Hne. exact HK. }
  cbv beta in Eh. destruct (done o); [|injection H as <-; exact HK1].
  injection H as <-. simpl in Eh. apply Nat.eqb_neq in Eh.
  unfold rewire_to_absorbing. destruct (T1 !! next_state o); [|exact HK1].
  rewrite list_lookup_insert_ne by exact Eh. exact HK1.
Qed.

Lemma transition_loops_absorbed (P : Pdict) (T T' : tensor) :
  (forall se ae o, In se P -> In ae (snd se) -> In o (snd ae) ->
     fst se = s -> hit o = true) ->
  shape T -> for_each P (on_state true) T = Ok T' ->
  shape T' /\ (terminal P s = true -> absorbed T').
Proof.
  intros Hloops HT H.
  destruct (for_each_establish shape absorbed
              (fun se => existsb (fun ae => existsb hit (snd ae)) (snd se))
              P (on_state true)) with (acc := T) (acc' := T') as (I' & _ & K');
    [|exact HT | exact H | split; [exact I' | exact K']].
  intros se b b' Hse Hb Hrun. unfold on_state in Hrun.
  apply (for_each_establish shape absorbed (fun ae => existsb hit (snd ae))
           (snd se) (on_action true (fst se))); [|exact Hb | exact Hrun].
  intros ae c c' Hae Hc Hrun'. unfold on_action in Hrun'.
  apply (for_each_establish shape absorbed hit
           (snd ae) (on_outcome true (fst se) (fst ae))); [|exact Hc | exact Hrun'].
  intros o d d' Ho Hd Hrun''.
  apply (on_outcome_absorbed (fst se) (fst ae) o d d'); [|exact Hd | exact Hrun''].
  intros Heq. apply (Hloops se ae o); assumption.
Qed.

End TerminalRows.

Lemma terminal_self_loops_spec (P : Pdict) (s : nat) :
  terminal_self_loops P = true -> terminal P s = true ->
  forall se ae o, In se P -> In ae (snd se) -> In o (snd ae) ->
    fst se = s -> done o && (next_state o =? s)%nat = true.
Proof.
  unfold terminal_self_loops. intros H Hterm se ae o Hse Hae Ho Heq.
  rewrite forallb_forall in H. specialize (H se Hse).
  rewrite Heq, Hterm in H. simpl in H.
  rewrite forallb_forall in H. specialize (H ae Hae).
  rewrite forallb_forall in H. apply H. exact Ho.
Qed.

(** X7.  When every outcome listed for a terminal state ends the episode in
    that state, as in the toy-text environments of gym, the table returned
    with the absorbing state sends every terminal state of the environment to
    the absorbing state with probability one, under every action. *)
Theorem get_transition_matrix_terminal_rows (env e : Env) (st : store) (T : tensor)
    (s a j : nat) :
  unwrap_env env (Some DiscreteEnvC) = Ok e ->
  get_transition_matrix env true st = Ok T ->
  terminal_self_loops (read_P st (env_P st)) = true ->
  terminal (read_P st (env_P st)) s = true ->
  (s < observation_space_n e)%nat -> (a < action_space_n e)%nat ->
  Tat T s a j = if (j =? observation_space_n e)%nat then 1 else 0.
Proof.
  intros He H Hloops Hterm Hs Ha.
  unfold get_transition_matrix in H. rewrite He in H. simpl in H.
  unfold transition_table in H. apply bind_Ok in H. destruct H as (T1 & H1 & H).
  injection H as <-.
  destruct (transition_loops_absorbed (observation_space_n e) (action_space_n e) s
              _ _ _ (terminal_self_loops_spec _ s Hloops Hterm) (zeros3_shape _ _ _) H1)
    as [Hsh HK].
  specialize (HK Hterm).
  apply (Tat_absorbing_form _ (action_space_n e)); [|exact Ha].
  unfold set_last_row_last_col. rewrite (proj1 Hsh). simpl pred.
  destruct (T1 !! observation_space_n e); [|exact HK].
  rewrite list_lookup_insert_ne by lia. exact HK.
Qed.

Lemma get_transition_matrix_terminal_rows_witness :
  exists T, get_transition_matrix (DiscreteEnv 2 1) true (store_of P_episode) = Ok T
    /\ Tat T 1 0 2 = 1.
Proof.
  eexists. split; [vm_compute; reflexivity|].
  exact (get_transition_matrix_terminal_rows (DiscreteEnv 2 1) (DiscreteEnv 2 1)
           (store_of P_episode) _ 1%nat 0%nat 2%nat eq_refl eq_refl eq_refl eq_refl
           ltac:(simpl; lia) ltac:(simpl; lia)).
Defined.

(** *** Row sums *)







(** X9.  On a well-formed transition structure [get_transition_matrix] with
    the absorbing state returns a table in which the absorbing state moves to
    itself with probability one under every action. *)
Theorem get_transition_matrix_absorbing_row (env e : Env) (st : store) :
  unwrap_env env (Some DiscreteEnvC) = Ok e ->
  well_formed_P (observation_space_n e) (action_space_n e) (read_P st (env_P st)) = true ->
  exists T, get_transition_matrix env true st = Ok T
    /\ forall a j, (a < action_space_n e)%nat ->
         Tat T (observation_space_n e) a j
         = if (j =? observation_space_n e)%nat then 1 else 0.
Proof.
  intros He Hwf. unfold get_transition_matrix. rewrite He. simpl.
  apply transition_table_absorbing_row. exact Hwf.
Qed.

Lemma get_transition_matrix_absorbing_row_witness :
  exists T, get_transition_matrix (DiscreteEnv 2 1) true (store_of P_two_state) = Ok T
    /\ forall a j, (a < 1)%nat -> Tat T 2 a j = if (j =? 2)%nat then 1 else 0.
Proof.
  exact (get_transition_matrix_absorbing_row (DiscreteEnv 2 1) (DiscreteEnv 2 1)
           (store_of P_two_state) eq_refl eq_refl).
Defined.

(** ** [occupancy_measure]: termination and bounds *)

Lemma Vat_nonneg (v : vec) (j : nat) : nonneg_vec v = true -> 0 <= Vat v j.
Proof.
  intros H. unfold Vat. destruct (Nat.lt_ge_cases j (length v)) as [Hj|Hj].
  - apply Qle_bool_iff. apply (forallb_nth _ _ j 0 H Hj).
  - rewrite nth_overflow by exact Hj. apply Qle_refl.
Qed.

Lemma Mat_nonneg (M : mat) (s a : nat) : nonneg_mat M = true -> 0 <= Mat M s a.
Proof.
  intros H. unfold Mat. destruct (Nat.lt_ge_cases s (length M)) as [Hs|Hs].
  - apply Vat_nonneg. apply (forallb_nth _ _ s [] H Hs).
  - rewrite (nth_overflow M) by exact Hs. destruct a; apply Qle_refl.
Qed.

Lemma Tat_nonneg (T : tensor) (s a j : nat) : nonneg_tensor T = true -> 0 <= Tat T s a j.
Proof.
  intros H. unfold Tat. destruct (Nat.lt_ge_cases s (length T)) as [Hs|Hs].
  - apply Mat_nonneg. apply (forallb_nth _ _ s [] H Hs).
  - rewrite (nth_overflow T) by exact Hs. destruct a, j; apply Qle_refl.
Qed.

Lemma Qsum_nonneg (n : nat) (f : nat -> Q) :
  (forall i, (i < n)%nat -> 0 <= f i) -> 0 <= Qsum n f.
Proof.
  induction n as [|n IH]; intros H; simpl; [apply Qle_refl|].
  assert (0 <= Qsum n f) by (apply IH; intros; apply H; lia).
  assert (0 <= f n) by (apply H; lia). lra.
Qed.

Lemma Qsum_le (n : nat) (f g : nat -> Q) :
  (forall i, (i < n)%nat -> f i <= g i) -> Qsum n f <= Qsum n g.
Proof.
  induction n as [|n IH]; intros H; simpl; [apply Qle_refl|].
  assert (Qsum n f <= Qsum n g) by (apply IH; intros; apply H; lia).
  assert (f n <= g n) by (apply H; lia). lra.
Qed.

Lemma Qsum_abs (n : nat) (f : nat -> Q) :
  Qabs (Qsum n f) <= Qsum n (fun i => Qabs (f i)).
Proof.
  induction n as [|n IH]; simpl; [apply Qle_refl|].
  eapply Qle_trans; [apply Qabs_triangle|]. lra.
Qed.

Lemma Qsum_term_le (n : nat) (f : nat -> Q) (s : nat) :
  (forall i, (i < n)%nat -> 0 <= f i) -> (s < n)%nat -> f s <= Qsum n f.
Proof.
  induction n as [|n IH]; intros H Hs; [lia|]. simpl.
  assert (0 <= Qsum n f) by (apply Qsum_nonneg; intros; apply H; lia).
  assert (0 <= f n) by (apply H; lia).
  destruct (Nat.eq_dec s n) as [->|Hne]; [lra|].
  assert (f s <= Qsum n f) by (apply IH; [intros; apply H; lia | lia]). lra.
Qed.

Lemma l1_norm_Qsum (v : vec) : l1_norm v == Qsum (length v) (fun j => Qabs (Vat v j)).
Proof.
  unfold l1_norm. rewrite vsum_Qsum, length_map. apply Qsum_ext. intros j Hj.
  unfold Vat. rewrite (nth_indep _ 0 (Qabs 0)) by (rewrite length_map; exact Hj).
  rewrite map_nth. reflexivity.
Qed.

Section Contraction.

Variables (n_states n_actions : nat) (transition_matrix : tensor) (gamma : Q).
Variables (policy : mat) (P0 : vec).
Hypothesis HT : stochastic_tensor n_states n_actions transition_matrix = true.
Hypothesis HTpos : nonneg_tensor transition_matrix = true.
Hypothesis Hpolicy : stochastic_policy n_states n_actions policy = true.
Hypothesis Hpolicypos : nonneg_mat policy = true.
Hypothesis HP0 : length P0 = n_states.
Hypothesis Hn : (0 < n_states)%nat.
Hypothesis Hgamma0 : 0 <= gamma.
Hypothesis Hgamma1 : gamma < 1.

Local Abbreviation step := (recursion_step n_states n_actions transition_matrix gamma policy P0).
Local Abbreviation iter := (iterate n_states n_actions transition_matrix gamma policy P0).
Local Abbreviation flow := (fun (x : nat -> Q) (j : nat) =>
  Qsum n_states (fun s => Qsum n_actions (fun a =>
    x s * Mat policy s a * Tat transition_matrix s a j))).

(** What flows out of the states arrives somewhere. *)
Lemma flow_total (x : nat -> Q) :
  Qsum n_states (fun j => flow x j) == Qsum n_states x.
Proof.
  rewrite Qsum_swap. apply Qsum_ext. intros s Hs.
  rewrite Qsum_swap.
  rewrite (Qsum_ext n_actions _ (fun a => x s * Mat policy s a)).
  - rewrite Qsum_scale, (policy_row_sum _ _ _ Hpolicy) by exact Hs. ring.
  - intros a Ha.
    rewrite Qsum_scale, (transition_row_sum _ _ _ HT) by assumption. ring.
Qed.

Lemma flow_abs (x : nat -> Q) (j : nat) :
  Qabs (flow x j) <= flow (fun s => Qabs (x s)) j.
Proof.
  eapply Qle_trans; [apply Qsum_abs|]. apply Qsum_le. intros s Hs.
  eapply Qle_trans; [apply Qsum_abs|]. apply Qsum_le. intros a Ha.
  rewrite !Qabs_Qmult.
  rewrite (Qabs_pos (Mat policy s a)) by (apply Mat_nonneg; exact Hpolicypos).
  rewrite (Qabs_pos (Tat transition_matrix s a j)) by (apply Tat_nonneg; exact HTpos).
  apply Qle_refl.
Qed.

Lemma step_difference (d d' : vec) (j : nat) :
  (j < n_states)%nat ->
  Vat (step d) j - Vat (step d') j == gamma * flow (fun s => Vat d s - Vat d' s) j.
Proof.
  intros Hj. unfold recursion_step. rewrite !Vat_map_seq by exact Hj.
  assert (E : flow (fun s => Vat d s - Vat d' s) j
              == flow (Vat d) j - flow (Vat d') j).
  { cbv beta.
    rewrite (Qsum_ext n_states _ (fun s =>
               Qsum n_actions (fun a => Vat d s * Mat policy s a * Tat transition_matrix s a j)
               + (-1) * Qsum n_actions (fun a =>
                          Vat d' s * Mat policy s a * Tat transition_matrix s a j))).
    - rewrite Qsum_plus, Qsum_scale. ring.
    - intros s Hs. rewrite <- Qsum_scale, <- Qsum_plus. apply Qsum_ext. intros a Ha. ring. }
  rewrite E. ring.
Qed.

(** One step of the recursion brings two arrays closer by the factor
    [gamma], in the sum of the absolute differences. *)
Lemma step_contracts (d d' : vec) :
  Qsum n_states (fun j => Qabs (Vat (step d) j - Vat (step d') j))
  <= gamma * Qsum n_states (fun s => Qabs (Vat d s - Vat d' s)).
Proof.
  rewrite <- (flow_total (fun s => Qabs (Vat d s - Vat d' s))).
  rewrite <- Qsum_scale. apply Qsum_le. intros j Hj.
  rewrite (Qabs_wd _ _ (step_difference d d' j Hj)).
  rewrite Qabs_Qmult, (Qabs_pos gamma) by exact Hgamma0.
  rewrite (Qmult_comm gamma (Qabs _)), (Qmult_comm gamma (flow _ j)).
  apply Qmult_le_compat_r; [apply flow_abs | exact Hgamma0].
Qed.

(** The sum of the absolute differences of the iterates [k] and [k+1]. *)
Local Abbreviation gap := (fun k : nat =>
  Qsum n_states (fun j => Qabs (Vat (iter (S k)) j - Vat (iter k) j))).

Lemma gap_nonneg (k : nat) : 0 <= gap k.
Proof. apply Qsum_nonneg. intros j _. apply Qabs_nonneg. Qed.

Lemma gap_step (k : nat) : gap (S k) <= gamma * gap k.
Proof. apply (step_contracts (iter (S k)) (iter k)). Qed.

Lemma gap_zero : gap 0%nat == l1_norm P0.
Proof.
  rewrite l1_norm_Qsum, HP0. apply Qsum_ext. intros j Hj.
  apply Qabs_wd.
  pose proof (recursion_step_zeros n_states n_actions transition_matrix gamma policy P0 HP0)
    as Hz.
  simpl iterate. rewrite (veq_Vat _ _ j Hz).
  unfold Vat at 2. rewrite nth_zeros. ring.
Qed.

Lemma gap_bound (k : nat) : gap k * (1 + Qnat k * (1 - gamma)) <= l1_norm P0.
Proof.
  induction k as [|k IH].
  - rewrite <- gap_zero. unfold Qnat. simpl inject_Z.
    assert (E : 1 + 0 * (1 - gamma) == 1) by ring. rewrite E, Qmult_1_r. apply Qle_refl.
  - eapply Qle_trans; [|exact IH].
    pose proof (gap_step k) as Hs. pose proof (gap_nonneg k) as Hk.
    pose proof (gap_nonneg (S k)) as Hk'.
    assert (Hq : 0 <= Qnat k).
    { unfold Qnat. change 0 with (inject_Z 0). rewrite <- Zle_Qle. lia. }
    rewrite Qnat_S.
    assert (H1 : 0 <= 1 + (Qnat k + 1) * (1 - gamma)).
    { assert (0 <= (Qnat k + 1) * (1 - gamma)) by (apply Qmult_le_0_compat; lra). lra. }
    eapply Qle_trans.
    { apply Qmult_le_compat_r; [exact Hs | exact H1]. }
    assert (E1 : gamma * gap k * (1 + (Qnat k + 1) * (1 - gamma))
                 == gamma * (1 + (Qnat k + 1) * (1 - gamma)) * gap k) by ring.
    rewrite E1. rewrite (Qmult_comm (gap k) (1 + _)).
    apply Qmult_le_compat_r; [|exact Hk].
    assert (Hsq : 0 <= (Qnat k + 1) * ((1 - gamma) * (1 - gamma))).
    { apply Qmult_le_0_compat; [lra|]. apply Qmult_le_0_compat; lra. }
    assert (E2 : gamma * (1 + (Qnat k + 1) * (1 - gamma))
                 == 1 + Qnat k * (1 - gamma) - (Qnat k + 1) * ((1 - gamma) * (1 - gamma)))
      by ring.
    rewrite E2. lra.
Qed.

End Contraction.

Section Termination.

Variables (n_states n_actions : nat) (transition_matrix : tensor) (gamma : Q).
Variables (policy : mat) (P0 : vec) (threshold : Q).
Hypothesis HT : tensor_shape n_states n_actions n_states transition_matrix.
Hypothesis Hpolicy : mat_shape n_states n_actions policy.
Hypothesis HP0 : length P0 = n_states.
Hypothesis Hn : (0 < n_states)%nat.

Local Abbreviation iter := (iterate n_states n_actions transition_matrix gamma policy P0).
Local Abbreviation conv :=
  (converged_at n_states n_actions transition_matrix gamma policy P0 threshold).
Local Abbreviation nconv :=
  (not_converged_at n_states n_actions transition_matrix gamma policy P0 threshold).

Lemma iterates_max_abs_diff (k : nat) :
  exists m, is_max_abs_diff n_states m (iter k) (iter (S k)).
Proof.
  destruct (max_abs_diff_spec n_states (iter k) (iter (S k)) Hn) as (m & _ & Hm).
  - apply iterate_length.
  - apply iterate_length.
  - exists m. exact Hm.
Qed.

Lemma converged_or_not (k : nat) : conv k \/ nconv k.
Proof.
  destruct (iterates_max_abs_diff k) as (m & Hm).
  destruct (Qlt_le_dec threshold m) as [Hlt|Hle].
  - right. exists m. split; assumption.
  - left. exists m. split; assumption.
Qed.

Lemma converged_not_both (k : nat) : conv k -> nconv k -> False.
Proof.
  intros (m & Hm & Hle) (m' & Hm' & Hlt).
  rewrite (is_max_abs_diff_unique _ _ _ _ _ Hm Hm') in Hle.
  apply (Qlt_not_le _ _ Hlt). exact Hle.
Qed.

Lemma least_converged (N : nat) :
  (exists k, (k < N)%nat /\ conv k /\ forall j, (j < k)%nat -> nconv j)
  \/ (forall j, (j < N)%nat -> nconv j).
Proof.
  induction N as [|N IH].
  - right. intros j Hj. lia.
  - destruct IH as [(k & Hk & Hc & Hn')|Hall].
    + left. exists k. split; [lia|]. split; assumption.
    + destruct (converged_or_not N) as [Hc|Hnc].
      * left. exists N. split; [lia|]. split; assumption.
      * right. intros j Hj. destruct (Nat.eq_dec j N) as [->|Hne]; [exact Hnc|].
        apply Hall. lia.
Qed.

(** The loop without a cap returns as soon as some pair of successive
    iterates is within the threshold. *)
Lemma occupancy_measure_returns_by (k : nat) :
  conv k ->
  exists k' d, (k' <= k)%nat /\ veq d (iter (S k')) /\
    forall fuel, (k' < fuel)%nat ->
      occupancy_measure n_states n_actions transition_matrix gamma fuel policy (Some P0)
        None threshold = Some (Ok d).
Proof.
  intros Hc.
  destruct (least_converged (S k)) as [(k' & Hk' & Hc' & Hn')|Hall].
  2:{ exfalso. apply (converged_not_both k Hc). apply Hall. lia. }
  destruct (while_loop_uncapped_complete n_states n_actions transition_matrix gamma policy
              P0 HT Hpolicy HP0 Hn threshold (S k') 0 k' (zeros (length P0)) 0%Z None)
    as (d & Hd & Hv); try lia; try assumption.
  - rewrite HP0. apply repeat_length.
  - rewrite HP0. apply veq_refl.
  - reflexivity.
  - intros j Hj. apply Hn'. lia.
  - exists k', d. split; [lia|]. split; [exact Hv|].
    intros fuel Hf. unfold occupancy_measure.
    apply (while_loop_fuel_mono _ _ _ _ _ _ _ _ (S k')); [lia | exact Hd].
Qed.

End Termination.

Lemma Qnat_nonneg (k : nat) : 0 <= Qnat k.
Proof. unfold Qnat. change 0 with (inject_Z 0). rewrite <- Zle_Qle. lia. Qed.

(** Every non-negative rational is below a natural number that exceeds it by
    less than one. *)
Lemma Qnat_above (q : Q) : 0 <= q -> exists k : nat, q <= Qnat k /\ Qnat k <= q + 1.
Proof.
  intros Hq. exists (Z.to_nat (Qceiling q)).
  assert (Hc : (0 <= Qceiling q)%Z).
  { rewrite Zle_Qle. eapply Qle_trans; [exact Hq | apply Qle_ceiling]. }
  unfold Qnat. rewrite Z2Nat.id by exact Hc. split; [apply Qle_ceiling|].
  pose proof (Qceiling_lt q) as Hlt.
  unfold Zminus in Hlt. rewrite inject_Z_plus in Hlt.
  assert (E : inject_Z (- (1)) == -1) by reflexivity. rewrite E in Hlt. lra.
Qed.

(** X10.  For a discount [0 <= gamma < 1], a positive threshold, a transition
    tensor and a policy with non-negative entries and rows that sum to one,
    and any [P0] of matching length, [occupancy_measure] without a cap
    returns: there is a [k], at most [sum(abs(P0)) / (threshold * (1 - gamma))
    + 1], such that every run of more than [k] passes of the loop body
    returns the iterate [k + 1] of the recursion. *)
Theorem occupancy_measure_terminates (n_states n_actions : nat) (T : tensor)
    (gamma : Q) (policy : mat) (P0 : vec) (threshold : Q) :
  0 <= gamma -> gamma < 1 -> 0 < threshold ->
  stochastic_tensor n_states n_actions T = true -> nonneg_tensor T = true ->
  stochastic_policy n_states n_actions policy = true -> nonneg_mat policy = true ->
  vec_shapeb n_states P0 = true -> (0 < n_states)%nat ->
  exists (k : nat) (d : vec),
    Qnat k <= l1_norm P0 / (threshold * (1 - gamma)) + 1
    /\ veq d (iterate n_states n_actions T gamma policy P0 (S k))
    /\ forall fuel, (k < fuel)%nat ->
         occupancy_measure n_states n_actions T gamma fuel policy (Some P0) None threshold
         = Some (Ok d).
Proof.
  intros Hg0 Hg1 Hth HT HTpos Hpol Hpolpos HP0 Hn.
  apply vec_shapeb_spec in HP0. unfold vec_shape in HP0.
  pose proof (stochastic_tensor_shape _ _ _ HT) as HTsh.
  pose proof (stochastic_policy_shape _ _ _ Hpol) as Hpolsh.
  set (eps := 1 - gamma). assert (Heps : 0 < eps) by (unfold eps; lra).
  assert (Hte : 0 < threshold * eps) by (apply Qmult_lt_0_compat; assumption).
  assert (Hl1 : 0 <= l1_norm P0).
  { rewrite l1_norm_Qsum. apply Qsum_nonneg. intros j _. apply Qabs_nonneg. }
  assert (Hq : 0 <= l1_norm P0 / (threshold * eps)).
  { apply Qle_shift_div_l; [exact Hte|]. lra. }
  destruct (Qnat_above _ Hq) as (k & Hk1 & Hk2).
  pose proof (gap_bound n_states n_actions T gamma policy P0 HT HTpos Hpol Hpolpos HP0
                Hn Hg0 Hg1 k) as Hgap.
  fold eps in Hgap.
  set (g := Qsum n_states (fun j =>
              Qabs (Vat (iterate n_states n_actions T gamma policy P0 (S k)) j
                    - Vat (iterate n_states n_actions T gamma policy P0 k) j))) in *.
  assert (Hg : g <= threshold).
  { assert (Hpos : 0 < 1 + Qnat k * eps).
    { pose proof (Qnat_nonneg k).
      assert (0 <= Qnat k * eps) by (apply Qmult_le_0_compat; lra). lra. }
    apply (Qmult_lt_0_le_reg_r _ _ _ Hpos).
    eapply Qle_trans; [exact Hgap|].
    assert (Hl : l1_norm P0 <= Qnat k * (threshold * eps)).
    { destruct (Qmult_le_r (l1_norm P0 / (threshold * eps)) (Qnat k) _ Hte) as [_ Hm].
      pose proof (Hm Hk1) as Hk3.
      assert (E : l1_norm P0 / (threshold * eps) * (threshold * eps) == l1_norm P0).
      { field. unfold eps in *. repeat split; lra. }
      rewrite E in Hk3. exact Hk3. }
    assert (E' : threshold * (1 + Qnat k * eps)
                 == threshold + Qnat k * (threshold * eps)) by ring.
    rewrite E'. lra. }
  assert (Hconv : converged_at n_states n_actions T gamma policy P0 threshold k).
  { destruct (iterates_max_abs_diff n_states n_actions T gamma policy P0 Hn k) as (m & Hm).
    exists m. split; [exact Hm|].
    destruct Hm as [_ (s & Hs & Em)]. rewrite <- Em.
    eapply Qle_trans; [|exact Hg].
    rewrite Qabs_Qminus.
    apply (Qsum_term_le n_states (fun j =>
             Qabs (Vat (iterate n_states n_actions T gamma policy P0 (S k)) j
                   - Vat (iterate n_states n_actions T gamma policy P0 k) j)));
      [|exact Hs].
    intros i _. apply Qabs_nonneg. }
  destruct (occupancy_measure_returns_by n_states n_actions T gamma policy P0 threshold
              HTsh Hpolsh HP0 Hn k Hconv) as (k' & d & Hk' & Hv & Hrun).
  exists k', d. split; [|split; [exact Hv | exact Hrun]].
  eapply Qle_trans; [|exact Hk2].
  unfold Qnat. rewrite <- Zle_Qle. lia.
Qed.

Lemma occupancy_measure_terminates_witness :
  exists (k : nat) (d : vec),
    Qnat k <= l1_norm chain_P0 / ((1 # 4) * (1 - chain_gamma)) + 1
    /\ veq d (iterate 2 1 chain_T chain_gamma chain_policy chain_P0 (S k))
    /\ forall fuel, (k < fuel)%nat ->
         occupancy_measure 2 1 chain_T chain_gamma fuel chain_policy (Some chain_P0) None
           (1 # 4) = Some (Ok d).
Proof.
  apply (occupancy_measure_terminates 2 1 chain_T chain_gamma chain_policy chain_P0 (1 # 4)).
  - unfold chain_gamma. lra.
  - unfold chain_gamma. lra.
  - lra.
  - reflexivity.
  - reflexivity.
  - reflexivity.
  - reflexivity.
  - reflexivity.
  - lia.
Defined.

(** ** A cap of one pass or more *)

Section Capped.

Variables (n_states n_actions : nat) (transition_matrix : tensor) (gamma : Q).
Variables (policy : mat) (P0 : vec) (threshold : Q).
Hypothesis HT : tensor_shape n_states n_actions n_states transition_matrix.
Hypothesis Hpolicy : mat_shape n_states n_actions policy.
Hypothesis HP0 : length P0 = n_states.
Hypothesis Hn : (0 < n_states)%nat.

Local Abbreviation iter := (iterate n_states n_actions transition_matrix gamma policy P0).
Local Abbreviation loop := (while_loop n_states n_actions transition_matrix gamma).
Local Abbreviation conv :=
  (converged_at n_states n_actions transition_matrix gamma policy P0 threshold).

Lemma while_loop_capped (tm : Z) (r : nat) :
  forall (fuel k : nat) (d_prev : vec) (t : Z) (diff : option Q),
  (tm - t = Z.of_nat r)%Z -> (1 <= r)%nat -> (r <= fuel)%nat ->
  length d_prev = n_states -> veq d_prev (iter k) ->
  (exceeds diff threshold = false -> (1 <= k)%nat /\ conv (pred k)) ->
  exists d j,
    loop fuel policy P0 (Some tm) threshold d_prev t diff = Some (Ok d)
    /\ (k <= j <= k + r)%nat /\ veq d (iter j)
    /\ ((j < k + r)%nat -> (1 <= j)%nat /\ conv (pred j)).
Proof.
  induction r as [|r IH]; intros fuel k d_prev t diff Ht Hr Hf Hl Hv Hdiff; [lia|].
  destruct fuel as [|fuel]; [lia|]. simpl.
  destruct (exceeds diff threshold) eqn:Ex.
  - destruct (body_spec n_states n_actions transition_matrix gamma policy P0 HT Hpolicy
                HP0 Hn d_prev k Hl Hv) as (d1 & m & Hs & Hl1 & Hv1 & Hm & Hmax).
    rewrite Hs, Hm.
    destruct (Z.eqb_spec (t + 1) tm) as [E|E].
    + exists d1, (S k). split; [reflexivity|]. split; [lia|]. split; [exact Hv1|]. lia.
    + destruct (IH fuel (S k) d1 (t + 1)%Z (Some m)) as (d & j & Hrun & Hj & Hvd & Hc);
        try lia; try assumption.
      * intros Em. split; [lia|]. simpl. exists m. split; [exact Hmax|].
        apply exceeds_Some. exact Em.
      * exists d, j. split; [exact Hrun|]. split; [lia|]. split; [exact Hvd|].
        intros Hlt. apply Hc. lia.
  - exists d_prev, k. split; [reflexivity|]. split; [lia|]. split; [exact Hv|].
    intros _. apply Hdiff. reflexivity.
Qed.

End Capped.

(** X11.  With a cap [t_max >= 1], arrays of matching shapes and at least one
    state, [occupancy_measure] returns after at most [t_max] passes of the
    loop body: its result is the iterate [j] of the recursion for some
    [1 <= j <= t_max], and [j < t_max] only when the iterates [j - 1] and [j]
    are within the threshold of each other. *)
Theorem occupancy_measure_capped (n_states n_actions : nat) (T : tensor)
    (gamma : Q) (policy : mat) (P0 : vec) (threshold : Q) (t_max fuel : nat) :
  tensor_shapeb n_states n_actions n_states T = true ->
  mat_shapeb n_states n_actions policy = true ->
  vec_shapeb n_states P0 = true ->
  (0 < n_states)%nat -> (1 <= t_max)%nat -> (t_max <= fuel)%nat ->
  exists (d : vec) (j : nat),
    occupancy_measure n_states n_actions T gamma fuel policy (Some P0)
      (Some (Z.of_nat t_max)) threshold = Some (Ok d)
    /\ (1 <= j <= t_max)%nat
    /\ veq d (iterate n_states n_actions T gamma policy P0 j)
    /\ ((j < t_max)%nat ->
        converged_at n_states n_actions T gamma policy P0 threshold (pred j)).
Proof.
  intros HT Hpol HP0 Hn Ht Hf.
  apply tensor_shapeb_spec in HT. apply mat_shapeb_spec in Hpol.
  apply vec_shapeb_spec in HP0. unfold vec_shape in HP0.
  destruct (while_loop_capped n_states n_actions T gamma policy P0 threshold HT Hpol HP0 Hn
              (Z.of_nat t_max) t_max fuel 0 (zeros (length P0)) 0%Z None)
    as (d & j & Hrun & Hj & Hv & Hc); try lia.
  - rewrite HP0. apply repeat_length.
  - rewrite HP0. apply veq_refl.
  - discriminate.
  - exists d, j. split; [exact Hrun|].
    destruct (Nat.eq_dec j t_max) as [->|Hne].
    + split; [lia|]. split; [exact Hv|]. lia.
    + destruct Hc as [Hj1 Hc]; [lia|]. split; [lia|]. split; [exact Hv|].
      intros _. exact Hc.
Qed.

Lemma occupancy_measure_capped_witness :
  exists (d : vec) (j : nat),
    occupancy_measure 2 1 chain_T chain_gamma 2 chain_policy (Some chain_P0)
      (Some (Z.of_nat 2)) (1 # 4) = Some (Ok d)
    /\ (1 <= j <= 2)%nat
    /\ veq d (iterate 2 1 chain_T chain_gamma chain_policy chain_P0 j)
    /\ ((j < 2)%nat ->
        converged_at 2 1 chain_T chain_gamma chain_policy chain_P0 (1 # 4) (pred j)).
Proof.
  apply (occupancy_measure_capped 2 1 chain_T chain_gamma chain_policy chain_P0 (1 # 4) 2 2);
    try reflexivity; lia.
Defined.

(** ** A negative threshold *)

Section NegativeThreshold.

Variables (n_states n_actions : nat) (transition_matrix : tensor) (gamma : Q).
Variables (policy : mat) (P0 : vec) (threshold : Q).
Hypothesis HT : tensor_shape n_states n_actions n_states transition_matrix.
Hypothesis Hpolicy : mat_shape n_states n_actions policy.
Hypothesis HP0 : length P0 = n_states.
Hypothesis Hn : (0 < n_states)%nat.
Hypothesis Hneg : threshold < 0.

Lemma while_loop_never_exits (fuel : nat) :
  forall (d_prev : vec) (t : Z) (diff : option Q),
  length d_prev = n_states -> exceeds diff threshold = true ->
  while_loop n_states n_actions transition_matrix gamma fuel policy P0 None threshold
    d_prev t diff = None.
Proof.
  induction fuel as [|fuel IH]; intros d_prev t diff Hl Hex; simpl; rewrite Hex;
    [reflexivity|].
  destruct (sweep_spec n_states n_actions transition_matrix gamma policy P0 HT Hpolicy
              d_prev Hl HP0) as (d & Hd & Hld & _).
  rewrite Hd.
  destruct (max_abs_diff_spec n_states d_prev d Hn Hl Hld) as (m & Hm & _ & (s & _ & Es)).
  rewrite Hm. apply IH; [exact Hld|].
  apply exceeds_Some_true. rewrite <- Es.
  eapply Qlt_le_trans; [exact Hneg | apply Qabs_nonneg].
Qed.

End NegativeThreshold.

(** X12.  With a negative threshold and no cap the loop of [occupancy_measure]
    never exits: on arrays of matching shapes no number of passes of the loop
    body produces a result. *)
Theorem occupancy_measure_negative_threshold (n_states n_actions : nat) (T : tensor)
    (gamma : Q) (policy : mat) (P0 : vec) (threshold : Q) (fuel : nat) :
  tensor_shapeb n_states n_actions n_states T = true ->
  mat_shapeb n_states n_actions policy = true ->
  vec_shapeb n_states P0 = true ->
  (0 < n_states)%nat -> threshold < 0 ->
  occupancy_measure n_states n_actions T gamma fuel policy (Some P0) None threshold = None.
Proof.
  intros HT Hpol HP0 Hn Hneg.
  apply tensor_shapeb_spec in HT. apply mat_shapeb_spec in Hpol.
  apply vec_shapeb_spec in HP0. unfold vec_shape in HP0.
  unfold occupancy_measure.
  apply (while_loop_never_exits n_states n_actions T gamma policy P0 threshold HT Hpol HP0
           Hn Hneg).
  - rewrite HP0. apply repeat_length.
  - reflexivity.
Qed.

Lemma occupancy_measure_negative_threshold_witness :
  occupancy_measure 2 1 chain_T chain_gamma 5 chain_policy (Some chain_P0) None (-1 # 4)
  = None.
Proof.
  apply (occupancy_measure_negative_threshold 2 1 chain_T chain_gamma chain_policy chain_P0
           (-1 # 4) 5); try reflexivity; lia.
Defined.

(** ** Bounds from below *)

Section LowerBound.

Variables (n_states n_actions : nat) (transition_matrix : tensor) (gamma : Q).
Variables (policy : mat) (P0 : vec).
Hypothesis HT : tensor_shape n_states n_actions n_states transition_matrix.
Hypothesis HTpos : nonneg_tensor transition_matrix = true.
Hypothesis Hpolicy : mat_shape n_states n_actions policy.
Hypothesis Hpolicypos : nonneg_mat policy = true.
Hypothesis HP0 : length P0 = n_states.
Hypothesis Hgamma0 : 0 <= gamma.

(** [d] has its length and no negative entry. *)
Local Abbreviation nonneg := (fun d : vec =>
  length d = n_states /\ forall j, (j < n_states)%nat -> 0 <= Vat d j).
(** [d] is at least [P0], entry by entry. *)
Local Abbreviation above := (fun d : vec =>
  length d = n_states /\ forall j, (j < n_states)%nat -> Vat P0 j <= Vat d j).

Lemma sweep_above (d_prev d : vec) :
  nonneg d_prev ->
  sweep n_states n_actions transition_matrix gamma policy P0 d_prev = Ok d ->
  above d.
Proof.
  intros [Hl Hpos] Hs.
  destruct (sweep_spec n_states n_actions transition_matrix gamma policy P0 HT Hpolicy
              d_prev Hl HP0) as (d' & Hd' & Hld & Hv).
  rewrite Hs in Hd'. injection Hd' as <-. split; [exact Hld|].
  intros j Hj. rewrite (veq_Vat _ _ j Hv). unfold recursion_step.
  rewrite Vat_map_seq by exact Hj.
  assert (0 <= gamma * Qsum n_states (fun s => Qsum n_actions (fun a =>
                     Vat d_prev s * Mat policy s a * Tat transition_matrix s a j))).
  { apply Qmult_le_0_compat; [exact Hgamma0|].
    apply Qsum_nonneg. intros s Hs'. apply Qsum_nonneg. intros a Ha.
    apply Qmult_le_0_compat; [apply Qmult_le_0_compat|].
    - apply Hpos. exact Hs'.
    - apply Mat_nonneg. exact Hpolicypos.
    - apply Tat_nonneg. exact HTpos. }
  lra.
Qed.

End LowerBound.

(** X13.  When the discount, the transition tensor, the policy and [P0] have
    no negative entry, every array [occupancy_measure] returns has the length
    of [P0] and is at least [P0], entry by entry; in particular it has no
    negative entry. *)
Theorem occupancy_measure_above_P0 (n_states n_actions : nat) (T : tensor)
    (gamma : Q) (policy : mat) (P0 : vec) (fuel : nat) (t_max : option Z)
    (threshold : Q) (d : vec) :
  0 <= gamma ->
  tensor_shapeb n_states n_actions n_states T = true -> nonneg_tensor T = true ->
  mat_shapeb n_states n_actions policy = true -> nonneg_mat policy = true ->
  vec_shapeb n_states P0 = true -> nonneg_vec P0 = true ->
  occupancy_measure n_states n_actions T gamma fuel policy (Some P0) t_max threshold
  = Some (Ok d) ->
  length d = n_states
  /\ forall j, (j < n_states)%nat -> 0 <= Vat P0 j /\ Vat P0 j <= Vat d j.
Proof.
  intros Hg HT HTpos Hpol Hpolpos HP0 HP0pos Hrun.
  apply tensor_shapeb_spec in HT. apply mat_shapeb_spec in Hpol.
  apply vec_shapeb_spec in HP0. unfold vec_shape in HP0.
  assert (Hkeep : forall d_prev d',
            (length d_prev = n_states
             /\ forall j, (j < n_states)%nat -> Vat P0 j <= Vat d_prev j) ->
            sweep n_states n_actions T gamma policy P0 d_prev = Ok d' ->
            length d' = n_states
            /\ forall j, (j < n_states)%nat -> Vat P0 j <= Vat d' j).
  { intros d_prev d' [Hl Hab] Hs.
    apply (sweep_above n_states n_actions T gamma policy P0 HT HTpos Hpol Hpolpos HP0 Hg
             d_prev d'); [|exact Hs].
    split; [exact Hl|]. intros j Hj.
    eapply Qle_trans; [apply (Vat_nonneg P0 j HP0pos) | apply Hab; exact Hj]. }
  assert (Hgoal : length d = n_states
                  /\ forall j, (j < n_states)%nat -> Vat P0 j <= Vat d j).
  { unfold occupancy_measure in Hrun. destruct fuel as [|fuel]; [discriminate|].
    simpl in Hrun.
    destruct (sweep n_states n_actions T gamma policy P0 (zeros (length P0)))
      as [d1|e] eqn:Hs; [|discriminate].
    assert (H1 : length d1 = n_states
                 /\ forall j, (j < n_states)%nat -> Vat P0 j <= Vat d1 j).
    { apply (sweep_above n_states n_actions T gamma policy P0 HT HTpos Hpol Hpolpos HP0 Hg
               (zeros (length P0)) d1); [|exact Hs].
      split; [rewrite HP0; apply repeat_length|].
      intros j _. unfold Vat. rewrite nth_zeros. apply Qle_refl. }
    destruct (max_abs_diff (zeros (length P0)) d1) as [m|e]; [|discriminate].
    destruct t_max as [tm|].
    - match type of Hrun with context [if ?c then _ else _] => destruct c end.
      + injection Hrun as <-. exact H1.
      + exact (while_loop_keeps _ _ _ _ _ _ _ _ _ Hkeep _ _ _ _ _ H1 Hrun).
    - exact (while_loop_keeps _ _ _ _ _ _ _ _ _ Hkeep _ _ _ _ _ H1 Hrun). }
  destruct Hgoal as [Hl Hab]. split; [exact Hl|].
  intros j Hj. split; [apply Vat_nonneg; exact HP0pos | apply Hab; exact Hj].
Qed.

Lemma occupancy_measure_above_P0_witness :
  length [16384 # 16384; 12288 # 16384] = 2%nat
  /\ forall j, (j < 2)%nat ->
       0 <= Vat chain_P0 j /\ Vat chain_P0 j <= Vat [16384 # 16384; 12288 # 16384] j.
Proof.
  apply (occupancy_measure_above_P0 2 1 chain_T chain_gamma chain_policy chain_P0 3
           None (1 # 4) [16384 # 16384; 12288 # 16384]); try reflexivity.
  unfold chain_gamma. lra.
Defined.

(** ** No discounting of the future: [gamma = 0] *)

Section GammaZero.

Variables (n_states n_actions : nat) (transition_matrix : tensor) (gamma : Q).
Variables (policy : mat) (P0 : vec) (threshold : Q).
Hypothesis HT : tensor_shape n_states n_actions n_states transition_matrix.
Hypothesis Hpolicy : mat_shape n_states n_actions policy.
Hypothesis HP0 : length P0 = n_states.
Hypothesis Hn : (0 < n_states)%nat.
Hypothesis Hgamma : gamma == 0.
Hypothesis Hthreshold : 0 <= threshold.

Lemma sweep_gamma_zero (d_prev : vec) :
  length d_prev = n_states ->
  exists d, sweep n_states n_actions transition_matrix gamma policy P0 d_prev = Ok d
            /\ length d = n_states /\ veq d P0.
Proof.
  intros Hl.
  destruct (sweep_spec n_states n_actions transition_matrix gamma policy P0 HT Hpolicy
              d_prev Hl HP0) as (d & Hd & Hld & Hv).
  exists d. split; [exact Hd|]. split; [exact Hld|].
  apply (veq_intro n_states); [exact Hld | exact HP0 |].
  intros j Hj. rewrite (veq_Vat _ _ j Hv). unfold recursion_step.
  rewrite Vat_map_seq by exact Hj. rewrite Hgamma. ring.
Qed.

Lemma max_abs_diff_equal (u v : vec) :
  length u = n_states -> length v = n_states -> veq u P0 -> veq v P0 ->
  exists m, max_abs_diff u v = Ok m /\ exceeds (Some m) threshold = false.
Proof.
  intros Hu Hv Eu Ev.
  destruct (max_abs_diff_spec n_states u v Hn Hu Hv) as (m & Hm & _ & (s & _ & Es)).
  exists m. split; [exact Hm|]. apply exceeds_Some. rewrite <- Es.
  rewrite (veq_Vat _ _ s Eu), (veq_Vat _ _ s Ev).
  assert (E : Vat P0 s - Vat P0 s == 0) by ring.
  rewrite (Qabs_wd _ _ E). exact Hthreshold.
Qed.

Lemma occupancy_measure_gamma_zero_run (fuel : nat) (t_max : option Z) :
  (2 <= fuel)%nat ->
  exists d,
    occupancy_measure n_states n_actions transition_matrix gamma fuel policy (Some P0)
      t_max threshold = Some (Ok d)
    /\ veq d P0.
Proof.
  intros Hf. destruct fuel as [|[|fuel]]; try lia.
  unfold occupancy_measure.
  assert (Hz : length (zeros (length P0)) = n_states) by (rewrite HP0; apply repeat_length).
  destruct (sweep_gamma_zero _ Hz) as (d1 & Hs1 & Hl1 & Hv1).
  destruct (max_abs_diff_spec n_states _ d1 Hn Hz Hl1) as (m1 & Hm1 & _).
  destruct (sweep_gamma_zero _ Hl1) as (d2 & Hs2 & Hl2 & Hv2).
  destruct (max_abs_diff_equal d1 d2 Hl1 Hl2 Hv1 Hv2) as (m2 & Hm2 & Ex2).
  cbn [while_loop exceeds]. rewrite Hs1, Hm1.
  assert (Hnext : forall t,
            exists d,
              while_loop n_states n_actions transition_matrix gamma (S fuel) policy P0
                t_max threshold d1 t (Some m1) = Some (Ok d)
              /\ veq d P0).
  { intros t. cbn [while_loop].
    destruct (exceeds (Some m1) threshold); [|exists d1; split; [reflexivity | exact Hv1]].
    rewrite Hs2, Hm2.
    destruct t_max as [tm|].
    - destruct (t + 1 =? tm)%Z; [exists d2; split; [reflexivity | exact Hv2]|].
      rewrite (while_loop_done _ _ _ _ _ _ _ _ _ _ _ _ Ex2).
      exists d2. split; [reflexivity | exact Hv2].
    - rewrite (while_loop_done _ _ _ _ _ _ _ _ _ _ _ _ Ex2).
      exists d2. split; [reflexivity | exact Hv2]. }
  destruct t_max as [tm|].
  - destruct (0 + 1 =? tm)%Z; [exists d1; split; [reflexivity | exact Hv1]|].
    apply Hnext.
  - apply Hnext.
Qed.

End GammaZero.

(** X14.  With [gamma = 0] and a threshold that is not negative,
    [occupancy_measure] returns [P0], after at most two passes of the loop
    body, whatever the cap. *)
Theorem occupancy_measure_gamma_zero (n_states n_actions : nat) (T : tensor)
    (gamma : Q) (policy : mat) (P0 : vec) (threshold : Q) (t_max : option Z)
    (fuel : nat) :
  gamma == 0 -> 0 <= threshold ->
  tensor_shapeb n_states n_actions n_states T = true ->
  mat_shapeb n_states n_actions policy = true ->
  vec_shapeb n_states P0 = true ->
  (0 < n_states)%nat -> (2 <= fuel)%nat ->
  exists d,
    occupancy_measure n_states n_actions T gamma fuel policy (Some P0) t_max threshold
    = Some (Ok d)
    /\ veq d P0.
Proof.
  intros Hg Hth HT Hpol HP0 Hn Hf.
  apply tensor_shapeb_spec in HT. apply mat_shapeb_spec in Hpol.
  apply vec_shapeb_spec in HP0. unfold vec_shape in HP0.
  apply occupancy_measure_gamma_zero_run; assumption.
Qed.

Lemma occupancy_measure_gamma_zero_witness :
  exists d,
    occupancy_measure 2 1 chain_T 0 2 chain_policy (Some chain_P0) None default_threshold
    = Some (Ok d)
    /\ veq d chain_P0.
Proof.
  apply (occupancy_measure_gamma_zero 2 1 chain_T 0 chain_policy chain_P0
           default_threshold None 2); try reflexivity; try lia.
  unfold default_threshold. lra.
Defined.

(** ** [get_reward_matrix] without a reward wrapper *)

Lemma store_rows_lookup (P : Pdict) :
  forall (l i : nat) (se : nat * list (nat * list outcome)),
  P !! i = Some se -> store_rows P l !! (l + i)%nat = Some (snd se).
Proof.
  induction P as [|[s r] P IH]; intros l i se H; [discriminate|].
  destruct i as [|i]; simpl in *.
  - injection H as <-. rewrite Nat.add_0_r. apply lookup_insert_eq.
  - rewrite lookup_insert_ne by lia.
    replace (l + S i)%nat with (S l + i)%nat by lia. apply IH. exact H.
Qed.

Lemma reads_imap (rws : gmap nat (list (nat * list outcome))) (P : Pdict) :
  forall (l : nat),
  (forall i se, P !! i = Some se -> rws !! (l + i)%nat = Some (snd se)) ->
  Forall2 (fun e se => fst e = fst se /\ rws !! snd e = Some (snd se))
    (imap (fun i se => (fst se, (l + i)%nat)) P) P.
Proof.
  induction P as [|se P IH]; intros l H; simpl; constructor.
  - simpl. split; [reflexivity|]. apply (H 0%nat se). reflexivity.
  - assert (E : imap ((fun i se0 => (se0.1, (l + i)%nat)) ∘ S) P
                = imap (fun i se0 => (se0.1, (S l + i)%nat)) P).
    { apply imap_ext. intros i x _. simpl. f_equal. lia. }
    rewrite E. apply IH. intros i se' Hi.
    replace (S l + i)%nat with (l + S i)%nat by lia. apply (H (S i) se'). exact Hi.
Qed.

Lemma NoDup_imap_offsets {A : Type} (f : A -> nat) (l : list A) :
  forall k, List.NoDup (map snd (imap (fun i x => (f x, (k + i)%nat)) l))
            /\ forall j, In j (map snd (imap (fun i x => (f x, (k + i)%nat)) l)) ->
                 (k <= j)%nat.
Proof.
  induction l as [|x l IH]; intros k; simpl.
  - split; [constructor | intros j []].
  - assert (E : imap ((fun i x0 => (f x0, (k + i)%nat)) ∘ S) l
                = imap (fun i x0 => (f x0, (S k + i)%nat)) l).
    { apply imap_ext. intros i y _. simpl. f_equal. lia. }
    rewrite E. destruct (IH (S k)) as [Hnd Hge]. split.
    + constructor; [|exact Hnd]. intros Hin. specialize (Hge _ Hin). lia.
    + intros j [<-|Hin]; [lia|]. specialize (Hge _ Hin). lia.
Qed.

Lemma store_of_holds (P : Pdict) : holds (store_of P) P.
Proof.
  unfold holds, store_of. simpl.
  exists (imap (fun i se => (fst se, i)) P). split; [apply lookup_insert_eq|].
  split.
  - unfold reads. simpl.
    apply (reads_imap (store_rows P 0) P 0%nat). intros i se H.
    apply store_rows_lookup. exact H.
  - apply (NoDup_imap_offsets (fun se : nat * list (nat * list outcome) => fst se) P 0%nat).
Qed.

Lemma holds_read_P (st : store) (P : Pdict) : holds st P -> read_P st (env_P st) = P.
Proof. intros (items & Hd & Hr & _). apply (reads_read_P st _ items); assumption. Qed.

Lemma attached_none (env : Env) :
  is_unwrappable_to env RewardWrapperC = false -> attached env = Ok None.
Proof. intros H. unfold attached. rewrite H. reflexivity. Qed.

Lemma rewire_entry_idempotent (n s : nat) (e : nat * list outcome) :
  rewire_entry n s (rewire_entry n s e) = rewire_entry n s e.
Proof.
  unfold rewire_entry. destruct e as [a outs]. simpl.
  destruct outs as [|o [|o' outs]]; try reflexivity.
  destruct ((next_state o =? s)%nat && done o) eqn:E; simpl.
  - destruct (n - 1 =? s)%nat; reflexivity.
  - rewrite E. reflexivity.
Qed.

Lemma rewire_P_idempotent (n : nat) (P : Pdict) :
  rewire_P n (rewire_P n P) = rewire_P n P.
Proof.
  unfold rewire_P. rewrite map_map. apply map_ext. intros [s r]. simpl.
  f_equal. rewrite map_map. apply map_ext. intros e. apply rewire_entry_idempotent.
Qed.

(** The store after lines 111-129 when [env.P] holds [P]. *)
Lemma plain_store_spec (st : store) (P : Pdict) (w : bool) (n_states : nat) :
  holds st P ->
  let res := copy_and_rewire w n_states st in
  let P' := if w then rewire_P n_states P else P in
  read_P (snd res) (fst res) = P'
  /\ env_P (snd res) = env_P st
  /\ holds (snd res) P'.
Proof.
  intros (items & Hd & Hr & Hnd). unfold copy_and_rewire, alloc_dict, items_of.
  rewrite Hd. simpl.
  set (cp := fresh (dom (dicts st))).
  assert (Hcp : dicts st !! cp = None) by (apply not_elem_of_dom; apply is_fresh).
  assert (Hne : cp <> env_P st) by (intros E; rewrite E in Hcp; congruence).
  set (stc := mkStore (env_P st) (<[cp := items]> (dicts st)) (rows st)).
  assert (Hrc : reads stc items P) by exact Hr.
  destruct w; simpl.
  - unfold rewire_terminals, items_of. simpl. rewrite lookup_insert_eq. simpl.
    destruct (rewire_fold_spec n_states items P stc Hrc Hnd) as (HR & Hd2 & He2 & _).
    fold stc. set (st2 := fold_left (rewire_state n_states) items stc) in *.
    split; [|split].
    + apply (reads_read_P st2 cp items); [|exact HR]. rewrite Hd2. simpl.
      apply lookup_insert_eq.
    + rewrite He2. reflexivity.
    + exists items. rewrite He2, Hd2. simpl.
      rewrite lookup_insert_ne by exact Hne. repeat split; assumption.
  - fold stc. split; [|split].
    + apply (reads_read_P stc cp items); [|exact Hrc]. simpl. apply lookup_insert_eq.
    + reflexivity.
    + exists items. simpl. rewrite lookup_insert_ne by exact Hne.
      repeat split; assumption.
Qed.

Section PlainEnvironment.

Variable is_unwrappable_to_subclass_of : Env -> class -> result bool.
Variable unwrap_to_subclass_of : Env -> class -> result Env.

Local Abbreviation run :=
  (get_reward_matrix is_unwrappable_to_subclass_of unwrap_to_subclass_of).

(** Lines 176-189 on the transition structure [P]. *)
Local Abbreviation rewards_of := (fun (w : bool) (n_states n_actions : nat) (P : Pdict) =>
  let! rewards := accumulate_rewards P (zeros2 n_states n_actions) in
  Ok (if w then zero_last_row rewards else rewards)).

Lemma get_reward_matrix_plain_run (env e : Env) (st : store) (P : Pdict) (w : bool) :
  unwrap_env env (Some DiscreteEnvC) = Ok e ->
  is_unwrappable_to env RewardWrapperC = false ->
  holds st P ->
  let n_states := if w then S (observation_space_n env) else observation_space_n env in
  let P' := if w then rewire_P n_states P else P in
  exists st',
    run env w st = (rewards_of w n_states (action_space_n env) P', st', [])
    /\ env_P st' = env_P st /\ holds st' P'.
Proof.
  intros He Hplain Hst n_states P'.
  destruct (plain_store_spec st P w n_states Hst) as (Hcp & Henv & Hholds).
  unfold get_reward_matrix. rewrite He. unfold first_block.
  rewrite (attached_none env Hplain). fold n_states.
  cbv beta iota zeta.
  remember (copy_and_rewire w n_states st) as res eqn:Eres. clear Eres.
  exists (snd res). split; [|split; assumption].
  rewrite Hcp. unfold last_block. rewrite (attached_none env Hplain). reflexivity.
Qed.

End PlainEnvironment.

Lemma accumulate_rewards_Raise (P : Pdict) (b : mat) (e : exn) :
  accumulate_rewards P b = Raise e -> e = IndexError.
Proof.
  unfold accumulate_rewards. intros H.
  apply for_each_Raise in H. destruct H as (se & b1 & _ & H).
  apply for_each_Raise in H. destruct H as (ae & b2 & _ & H).
  apply for_each_Raise in H. destruct H as (o & b3 & _ & H).
  eapply mat_add_at_Raise. exact H.
Qed.

(** X15.  On an environment without a reward wrapper whose [env.P] holds the
    transition structure [P], [get_reward_matrix] calls no reward function,
    returns what it returns when the two undefined helpers are unbound, and
    leaves [env.P] the same dict object; with the absorbing state that dict
    then reads [P] with its terminal self-loops rewired to the absorbing
    state (the rewiring of lines 123-129 goes through the shallow copy into
    the per-state dicts of [env.P]), without it the dict still reads [P]. *)
Theorem get_reward_matrix_plain_store
    (is_unwrappable_to_subclass_of : Env -> class -> result bool)
    (unwrap_to_subclass_of : Env -> class -> result Env)
    (env e : Env) (st : store) (P : Pdict) (with_absorbing_state : bool) :
  unwrap_env env (Some DiscreteEnvC) = Ok e ->
  is_unwrappable_to env RewardWrapperC = false ->
  holds st P ->
  let out := get_reward_matrix is_unwrappable_to_subclass_of unwrap_to_subclass_of env
               with_absorbing_state st in
  let st' := snd (fst out) in
  snd out = []
  /\ env_P st' = env_P st
  /\ read_P st' (env_P st')
     = (if with_absorbing_state then rewire_P (S (observation_space_n env)) P else P)
  /\ fst (fst out)
     = fst (fst (get_reward_matrix unbound_test unbound_unwrap env with_absorbing_state st)).
Proof.
  intros He Hplain Hst.
  destruct (get_reward_matrix_plain_run is_unwrappable_to_subclass_of unwrap_to_subclass_of
              env e st P with_absorbing_state He Hplain Hst) as (st' & Hrun & Henv & Hh).
  destruct (get_reward_matrix_plain_run unbound_test unbound_unwrap
              env e st P with_absorbing_state He Hplain Hst) as (st'' & Hrun' & _).
  cbv zeta. rewrite Hrun, Hrun'. cbn [fst snd].
  split; [reflexivity|]. split; [exact Henv|]. split; [|reflexivity].
  rewrite (holds_read_P _ _ Hh). destruct with_absorbing_state; reflexivity.
Qed.

Lemma get_reward_matrix_plain_store_witness :
  read_P (snd (fst (get_reward_matrix subclass_test subclass_unwrap (DiscreteEnv 2 1) true
                      (store_of P_episode))))
    (env_P (snd (fst (get_reward_matrix subclass_test subclass_unwrap (DiscreteEnv 2 1)
                        true (store_of P_episode)))))
  = rewire_P 3 P_episode.
Proof.
  assert (H : holds (store_of P_episode) P_episode).
  { exists [(0, 0); (1, 1)]%nat. split; [vm_compute; reflexivity|].
    split; [repeat constructor|]. repeat constructor; simpl; intuition lia. }
  exact (proj1 (proj2 (proj2
           (get_reward_matrix_plain_store subclass_test subclass_unwrap
              (DiscreteEnv 2 1) (DiscreteEnv 2 1) (store_of P_episode) P_episode true
              eq_refl eq_refl H)))).
Defined.

(** X16.  On an environment without a reward wrapper whose [env.P] holds [P],
    [get_reward_matrix] raises nothing but [IndexError], and the matrix [R]
    it returns has one row per state: [R[s, a]] is the sum of
    [reward * probability] over the outcomes listed for [s] and [a], after
    the rewiring of the terminal self-loops when the absorbing state is
    enabled, and the row of the absorbing state is zero. *)
Theorem get_reward_matrix_plain_values
    (is_unwrappable_to_subclass_of : Env -> class -> result bool)
    (unwrap_to_subclass_of : Env -> class -> result Env)
    (env e : Env) (st : store) (P : Pdict) (with_absorbing_state : bool) :
  unwrap_env env (Some DiscreteEnvC) = Ok e ->
  is_unwrappable_to env RewardWrapperC = false ->
  holds st P ->
  let n_states := if with_absorbing_state then S (observation_space_n env)
                  else observation_space_n env in
  let P' := if with_absorbing_state then rewire_P n_states P else P in
  match fst (fst (get_reward_matrix is_unwrappable_to_subclass_of unwrap_to_subclass_of
                    env with_absorbing_state st)) with
  | Ok R =>
      length R = n_states
      /\ (forall s a,
            Mat R s a
            == if with_absorbing_state && (s =? observation_space_n env)%nat then 0
               else expected_reward (fun _ => false) P' s a)
  | Raise x => x = IndexError
  end.
Proof.
  intros He Hplain Hst n_states P'.
  destruct (get_reward_matrix_plain_run is_unwrappable_to_subclass_of unwrap_to_subclass_of
              env e st P with_absorbing_state He Hplain Hst) as (st' & Hrun & _).
  fold n_states P' in Hrun. rewrite Hrun. cbn [fst snd].
  destruct (accumulate_rewards P' (zeros2 n_states (action_space_n env))) as [R0|x] eqn:Hacc;
    cbn [bind]; [|eapply accumulate_rewards_Raise; exact Hacc].
  pose proof (accumulate_rewards_length _ _ _ Hacc) as Hlen.
  unfold zeros2 in Hlen. rewrite repeat_length in Hlen.
  assert (Hval : forall s a, Mat R0 s a == expected_reward (fun _ => false) P' s a).
  { intros s a. rewrite (accumulate_rewards_Mat s a _ _ _ Hacc), Mat_zeros2. ring. }
  destruct with_absorbing_state; simpl andb.
  - destruct (zero_last_row_spec R0 (observation_space_n env) Hlen) as (HlR & Hzero & Hother).
    split; [exact HlR|]. intros s a.
    destruct (Nat.eqb_spec s (observation_space_n env)) as [->|Hne].
    + rewrite Hzero. reflexivity.
    + rewrite (Hother s a Hne). apply Hval.
  - split; [exact Hlen | exact Hval].
Qed.

Lemma get_reward_matrix_plain_values_witness :
  match fst (fst (get_reward_matrix subclass_test subclass_unwrap (DiscreteEnv 2 1) true
                    (store_of P_episode))) with
  | Ok R =>
      length R = 3%nat
      /\ (forall s a,
            Mat R s a
            == if true && (s =? 2)%nat then 0
               else expected_reward (fun _ => false) (rewire_P 3 P_episode) s a)
  | Raise x => x = IndexError
  end.
Proof.
  assert (H : holds (store_of P_episode) P_episode).
  { exists [(0, 0); (1, 1)]%nat. split; [vm_compute; reflexivity|].
    split; [repeat constructor|]. repeat constructor; simpl; intuition lia. }
  exact (get_reward_matrix_plain_values subclass_test subclass_unwrap
           (DiscreteEnv 2 1) (DiscreteEnv 2 1) (store_of P_episode) P_episode true
           eq_refl eq_refl H).
Defined.

(** X17.  On an environment without a reward wrapper a second call of
    [get_reward_matrix] returns what the first call returned and leaves
    [env.P] as the first call left it. *)
Theorem get_reward_matrix_plain_twice
    (is_unwrappable_to_subclass_of : Env -> class -> result bool)
    (unwrap_to_subclass_of : Env -> class -> result Env)
    (env e : Env) (st : store) (P : Pdict) (with_absorbing_state : bool) :
  unwrap_env env (Some DiscreteEnvC) = Ok e ->
  is_unwrappable_to env RewardWrapperC = false ->
  holds st P ->
  let first := get_reward_matrix is_unwrappable_to_subclass_of unwrap_to_subclass_of env
                 with_absorbing_state st in
  let st1 := snd (fst first) in
  let second := get_reward_matrix is_unwrappable_to_subclass_of unwrap_to_subclass_of env
                  with_absorbing_state st1 in
  let st2 := snd (fst second) in
  fst (fst second) = fst (fst first)
  /\ read_P st2 (env_P st2) = read_P st1 (env_P st1)
  /\ env_P st2 = env_P st.
Proof.
  intros He Hplain Hst.
  destruct (get_reward_matrix_plain_run is_unwrappable_to_subclass_of unwrap_to_subclass_of
              env e st P with_absorbing_state He Hplain Hst) as (st1 & Hrun1 & Henv1 & Hh1).
  destruct (get_reward_matrix_plain_run is_unwrappable_to_subclass_of unwrap_to_subclass_of
              env e st1 _ with_absorbing_state He Hplain Hh1) as (st2 & Hrun2 & Henv2 & Hh2).
  cbv zeta. rewrite Hrun1. cbn [fst snd]. rewrite Hrun2. cbn [fst snd].
  assert (E : (if with_absorbing_state
               then rewire_P (if with_absorbing_state then S (observation_space_n env)
                              else observation_space_n env)
                      (if with_absorbing_state
                       then rewire_P (if with_absorbing_state
                                      then S (observation_space_n env)
                                      else observation_space_n env) P
                       else P)
               else if with_absorbing_state
                    then rewire_P (if with_absorbing_state then S (observation_space_n env)
                                   else observation_space_n env) P
                    else P)
              = (if with_absorbing_state
                 then rewire_P (if with_absorbing_state then S (observation_space_n env)
                                else observation_space_n env) P
                 else P)).
  { destruct with_absorbing_state; [apply rewire_P_idempotent | reflexivity]. }
  split; [|split].
  - rewrite E. reflexivity.
  - rewrite (holds_read_P _ _ Hh2), (holds_read_P _ _ Hh1). exact E.
  - congruence.
Qed.

Lemma get_reward_matrix_plain_twice_witness :
  fst (fst (get_reward_matrix subclass_test subclass_unwrap (DiscreteEnv 2 1) true
              (snd (fst (get_reward_matrix subclass_test subclass_unwrap (DiscreteEnv 2 1)
                           true (store_of P_episode))))))
  = fst (fst (get_reward_matrix subclass_test subclass_unwrap (DiscreteEnv 2 1) true
                (store_of P_episode))).
Proof.
  assert (H : holds (store_of P_episode) P_episode).
  { exists [(0, 0); (1, 1)]%nat. split; [vm_compute; reflexivity|].
    split; [repeat constructor|]. repeat constructor; simpl; intuition lia. }
  exact (proj1 (get_reward_matrix_plain_twice subclass_test subclass_unwrap
                  (DiscreteEnv 2 1) (DiscreteEnv 2 1) (store_of P_episode) P_episode true
                  eq_refl eq_refl H)).
Defined.

(** ** The second recomputation when the reward input cannot be built *)


Section SecondPassRaises.

Variable is_unwrappable_to_subclass_of : Env -> class -> result bool.
Variable unwrap_to_subclass_of : Env -> class -> result Env.


End SecondPassRaises.





(** ** [sa_visitations]: entries and exceptions *)

Section VisitCounts.

Variables s a : nat.

Local Abbreviation at_sa := (fun (traj : trajectory) (t : nat) =>
  match states traj !! t, actions traj !! t with
  | Some s', Some a' => (s' =? s)%nat && (a' =? a)%nat
  | _, _ => false
  end).

Lemma on_timestep_Mat (traj : trajectory) (t : nat) (sa sa' : mat) :
  on_timestep traj t sa = Ok sa' ->
  Mat sa' s a == Mat sa s a + (if at_sa traj t then 1 else 0).
Proof.
  unfold on_timestep.
  destruct (states traj !! t) as [s'|]; [|discriminate].
  destruct (actions traj !! t) as [a'|]; [|discriminate].
  intros H. rewrite (mat_add_at_Mat _ _ _ _ _ s a H).
  rewrite (Nat.eqb_sym s s'), (Nat.eqb_sym a a'). reflexivity.
Qed.

Lemma timesteps_loop_Mat (traj : trajectory) (l : list nat) :
  forall (sa sa' : mat),
  for_each l (on_timestep traj) sa = Ok sa' ->
  Mat sa' s a == Mat sa s a + Qnat (length (List.filter (at_sa traj) l)).
Proof.
  induction l as [|t l IH]; intros sa sa' H; simpl in H.
  - injection H as <-. simpl. change (Qnat 0) with 0. ring.
  - apply bind_Ok in H. destruct H as (sa1 & H1 & H).
    rewrite (IH _ _ H), (on_timestep_Mat _ _ _ _ H1). cbn [List.filter]. cbv beta.
    destruct (match states traj !! t with
              | Some s' => match actions traj !! t with
                           | Some a' => (s' =? s)%nat && (a' =? a)%nat
                           | None => false
                           end
              | None => false
              end); [cbn [length]; rewrite Qnat_S|]; ring.
Qed.

Lemma on_traj_Mat (traj : trajectory) (acc acc' : vec * mat) :
  on_traj traj acc = Ok acc' ->
  Mat (snd acc') s a == Mat (snd acc) s a + Qnat (visits s a traj).
Proof.
  unfold on_traj. destruct (states traj !! 0%nat) as [s0|]; [|discriminate].
  intros H. apply bind_Ok in H. destruct H as (c & _ & H).
  apply bind_Ok in H. destruct H as (sa' & Hloop & H). injection H as <-.
  simpl. apply (timesteps_loop_Mat _ _ _ _ Hloop).
Qed.

Lemma trajs_loop_Mat (trajs : list trajectory) :
  forall (acc acc' : vec * mat),
  for_each trajs on_traj acc = Ok acc' ->
  Mat (snd acc') s a == Mat (snd acc) s a + Qnat (total_visits s a trajs).
Proof.
  induction trajs as [|traj trajs IH]; intros acc acc' H; simpl in H.
  - injection H as <-. change (Qnat (total_visits s a [])) with 0. ring.
  - apply bind_Ok in H. destruct H as (acc1 & H1 & H).
    rewrite (IH _ _ H), (on_traj_Mat _ _ _ H1).
    change (total_visits s a (traj :: trajs))
      with (visits s a traj + total_visits s a trajs)%nat.
    rewrite Qnat_plus. ring.
Qed.

End VisitCounts.

(** X21.  Whenever [sa_visitations] returns, the entry [visit_counts[s, a]] is
    the number of timesteps of the dataset at which the state is [s] and the
    action is [a]. *)
Theorem sa_visitations_counts (n_states n_actions : nat)
    (expert_trajs : list trajectory) (visit_counts : mat) (P0 : vec) (s a : nat) :
  sa_visitations n_states n_actions expert_trajs = Ok (visit_counts, P0) ->
  Mat visit_counts s a == Qnat (total_visits s a expert_trajs).
Proof.
  unfold sa_visitations. intros H. apply bind_Ok in H. destruct H as (acc & Hloop & H).
  injection H as <- _.
  rewrite (trajs_loop_Mat s a _ _ _ Hloop). simpl snd. rewrite Mat_zeros2. ring.
Qed.

Lemma sa_visitations_counts_witness :
  exists visit_counts P0,
    sa_visitations 3 1 chain_trajs = Ok (visit_counts, P0)
    /\ Mat visit_counts 1 0 == Qnat (total_visits 1 0 chain_trajs).
Proof.
  eexists. eexists. split; [vm_compute; reflexivity|].
  exact (sa_visitations_counts 3 1 chain_trajs _ _ 1%nat 0%nat eq_refl).
Defined.

(** *** Exceptions *)

Lemma for_each_Ok_all {A B : Type} (I : B -> Prop) (good : A -> Prop) (l : list A)
    (body : A -> B -> result B) :
  (forall x b b', In x l -> I b -> body x b = Ok b' -> I b' /\ good x) ->
  forall (acc acc' : B),
  I acc -> for_each l body acc = Ok acc' -> I acc' /\ List.Forall good l.
Proof.
  induction l as [|x l IH]; intros Hbody acc acc' Hacc H; simpl in H.
  - injection H as <-. split; [exact Hacc | constructor].
  - apply bind_Ok in H. destruct H as (b & Hb & H).
    destruct (Hbody x acc b (or_introl eq_refl) Hacc Hb) as [Ib Gx].
    destruct (IH (fun y c c' Hy => Hbody y c c' (or_intror Hy)) b acc' Ib H) as [I' G'].
    split; [exact I' | constructor; assumption].
Qed.

Lemma vec_add_at_in_range n (v v' : vec) (i : nat) (x : Q) :
  vec_shape n v -> vec_add_at v i x = Ok v' -> (i < n)%nat /\ vec_shape n v'.
Proof.
  intros Hv H. unfold vec_add_at in H. destruct (v !! i) as [y|] eqn:E; [|discriminate].
  injection H as <-. apply lookup_lt_Some in E. unfold vec_shape in *.
  rewrite length_insert. split; [lia | exact Hv].
Qed.

Lemma mat_add_at_in_range n m (M M' : mat) (i j : nat) (x : Q) :
  mat_shape n m M -> mat_add_at M i j x = Ok M' ->
  (i < n)%nat /\ (j < m)%nat /\ mat_shape n m M'.
Proof.
  intros HM H. pose proof H as H0. unfold mat_add_at in H.
  destruct (M !! i) as [r|] eqn:E; [|discriminate].
  assert (Hi : (i < n)%nat).
  { apply lookup_lt_Some in E. destruct HM as [Hl _]. lia. }
  destruct (mat_lookup_shape _ _ _ _ HM Hi) as (r0 & Hr0 & Hrsh).
  rewrite E in Hr0. injection Hr0 as <-.
  apply bind_Ok in H. destruct H as (r' & Hr' & _).
  destruct (vec_add_at_in_range _ _ _ _ _ Hrsh Hr') as [Hj _].
  split; [exact Hi|]. split; [exact Hj|].
  destruct (mat_add_at_ok _ _ _ _ _ x HM Hi Hj) as (M2 & H2 & Hsh). congruence.
Qed.

Section VisitationErrors.

Variables n_states n_actions : nat.

Lemma on_traj_Ok_well_formed (traj : trajectory) (acc acc' : vec * mat) :
  vec_shape n_states (fst acc) /\ mat_shape n_states n_actions (snd acc) ->
  on_traj traj acc = Ok acc' ->
  (vec_shape n_states (fst acc') /\ mat_shape n_states n_actions (snd acc'))
  /\ well_formed_traj n_states n_actions traj = true.
Proof.
  intros [Hv Hm] H. unfold on_traj in H.
  destruct (states traj !! 0%nat) as [s0|] eqn:E0; [|discriminate].
  apply bind_Ok in H. destruct H as (c & Hc & H).
  apply bind_Ok in H. destruct H as (sa' & Hloop & H). injection H as <-.
  destruct (vec_add_at_in_range _ _ _ _ _ Hv Hc) as [Hs0 Hc'].
  destruct (for_each_Ok_all (mat_shape n_states n_actions)
              (fun t => exists s a, states traj !! t = Some s /\ actions traj !! t = Some a
                                    /\ (s < n_states)%nat /\ (a < n_actions)%nat)
              (seq 0 (length (actions traj))) (on_timestep traj)) with (acc := snd acc)
              (acc' := sa') as [Hsa' Hall]; [|exact Hm | exact Hloop|].
  { intros t b b' _ Hb Ht. unfold on_timestep in Ht.
    destruct (states traj !! t) as [s|]; [|discriminate].
    destruct (actions traj !! t) as [a|]; [|discriminate].
    destruct (mat_add_at_in_range _ _ _ _ _ _ _ Hb Ht) as (Hs & Ha & Hb').
    split; [exact Hb'|]. exists s, a. auto. }
  split; [split; assumption|].
  rewrite List.Forall_forall in Hall.
  assert (Hat : forall t, (t < length (actions traj))%nat ->
            exists s a, states traj !! t = Some s /\ actions traj !! t = Some a
                        /\ (s < n_states)%nat /\ (a < n_actions)%nat).
  { intros t Ht. apply Hall. apply in_seq. lia. }
  unfold well_formed_traj.
  destruct (states traj) as [|s0' rest] eqn:Est; [discriminate|].
  simpl in E0. injection E0 as ->.
  apply andb_true_iff. split; [apply andb_true_iff; split; [apply andb_true_iff; split|]|].
  - apply Nat.ltb_lt. exact Hs0.
  - apply Nat.leb_le.
    destruct (length (actions traj)) as [|L] eqn:EL; [lia|].
    destruct (Hat L ltac:(lia)) as (s & _ & Hs & _). apply lookup_lt_Some in Hs. lia.
  - apply forallb_forall. intros x Hx.
    destruct (In_nth _ _ 0%nat Hx) as (t & Ht & Hnth).
    rewrite length_firstn in Ht.
    destruct (Hat t ltac:(lia)) as (s & _ & Hs & _ & Hsn & _).
    rewrite nth_firstn in Hnth.
    destruct (Nat.ltb_spec t (length (actions traj))); [|lia].
    rewrite (nth_lookup_list _ _ _ 0%nat Hs) in Hnth. subst x.
    apply Nat.ltb_lt. exact Hsn.
  - apply forallb_forall. intros x Hx.
    destruct (In_nth _ _ 0%nat Hx) as (t & Ht & Hnth).
    destruct (Hat t Ht) as (s & a & _ & Ha & _ & Han).
    rewrite (nth_lookup_list _ _ _ 0%nat Ha) in Hnth. subst x.
    apply Nat.ltb_lt. exact Han.
Qed.

Lemma on_traj_Raise (traj : trajectory) (acc : vec * mat) (e : exn) :
  on_traj traj acc = Raise e -> e = IndexError.
Proof.
  unfold on_traj. destruct (states traj !! 0%nat) as [s0|]; [|congruence].
  destruct (vec_add_at (fst acc) s0 1) as [c|e'] eqn:Ec; simpl.
  - destruct (for_each _ (on_timestep traj) (snd acc)) as [sa'|e'] eqn:El; simpl;
      [discriminate|].
    intros H. injection H as <-.
    apply for_each_Raise in El. destruct El as (t & b & _ & Ht).
    unfold on_timestep in Ht.
    destruct (states traj !! t); [|congruence].
    destruct (actions traj !! t); [|congruence].
    eapply mat_add_at_Raise. exact Ht.
  - intros H. injection H as <-. eapply vec_add_at_Raise. exact Ec.
Qed.

End VisitationErrors.

Lemma sa_visitations_returns_iff (n_states n_actions : nat)
    (expert_trajs : list trajectory) :
  match sa_visitations n_states n_actions expert_trajs with
  | Ok (visit_counts, P0) =>
      forallb (well_formed_traj n_states n_actions) expert_trajs = true
      /\ mat_shape n_states n_actions visit_counts /\ vec_shape n_states P0
  | Raise e =>
      e = IndexError
      /\ forallb (well_formed_traj n_states n_actions) expert_trajs = false
  end.
Proof.
  unfold sa_visitations.
  destruct (for_each expert_trajs on_traj (zeros n_states, zeros2 n_states n_actions))
    as [acc|e] eqn:Hloop; simpl.
  - destruct (for_each_Ok_all
                (fun acc : vec * mat =>
                   vec_shape n_states (fst acc) /\ mat_shape n_states n_actions (snd acc))
                (fun traj => well_formed_traj n_states n_actions traj = true)
                expert_trajs on_traj) with (acc := (zeros n_states, zeros2 n_states n_actions))
                (acc' := acc) as [[Hv Hm] Hall]; [| |exact Hloop|].
    + intros traj b b' _ Hb Ht. apply (on_traj_Ok_well_formed _ _ _ _ _ Hb Ht).
    + split; [apply zeros_shape | apply zeros2_shape].
    + split; [|split; [exact Hm|]].
      * apply forallb_forall. rewrite List.Forall_forall in Hall. exact Hall.
      * unfold vec_shape. rewrite length_map. exact Hv.
  - split.
    + apply for_each_Raise in Hloop. destruct Hloop as (traj & b & _ & Ht).
      eapply on_traj_Raise. exact Ht.
    + destruct (forallb (well_formed_traj n_states n_actions) expert_trajs) eqn:Hwf;
        [|reflexivity].
      destruct (trajs_loop_spec n_states n_actions expert_trajs Hwf
                  (zeros n_states) (zeros2 n_states n_actions)
                  (zeros_shape _) (zeros2_shape _ _)) as (c & d & Hok & _).
      congruence.
Qed.

(** X22.  [sa_visitations] returns exactly when every trajectory of the
    dataset is well formed (a first state, a state for every action, states
    and actions in range), with arrays of shapes [n_states x n_actions] and
    [n_states]; otherwise it raises [IndexError]. *)
Theorem sa_visitations_index_error (n_states n_actions : nat)
    (expert_trajs : list trajectory) :
  match sa_visitations n_states n_actions expert_trajs with
  | Ok (visit_counts, P0) =>
      forallb (well_formed_traj n_states n_actions) expert_trajs = true
      /\ mat_shape n_states n_actions visit_counts /\ vec_shape n_states P0
  | Raise e =>
      e = IndexError
      /\ forallb (well_formed_traj n_states n_actions) expert_trajs = false
  end.
Proof. apply sa_visitations_returns_iff. Qed.

(** ** [train]: the edges *)

(** X23.  With zero iterations [train] returns the parameters untouched,
    whatever the forward solver and without running [occupancy_measure],
    provided the dataset is well formed; on a dataset that is not, it raises
    [IndexError] (from [sa_visitations]) before the loop. *)
Theorem train_zero_iterations (n_states n_actions : nat) (T : tensor) (gamma lr : Q)
    (expert_trajs : list trajectory) (agent : Type)
    (agent_train : agent -> vec -> nat -> agent) (policy_array : agent -> mat)
    (fuel no_rl_episodes theta_ref : nat) (a : agent) (h : gmap nat (list Q)) :
  train n_states n_actions T gamma lr expert_trajs agent agent_train policy_array
    fuel 0 no_rl_episodes theta_ref a h
  = if forallb (well_formed_traj n_states n_actions) expert_trajs
    then Some (Ok (theta_ref, h))
    else Some (Raise IndexError).
Proof.
  destruct (forallb (well_formed_traj n_states n_actions) expert_trajs) eqn:Hwf.
  - destruct (train_enters_loop n_states n_actions T gamma lr expert_trajs agent
                agent_train policy_array Hwf) as (P0 & mfc & _ & _ & Hrun).
    rewrite Hrun. reflexivity.
  - pose proof (sa_visitations_returns_iff n_states n_actions expert_trajs) as H.
    unfold train.
    destruct (sa_visitations n_states n_actions expert_trajs) as [[vc P0]|e].
    + destruct H as [H _]. congruence.
    + destruct H as [-> _]. reflexivity.
Qed.

(** X24.  An iteration of [train] raises [ValueError] at the in-place update
    of line 143 when the parameter array does not have [n_states - 1] entries
    and [n_states - 1] is not 1: the step [lr * dl_dtheta[:-1]] has
    [n_states - 1] entries and cannot be broadcast. *)
Theorem train_theta_shape_mismatch (n_states n_actions : nat) (T : tensor)
    (gamma lr : Q) (agent : Type) (agent_train : agent -> vec -> nat -> agent)
    (policy_array : agent -> mat) (fuel remaining no_rl_episodes : nat)
    (P0 mean_feature_count : vec) (theta_ref : nat) (a : agent)
    (h : gmap nat (list Q)) (theta d : vec) :
  length P0 = n_states ->
  length mean_feature_count = n_states ->
  h !! theta_ref = Some theta ->
  length theta <> pred n_states ->
  pred n_states <> 1%nat ->
  occupancy_measure n_states n_actions T gamma fuel
    (policy_array (agent_train a theta no_rl_episodes)) (Some P0) None default_threshold
  = Some (Ok d) ->
  train_loop n_states n_actions T gamma lr agent agent_train policy_array
    fuel (S remaining) no_rl_episodes P0 mean_feature_count theta_ref a h
  = Some (Raise ValueError).
Proof.
  intros HP0 Hmfc Hth Hlen Hone Hocc.
  pose proof (occupancy_measure_length _ _ _ _ _ _ _ _ _ _ Hocc) as Hld.
  simpl. rewrite Hth. simpl. rewrite Hocc.
  unfold update_theta.
  destruct (dot_T_spec n_states (feat_map n_states) d) as (fd & Hfd & Hlfd & _).
  { unfold feat_map. rewrite length_eye. congruence. }
  rewrite Hfd. simpl. rewrite Hth. simpl.
  assert (Hldl : length (neg_diff mean_feature_count fd) = n_states).
  { unfold neg_diff. rewrite length_zip_with_Q by congruence. exact Hmfc. }
  unfold isub. rewrite length_map, removelast_length, Hldl.
  destruct (Nat.eqb_spec (length theta) (pred n_states)) as [E|_]; [contradiction|].
  assert (Hg : length (map (Qmult lr) (removelast (neg_diff mean_feature_count fd)))
               = pred n_states).
  { rewrite length_map, removelast_length, Hldl. reflexivity. }
  destruct (map (Qmult lr) (removelast (neg_diff mean_feature_count fd))) as [|x [|y g]];
    simpl in Hg; try reflexivity.
  exfalso. apply Hone. symmetry. exact Hg.
Qed.

Lemma train_theta_shape_mismatch_witness :
  train_loop 3 1 [ [[0; 1; 0]]; [[0; 0; 1]]; [[0; 0; 1]] ] 0 (1 # 2) unit
    chain_agent_train (fun _ => [[1]; [1]; [1]]) 2 1 1 [1; 0; 0] [1; 0; 0] 0 tt
    {[ 0%nat := [0; 0; 0] ]}
  = Some (Raise ValueError).
Proof.
  apply (train_theta_shape_mismatch 3 1 [ [[0; 1; 0]]; [[0; 0; 1]]; [[0; 0; 1]] ] 0
           (1 # 2) unit chain_agent_train (fun _ => [[1]; [1]; [1]]) 2 0 1
           [1; 0; 0] [1; 0; 0] 0 tt {[ 0%nat := [0; 0; 0] ]} [0; 0; 0]
           [1 # 1; 0 # 1; 0 # 1]).
  - reflexivity.
  - reflexivity.
  - vm_compute. reflexivity.
  - simpl. lia.
  - simpl. lia.
  - vm_compute. reflexivity.
Defined.

(** ** [to_one_hot] *)





(** ** [sigma] *)

Lemma sigma_entry (array : vec) :
  sigma array = map (fun x => if Qle_bool 0 x then 1 else -1) array.
Proof.
  unfold sigma, assign_where. rewrite map_map. apply map_ext. intros x.
  unfold Qlt_bool. destruct (Qle_bool 0 x) eqn:E; [reflexivity|].
  rewrite E. reflexivity.
Qed.

Lemma Vat_map (f : Q -> Q) (v : vec) (i : nat) :
  (i < length v)%nat -> Vat (map f v) i = f (Vat v i).
Proof.
  intros Hi. unfold Vat. rewrite (nth_indep _ 0 (f 0)) by (rewrite length_map; exact Hi).
  apply map_nth.
Qed.

(** X26.  [sigma(array)] has the length of [array]; its entry is 1 where the
    entry of [array] is at least 0 and -1 where it is negative, so that
    [sigma(array) * abs(array)] is [array]; and [sigma] applied twice is
    [sigma]. *)
Theorem sigma_signs (array : vec) :
  length (sigma array) = length array
  /\ (forall i, (i < length array)%nat ->
        Vat (sigma array) i = (if Qle_bool 0 (Vat array i) then 1 else -1)
        /\ Vat (sigma array) i * Qabs (Vat array i) == Vat array i)
  /\ sigma (sigma array) = sigma array.
Proof.
  rewrite !sigma_entry. split; [apply length_map|]. split.
  - intros i Hi. rewrite Vat_map by exact Hi. split; [reflexivity|].
    destruct (Qle_bool 0 (Vat array i)) eqn:E.
    + apply Qle_bool_iff in E. rewrite Qabs_pos by exact E. ring.
    + assert (Hneg : Vat array i <= 0).
      { apply Qlt_le_weak. apply Qnot_le_lt. intros H. apply Qle_bool_iff in H. congruence. }
      rewrite Qabs_neg by exact Hneg. ring.
  - rewrite map_map. apply map_ext. intros x.
    destruct (Qle_bool 0 x); reflexivity.
Qed.

(** ** [avg_undiscounted_return] *)




(** ** [MetricsLogger] *)

Section Logger.

Context {V : Type}.

Import MetricsLogger.

Lemma lookup_log_metric (name k : String.string) (v : V) (m : metrics V) :
  lookup_metric name (log_metric k v m)
  = if String.eqb k name then Some (default [] (lookup_metric name m) ++ [v])
    else lookup_metric name m.
Proof.
  induction m as [|[k' vs] m IH]; simpl.
  - destruct (String.eqb k name); reflexivity.
  - destruct (String.eqb_spec k' k) as [->|Hne]; simpl.
    + destruct (String.eqb k name); reflexivity.
    + rewrite IH. destruct (String.eqb_spec k' name) as [->|Hne'].
      * destruct (String.eqb_spec k name) as [->|_]; [congruence | reflexivity].
      * reflexivity.
Qed.

Lemma keys_log_metric (k : String.string) (v : V) (m : metrics V) :
  map fst (log_metric k v m)
  = if existsb (String.eqb k) (map fst m) then map fst m else map fst m ++ [k].
Proof.
  induction m as [|[k' vs] m IH]; simpl; [reflexivity|].
  rewrite (String.eqb_sym k k').
  destruct (String.eqb k' k); simpl; [reflexivity|].
  rewrite IH. destruct (existsb (String.eqb k) (map fst m)); reflexivity.
Qed.

Lemma fold_log_metric (calls : list (String.string * V)) (name : String.string) :
  forall m : metrics V,
  let m' := fold_left (fun m c => log_metric (fst c) (snd c) m) calls m in
  lookup_metric name m'
  = match lookup_metric name m,
          List.filter (fun c => String.eqb (fst c) name) calls with
    | None, [] => None
    | o, l => Some (default [] o ++ map snd l)
    end
  /\ map fst m' = map fst m ++ first_calls (map fst m) (map fst calls).
Proof.
  induction calls as [|[k v] calls IH]; intros m; simpl.
  - split; [|rewrite app_nil_r; reflexivity].
    destruct (lookup_metric name m); [simpl; rewrite app_nil_r|]; reflexivity.
  - destruct (IH (log_metric k v m)) as [IH1 IH2]. cbv zeta in IH1, IH2.
    rewrite IH1, IH2. clear IH1 IH2.
    rewrite lookup_log_metric, keys_log_metric. split.
    + destruct (String.eqb k name); simpl.
      * destruct (lookup_metric name m); simpl; rewrite <- ?app_assoc; reflexivity.
      * reflexivity.
    + destruct (existsb (String.eqb k) (map fst m)); [reflexivity|].
      rewrite <- app_assoc. reflexivity.
Qed.

End Logger.

(** X28.  After a sequence of calls of [log_metric] on a new [MetricsLogger],
    the list stored under a name holds the values logged under that name, in
    the order of the calls, a name that was never logged has no entry, and
    the keys stand in the order in which the names were first logged. *)
Theorem logged_metrics {V : Type} (calls : list (String.string * V))
    (name : String.string) :
  MetricsLogger.lookup_metric name (logged calls)
  = match List.filter (fun c => String.eqb (fst c) name) calls with
    | [] => None
    | l => Some (map snd l)
    end
  /\ map fst (logged calls) = first_calls [] (map fst calls).
Proof.
  unfold logged. destruct (fold_log_metric calls name MetricsLogger.init) as [H1 H2].
  cbv zeta in H1, H2. rewrite H1, H2. split; reflexivity.
Qed.
